(* ===== verification/_CoqProject ===== *)
-Q . S2P
Prelude.v
Style.v
Number.v
Transition.v
Entrants.v
Bracket.v
Propagation.v
Scoring.v
Simulation.v
View.v
Progress.v
App.v
Ui.v
Display.v
Runs.v
Spec.v
Refinement.v
Conformance.v
Departures.v
Scenarios.v
