(* ===== verification/Prelude.v ===== *)
(** * Verification of the 8-team pick'em bracket (src/app/page.tsx)

    ** The program

    [src/app/page.tsx] is one React component, [Home].  Its state is three
    match stores ([qf]: four quarterfinals, [sf]: two semifinals,
    [finalMatch]) and the list [announced] of checkpoint thresholds that
    have already been reported.  Three event handlers change it:
    [handlePick] records the user's pick in a match and pushes the picked
    team into the slot of the next round, [handleSimulate] draws a random
    outcome for every match, [handleReset] restores the initial bracket.
    [points] is computed from the stores on every render, an effect compares
    it with the checkpoints 6 / 12 / 18 and reports the ones newly reached.
    The JSX renders a header with the buttons Reset and Simuleer, a
    progress bar with a marker per checkpoint, and seven cards with two
    seeds each; a seed is a button that picks its team, by a click or by
    Enter or the space bar, or a "TBD" box without handler when the slot is
    empty.

    ** The files, in dependency order

    - [Prelude] (this file): what the components share.  The crash monad
      ([option]; [None] is an uncaught [TypeError], which aborts the render
      so that no state is committed), JavaScript arrays with their
      out-of-range behaviour ([arr_get], [arr_set], [arr_map_st],
      [arr_reduce]), the notation scope [js_scope], the tactics
      [index_cases], [crash_inv] and the hint database [js].
    - [Style]: the class strings (lines 29-35, 51-62), template literals
      and the class list of a [className].
    - [Number]: JavaScript numbers where the component divides: binary64,
      as Rocq's primitive floats, with [Math.min] and the exact rational
      value of a number.
    - [Transition]: the interface [System] (an initial state and a partial
      step function), reachability as an inductive relation, the
      induction principles every invariant uses, and simulations between
      systems, over the same events or through a translation of events.
    - [Entrants]: [Team] and [initialTeams] (lines 5-8, 18-27).
    - [Bracket]: [Match], the stores as the record [Home], the values
      passed to [useState] ([initialQf], [initialSf], [initialFinal]), the
      shape invariant [shaped] (lines 10-16, 105-118, 140).
    - [Propagation]: [handlePick] (lines 156-222), one definition per state
      updater, composed as the handler composes them, [handlePickFrom]
      (the same handler with the closure of an earlier render) and
      [handleReset] (lines 224-233).
    - [Scoring]: [calc], [points], [checkpoints], [newlyReached], the alert
      messages and the checkpoint effect (lines 120-140, 237-264).
    - [Simulation]: [pickRandom] and [handleSimulate] over an explicit tape
      of [Math.random()] results (lines 142-154).
    - [View]: [getCardStateClass], [getSeedStatus], [seedButton] with the
      attributes of its button and its [onKeyDown], [champion], the seven
      cards (lines 37-49, 64-103, 235, 326-477).
    - [Progress]: the progress bar and its markers (lines 290-324).
    - [App]: the component as a [System] whose events are the clicks the
      view offers; the equivalence of states with the same stores; the
      invariants of every reachable state.
    - [Ui]: the page [Home] returns (lines 266-479), the handler call of
      a click or a key on each of its controls, and the component driven
      by such gestures.
    - [Display]: what the page shows against the state it was rendered
      from.
    - [Runs]: runs of the component: the component without its effect,
      filling in a bracket, the alerts of a whole run.
    - [Spec]: the bracket engine as spec.md states it, nothing taken from
      the source: a tree of seven positions, [applyPick], [simulateAll],
      the score, the checkpoints, and the engine as a system driven by
      its three commands.
    - [Refinement]: the tree a state stands for, and each handler against
      the command of [Spec] it implements.
    - [Conformance]: whole runs of the component against whole runs of
      the specification.
    - [Departures]: where the reachable states depart from the
      specification, each departure as a property of every reachable
      state.
    - [Scenarios]: named runs evaluated by [run]: the scenario of the
      specification and one example of each departure.

    ** How state and effects are modelled

    - A [Team] or [Match] is a record; an optional property ([teamA?]) is
      an [option], [None] standing for both "absent" and [undefined], which
      no line of the source tells apart.
    - [Match[]] is [list (option Match)]: an element is [None] where the
      JavaScript array has no element.  The source can only produce such an
      element by writing past the end of a store, and [shaped] excludes it
      in every reachable state; the model still says what the code does
      there, with one limit: a hole that has been copied by [[...prev]]
      is an element [undefined], on which the callback of [prev.map] in
      [handleSimulate] throws, while [arr_map_st] skips every [None] as
      [map] skips a hole.  [reduce], the index reads and the view treat
      both alike.  [arr_set] leaves the array unchanged at a negative
      index, where JavaScript sets a property that is no element; no
      handler gets there, because the read of the same index before the
      write throws and [targetIndex] is 0 or 1.
    - [matchIndex: number] is a [Z], so negative indexes are covered; a
      fractional index is not representable.  The totals are integers
      below 2^53, where binary64 is exact, and stay in [Z]; the two
      percentages of the progress bar are computed in binary64 as the
      source computes them.
    - A state updater passed to [setQf]/[setSf]/[setFinalMatch] is a
      function from the previous store to [option] of the next one.  The
      handler's closure variables [qf] and [sf] are the stores of the
      render that created the handler; [useCallback] lists both as
      dependencies and React commits between two clicks, so the handler
      model passes the current stores for them.  The updaters take the
      closure value as a separate argument, so that this assumption is
      visible where it is used, and [handlePickFrom] is the handler
      whose closure is not the current state.
    - [Math.random()] is the next entry of a tape [nat -> Q]; the handler
      threads the position on the tape, so the number of draws is part of
      the model.  The tape may hold any rational, not only the binary64
      numbers of [[0, 1)]: the theorems hold for more draws than the
      browser makes.  Every simulation reads its own tape from the
      start.
    - An element of the JSX is a record of its attributes, the class
      strings written inline included; an [onClick] is the handler call
      it makes.
      A gesture is dispatched on the page rendered from the current
      state, so which buttons exist is computed, never assumed.

    ** What the theorems show

    - [Prelude]: get/set laws of JavaScript arrays, including growth past
      the end, and the agreement of the state-threading [map] with its
      list reference.
    - [Propagation]: the effect of a pick on every store, for each round
      and on every branch, errors included (an index without a match is a
      [TypeError]); preservation of the shape; idempotence; commutation
      of picks in different matches of a round; [handleReset] restores the
      initial stores and keeps [announced]; a quarterfinal pick does not
      depend on the age of its closure, a semifinal pick depends on it
      through the picked slot only.
    - [Scoring]: [points] is 3 per correct pick plus 1 per other simulated
      match, between 0 and 21 and never 20; [newlyReached] is exactly the
      reached thresholds not yet announced; a checkpoint is reported
      once; the chain of effect runs ends after the second run.
    - [Simulation]: an outcome is one of the occupants; one draw per match
      with two teams and none for the others; picks and slots are
      untouched; a second simulation forgets the first; every combination
      of outcomes is produced by some tape.
    - [View]: the buttons of a well-shaped state are exactly the slots
      that hold a team.
    - [Progress]: the width of the bar is the rational
      [min (points / 18 * 100) 100] up to [10^-14], lies between 0 and 100,
      is exactly 100 from 18 points on and never decreases with the
      total; a dot is lit exactly when the bar reaches its marker.
    - [App]: well-formedness of the stores is kept by every step and is
      enough for every offered button to work (preservation and
      progress).  Invariants of all reachable states, each by the
      induction principle of [Transition]: semifinal slots are the
      quarterfinal picks, final slots are semifinal picks or empty, picks
      are occupants; the quarterfinals keep the initial pairing; a team
      stays in its own part of the bracket, so the two teams of a match
      differ; outcomes of quarterfinals and final are occupants;
      [announced] is an initial part of 6, 12, 18 containing every
      threshold reached.  A step taken twice is a step taken once.  The
      handler of an earlier render does what the current one does unless
      it picks in a semifinal whose picked slot has changed since.
    - [Ui]: the component driven by gestures reaches the same states as
      the system of [App]; no gesture throws in a reachable state; Enter
      and the space bar on a seed do what a click does, other keys
      nothing; a gesture made twice changes nothing the second time.
    - [Display]: the border of a card tells the score of its match; a
      seed button shows its team, is pressed exactly when the team is the
      pick and toned by the outcome; at most one button of a card is
      pressed; after a click the same button is rendered pressed; the lit
      dots are announced checkpoints; a simulated card without a pick
      gets no border of its own; the texts of the bar are the
      checkpoints.
    - [Runs]: every bracket can be filled in from every reachable state;
      over a whole run each checkpoint alert is shown at most once;
      simulating a complete bracket scores at least 7.
    - [Refinement]: [handlePick] implements [applyPick] up to what it
      erases in the final, and exactly in a state where the final has
      nothing to lose; the two disagree on which references and which
      matches they reject; [points] is the specified total;
      [handleSimulate] is [simulateAll] when no match has a single team.
    - [Conformance]: a run of the component in which every event conforms
      is, command by command, a run of the specification with the same
      tree, announcements and total; filling in a bracket in round order
      and simulating it is such a run, for all sides and all draws.
    - [Departures]: in every reachable state, changing the pick of a
      quarterfinal whose team is the outcome of its semifinal leaves that
      semifinal with an outcome that is none of its teams; a pick in any
      quarterfinal strands the pick of the semifinal of the other half,
      until its pressed button is clicked again; a match with one team
      gets that team as outcome where the specification gives none; a
      checkpoint announced before a Reset is never alerted again; the
      alert that says all picks are right is shown exactly when six are.
    - [Scenarios]: the scenario of the specification, and one run for
      each departure, evaluated: a stale semifinal outcome, a stranded
      semifinal pick, an outcome for a match with one team, [announced]
      surviving a reset, the 18-point alert with a wrong pick, a
      champion of a bracket with empty slots, and a semifinal handler
      called one render late.

    ** Bounds and fuel

    The stores have 4, 2 and 1 entries and every operation is structurally
    recursive over them.  The one loop of the program is the effect, which
    runs again after its own [setAnnounced]: [effectLoop] takes the number
    of runs as fuel, and [effectLoop_terminates] shows that fuel 2 is
    enough in every state (the second run finds nothing new), so [step]
    uses the state after one run.  Indexes are unbounded integers; the
    theorems about well-shaped states split them into the 4 or 2 that have
    a match ([index_cases]) and the rest, which throw.  The total of a
    well-shaped state is one of the 22 integers from 0 to 21, and the
    theorems about the floating-point percentages are proved by evaluating
    them at these 22 values ([points_cases]); nothing is claimed of the
    bar in a state that is not well shaped.  The specification clears
    picks downstream with depth 2 as fuel, which [clear_downstream_depth]
    shows to be enough for a tree of three rounds.

    ** Not modelled

    The decimal text of a number inside a [style] attribute, the nesting
    of the elements (a record holds the attributes of an element and of
    the boxes around it, not a tree), the DOM and the layout the classes
    produce, what the browser does by itself with a key on a focused
    button, and [alert] itself (the model returns the messages).  React is not
    modelled either; the model assumes its contract: updaters run in hook
    order on the committed state, a throwing updater commits nothing, the
    effect runs after every commit, and two clicks never share a
    render. *)

From Stdlib Require Import ZArith Lia.
From stdpp Require Import base tactics option list numbers.

Declare Scope js_scope.
Delimit Scope js_scope with js.

(** [e <??> d] is JavaScript's nullish coalescing [e ?? d] on an optional
    value, and [o <?.> f] the optional chaining [o?.f]. *)
Notation "e <??> d" := (default d e)
  (at level 45, left associativity, only parsing) : js_scope.
Notation "o <?.> f" := (fmap (M:=option) f o)
  (at level 40, left associativity, only parsing) : js_scope.

Create HintDb js discriminated.
Create Rewrite HintDb js.

(** * JavaScript arrays *)
Section js_array.
Context {T : Type}.
Implicit Types (l : list (option T)) (i j : Z) (v : T).

(** [l[i]]: [undefined] (here [None]) outside the array or at a hole. *)
Definition arr_get l i : option T :=
  if decide (0 ≤ i)%Z then mjoin (l !! Z.to_nat i) else None.

(** [l[i] = v] on a copy of [l]: replaces inside the array, grows the array
    (leaving holes) past its end, and for a negative index sets a property
    that is no element: the list is unchanged, and a later read of that
    index, which JavaScript would answer with [v], is not modelled.  The
    handlers write at an index they have read a match from, or at 0 or 1. *)
Definition arr_set i v l : list (option T) :=
  if decide (0 ≤ i)%Z then
    let n := Z.to_nat i in
    if decide (n < length l)%nat then <[n := Some v]> l
    else l ++ replicate (n - length l) None ++ [Some v]
  else l.

(** [l.reduce((acc, x) => f(acc, x), b)]: the callback is not called at a
    hole. *)
Definition arr_reduce {B : Type} (f : B → T → B) (b : B) l : B :=
  foldl (λ acc x, from_option (f acc) acc x) b l.

(** [l.map(f)] for a callback that threads a state [C] (the position on the
    random tape): elements are visited in index order, holes are skipped.
    Every [None] is taken for a hole; an element [undefined], which only a
    copy of an array with a hole has, would reach the callback. *)
Fixpoint arr_map_st {C U : Type} (f : T → C → U * C) l (c : C)
    : list (option U) * C :=
  match l with
  | [] => ([], c)
  | None :: l' => let '(r, c') := arr_map_st f l' c in (None :: r, c')
  | Some x :: l' =>
      let '(y, c1) := f x c in
      let '(r, c2) := arr_map_st f l' c1 in (Some y :: r, c2)
  end.

(** An array without holes. *)
Definition dense l : Prop := Forall is_Some l.

#[export] Instance dense_dec l : Decision (dense l).
Proof. unfold dense. apply _. Defined.

Lemma dense_fmap_Some l : dense l → ∃ k : list T, l = Some <$> k.
Proof.
  induction 1 as [|o l [x ->] _ [k ->]]; [by exists []|]. by exists (x :: k).
Qed.

Lemma arr_get_nat l (n : nat) : arr_get l (Z.of_nat n) = mjoin (l !! n).
Proof. unfold arr_get. rewrite decide_True by lia. by rewrite Nat2Z.id. Qed.

Lemma arr_get_neg l i : (i < 0)%Z → arr_get l i = None.
Proof. intros. unfold arr_get. by rewrite decide_False by lia. Qed.

Lemma arr_get_ge l i : (Z.of_nat (length l) ≤ i)%Z → arr_get l i = None.
Proof.
  intros. unfold arr_get. rewrite decide_True by lia.
  by rewrite lookup_ge_None_2 by lia.
Qed.

Lemma arr_get_Some_bounds l i v :
  arr_get l i = Some v → (0 ≤ i < Z.of_nat (length l))%Z.
Proof.
  unfold arr_get. case_decide; [|done]. intros Hg.
  destruct (l !! Z.to_nat i) eqn:E; [|done].
  apply lookup_lt_Some in E. lia.
Qed.

Lemma arr_get_dense l i :
  dense l → (0 ≤ i < Z.of_nat (length l))%Z → is_Some (arr_get l i).
Proof.
  intros Hd Hi. unfold arr_get. rewrite decide_True by lia.
  destruct (lookup_lt_is_Some_2 l (Z.to_nat i)) as [o Ho]; [lia|].
  rewrite Ho. eapply Forall_lookup_1 in Hd; eauto.
Qed.

Lemma arr_set_insert l i v :
  (0 ≤ i < Z.of_nat (length l))%Z → arr_set i v l = <[Z.to_nat i := Some v]> l.
Proof.
  intros. unfold arr_set. rewrite decide_True by lia.
  by rewrite decide_True by lia.
Qed.

Lemma arr_set_neg l i v : (i < 0)%Z → arr_set i v l = l.
Proof. intros. unfold arr_set. by rewrite decide_False by lia. Qed.

Lemma arr_set_grow l i v :
  (Z.of_nat (length l) ≤ i)%Z →
  arr_set i v l = l ++ replicate (Z.to_nat i - length l) None ++ [Some v].
Proof.
  intros. unfold arr_set. rewrite decide_True by lia.
  by rewrite decide_False by lia.
Qed.

Lemma length_arr_set l i v :
  (0 ≤ i)%Z → length (arr_set i v l) = max (length l) (S (Z.to_nat i)).
Proof.
  intros. destruct (decide (i < Z.of_nat (length l))%Z).
  - rewrite arr_set_insert, length_insert by lia. lia.
  - rewrite arr_set_grow by lia.
    rewrite !length_app, length_replicate. simpl. lia.
Qed.

Lemma arr_get_set_eq l i v : (0 ≤ i)%Z → arr_get (arr_set i v l) i = Some v.
Proof.
  intros. unfold arr_get. rewrite decide_True by lia.
  destruct (decide (i < Z.of_nat (length l))%Z).
  - rewrite arr_set_insert by lia. by rewrite list_lookup_insert_eq by lia.
  - rewrite arr_set_grow by lia.
    rewrite lookup_app_r by lia. rewrite lookup_app_r; rewrite length_replicate; [|lia].
    by replace (Z.to_nat i - length l - (Z.to_nat i - length l))%nat with 0%nat by lia.
Qed.

Lemma arr_get_set_ne l i j v : i ≠ j → arr_get (arr_set i v l) j = arr_get l j.
Proof.
  intros Hne. unfold arr_get. case_decide; [|done].
  destruct (decide (0 ≤ i)%Z); [|by rewrite arr_set_neg by lia].
  destruct (decide (i < Z.of_nat (length l))%Z).
  { rewrite arr_set_insert by lia. by rewrite list_lookup_insert_ne by lia. }
  rewrite arr_set_grow by lia.
  destruct (decide (Z.to_nat j < length l)%nat).
  { by rewrite lookup_app_l by lia. }
  rewrite lookup_app_r by lia. rewrite (lookup_ge_None_2 l) by lia.
  destruct (decide (Z.to_nat j - length l < Z.to_nat i - length l)%nat).
  { rewrite lookup_app_l by (rewrite length_replicate; lia).
    by rewrite lookup_replicate_2 by lia. }
  rewrite lookup_app_r by (rewrite length_replicate; lia).
  rewrite length_replicate. rewrite lookup_ge_None_2; [done|]. simpl. lia.
Qed.

(** The elements of an array after a write, position by position. *)
Lemma arr_set_lookup l i v (n : nat) :
  (0 ≤ i)%Z →
  arr_set i v l !! n =
    if decide (n = Z.to_nat i) then Some (Some v)
    else if decide (n < length l)%nat then l !! n
    else if decide (n < Z.to_nat i)%nat then Some None else None.
Proof.
  intros Hi. destruct (decide (i < Z.of_nat (length l))%Z).
  - rewrite arr_set_insert by lia. case_decide as Hn.
    + subst. by rewrite list_lookup_insert_eq by lia.
    + rewrite list_lookup_insert_ne by done. repeat case_decide; try done.
      * lia.
      * by rewrite lookup_ge_None_2 by lia.
  - rewrite arr_set_grow by lia. repeat case_decide; subst.
    + rewrite lookup_app_r by lia. rewrite lookup_app_r by (rewrite length_replicate; lia).
      rewrite length_replicate.
      by replace (Z.to_nat i - length l - (Z.to_nat i - length l))%nat with 0%nat by lia.
    + by rewrite lookup_app_l by lia.
    + rewrite lookup_app_r by lia.
      rewrite lookup_app_l by (rewrite length_replicate; lia).
      by rewrite lookup_replicate_2 by lia.
    + rewrite lookup_app_r by lia.
      rewrite lookup_app_r by (rewrite length_replicate; lia).
      rewrite length_replicate. apply lookup_ge_None_2. simpl. lia.
Qed.

(** A second write at the same index overwrites the first. *)
Lemma arr_set_twice l i v v' : arr_set i v' (arr_set i v l) = arr_set i v' l.
Proof.
  destruct (decide (0 ≤ i)%Z); [|by rewrite !arr_set_neg by lia].
  apply list_eq. intros n. rewrite !arr_set_lookup, length_arr_set by lia.
  repeat case_decide; try done; lia.
Qed.

(** Writing what is there changes nothing. *)
Lemma arr_set_same l i v : arr_get l i = Some v → arr_set i v l = l.
Proof.
  intros Hv. pose proof (arr_get_Some_bounds _ _ _ Hv) as Hi.
  rewrite arr_set_insert by done. apply list_insert_id.
  unfold arr_get in Hv. rewrite decide_True in Hv by lia.
  by destruct (l !! Z.to_nat i) as [[]|]; simplify_eq/=.
Qed.

Lemma arr_set_dense l i v :
  dense l → (0 ≤ i ≤ Z.of_nat (length l))%Z → dense (arr_set i v l).
Proof.
  intros Hd Hi. unfold dense. destruct (decide (i < Z.of_nat (length l))%Z).
  - rewrite arr_set_insert by lia. apply Forall_insert; eauto.
  - rewrite arr_set_grow by lia.
    replace (Z.to_nat i - length l)%nat with 0%nat by lia. simpl.
    apply Forall_app; split; [done|]. repeat constructor. eauto.
Qed.

Lemma arr_reduce_app {B} (f : B → T → B) b l1 l2 :
  arr_reduce f b (l1 ++ l2) = arr_reduce f (arr_reduce f b l1) l2.
Proof. apply foldl_app. Qed.

End js_array.

#[export] Hint Rewrite @arr_set_twice : js.
#[export] Hint Rewrite @arr_get_set_eq using lia : js.
#[export] Hint Rewrite @arr_get_set_ne using congruence : js.
#[export] Hint Rewrite @arr_get_neg @arr_get_ge using (simpl; lia) : js.
#[export] Hint Resolve arr_set_dense arr_get_dense : js.

(** * Maps that thread a state *)
Section map_st.
Context {T U C : Type} (f : T → C → U * C).
Implicit Types (l : list (option T)) (k : list T) (c : C).

(** The list counterpart of [arr_map_st]: one pass, left to right. *)
Fixpoint map_st k c : list U * C :=
  match k with
  | [] => ([], c)
  | x :: k' =>
      let '(y, c1) := f x c in
      let '(r, c2) := map_st k' c1 in (y :: r, c2)
  end.

(** Mapping an array visits its present elements like a list, in order. *)
Lemma arr_map_st_omap l c :
  prod_map (omap id) id (arr_map_st f l c) = map_st (omap id l) c.
Proof.
  revert c. induction l as [|[x|] l IH]; intros c; simpl; [done| |].
  - destruct (f x c) as [y c1]. rewrite <-IH. by destruct (arr_map_st f l c1).
  - rewrite <-IH. by destruct (arr_map_st f l c).
Qed.

Lemma map_st_arr_cons x l c :
  arr_map_st f (Some x :: l) c =
    (Some (f x c).1 :: (arr_map_st f l (f x c).2).1,
     (arr_map_st f l (f x c).2).2).
Proof.
  simpl. destruct (f x c) as [y c1]. simpl. by destruct (arr_map_st f l c1).
Qed.

Lemma arr_map_st_length l c : length (arr_map_st f l c).1 = length l.
Proof.
  revert c. induction l as [|[x|] l IH]; intros c; simpl; [done| |].
  - destruct (f x c) as [y c1]. specialize (IH c1).
    destruct (arr_map_st f l c1). simpl in *. by rewrite IH.
  - specialize (IH c). destruct (arr_map_st f l c). simpl in *. by rewrite IH.
Qed.

Lemma arr_map_st_dense l c : dense l → dense (arr_map_st f l c).1.
Proof.
  unfold dense. intros Hd. revert c.
  induction Hd as [|o l [x ->] _ IH]; intros c; simpl; [constructor|].
  destruct (f x c) as [y c1]. specialize (IH c1).
  destruct (arr_map_st f l c1). simpl in *. constructor; eauto.
Qed.

Lemma map_st_cons x k c :
  map_st (x :: k) c =
    ((f x c).1 :: (map_st k (f x c).2).1, (map_st k (f x c).2).2).
Proof. simpl. destruct (f x c) as [y c1]. simpl. by destruct (map_st k c1). Qed.

Lemma map_st_app k1 k2 c :
  map_st (k1 ++ k2) c =
    ((map_st k1 c).1 ++ (map_st k2 (map_st k1 c).2).1,
     (map_st k2 (map_st k1 c).2).2).
Proof.
  revert c. induction k1 as [|x k1 IH]; intros c.
  - simpl. by destruct (map_st k2 c).
  - rewrite <-app_comm_cons, !map_st_cons, IH. done.
Qed.

Lemma map_st_length k c : length (map_st k c).1 = length k.
Proof.
  revert c. induction k as [|x k IH]; intros c; simpl; [done|].
  destruct (f x c) as [y c1]. specialize (IH c1).
  destruct (map_st k c1). simpl in *. by rewrite IH.
Qed.

(** A relation that every call of [f] establishes holds elementwise. *)
Lemma map_st_Forall2 (R : T → U → Prop) k c :
  (∀ x c, R x (f x c).1) → Forall2 R k (map_st k c).1.
Proof.
  intros HR. revert c. induction k as [|x k IH]; intros c; simpl; [constructor|].
  pose proof (HR x c) as Hx. destruct (f x c) as [y c1]. specialize (IH c1).
  destruct (map_st k c1). simpl in *. by constructor.
Qed.

(** The same elementwise, for arrays. *)
Lemma arr_map_st_Forall2 (R : T → U → Prop) l c :
  (∀ x c, R x (f x c).1) → Forall2 (option_Forall2 R) l (arr_map_st f l c).1.
Proof.
  intros HR. revert c. induction l as [|[x|] l IH]; intros c; simpl.
  - constructor.
  - pose proof (HR x c) as Hx. destruct (f x c) as [y c1]. specialize (IH c1).
    destruct (arr_map_st f l c1). simpl in *. by repeat constructor.
  - specialize (IH c). destruct (arr_map_st f l c). simpl in *.
    by repeat constructor.
Qed.

(** Arrays whose elements the callback does not tell apart map alike. *)
Lemma arr_map_st_proper (R : T → T → Prop) l l' c :
  (∀ x x' c, R x x' → f x c = f x' c) →
  Forall2 (option_Forall2 R) l l' → arr_map_st f l c = arr_map_st f l' c.
Proof.
  intros HR Hll. revert c.
  induction Hll as [|o o' l l' Ho _ IH]; intros c; [done|].
  destruct Ho as [x x' Hx|]; simpl; [|by rewrite IH].
  rewrite (HR x x' c Hx). destruct (f x' c) as [y c1]. by rewrite IH.
Qed.

End map_st.

(** Two callbacks that agree through a translation of elements and results
    map alike through it. *)
Lemma map_st_fmap {T U T' U' C} (f : T → C → U * C) (g : T' → C → U' * C)
    (h : T → T') (h' : U → U') (k : list T) (c : C) :
  Forall (λ x, ∀ c, g (h x) c = (h' (f x c).1, (f x c).2)) k →
  map_st g (h <$> k) c = (h' <$> (map_st f k c).1, (map_st f k c).2).
Proof.
  intros Hk. revert c. induction Hk as [|x k Hx _ IH]; intros c; [done|].
  by rewrite fmap_cons, !map_st_cons, Hx, IH.
Qed.

(** * Tactics *)

(** Reading a mapped array is mapping what is read. *)
Lemma arr_get_fmap {T U} (f : T → U) (l : list (option T)) i :
  arr_get (fmap (M:=list) (fmap (M:=option) f) l) i = f <$> arr_get l i.
Proof.
  unfold arr_get. case_decide; [|done]. rewrite list_lookup_fmap.
  by destruct (l !! Z.to_nat i) as [[x|]|].
Qed.

(** Binding with a singleton is mapping. *)
Lemma bind_fmap_singleton {A B} (f : A → B) (l : list A) :
  l ≫= (λ x, [f x]) = f <$> l.
Proof. induction l; by f_equal/=. Qed.

(** Filtering the image of a list is filtering the list. *)
Lemma filter_fmap {A B} (f : A → B) (P : B → Prop) (Q : A → Prop)
    `{!∀ y, Decision (P y)} `{!∀ x, Decision (Q x)} (l : list A) :
  (∀ x, P (f x) ↔ Q x) → filter P (f <$> l) = f <$> filter Q l.
Proof.
  intros HPQ. induction l as [|x l IH]; [done|].
  rewrite fmap_cons, !filter_cons, IH.
  destruct (decide (Q x)) as [HQ|HQ].
  - by rewrite decide_True by by apply HPQ.
  - by rewrite decide_False by by rewrite HPQ.
Qed.

(** Split an integer index known to lie in [lo, lo + len) into its values:
    one goal per value, the index replaced by it. *)
Ltac index_cases i lo len :=
  let H := fresh "Hidx" in
  assert (H : i ∈ seqZ lo len) by (apply elem_of_seqZ; lia);
  let l := eval vm_compute in (seqZ lo len) in
  change (seqZ lo len) with l in H;
  repeat (apply elem_of_cons in H; destruct H as [->|H]);
  [ .. | by apply elem_of_nil in H ].

(** Invert the hypotheses that a step of the crash monad succeeded. *)
Ltac crash_inv :=
  repeat match goal with
  | H : (_ ≫= _) = Some _ |- _ => apply bind_Some in H; destruct H as (? & ? & H)
  | H : Some _ = Some _ |- _ => apply (inj Some) in H
  | H : None = Some _ |- _ => discriminate H
  | H : Some _ = None |- _ => discriminate H
  end.

(** Sums of a bounded function over an array are bounded by its length. *)
Lemma arr_reduce_sum_bounds {T : Type} (g : T → Z) (lo hi : Z)
    (l : list (option T)) (b : Z) :
  (lo ≤ 0 ≤ hi)%Z → (∀ x, lo ≤ g x ≤ hi)%Z →
  (b + lo * Z.of_nat (length l) ≤
     arr_reduce (λ acc x, acc + g x)%Z b l ≤ b + hi * Z.of_nat (length l))%Z.
Proof.
  intros H0 Hg. unfold arr_reduce. revert b.
  induction l as [|[x|] l IH]; intros b; simpl foldl; simpl length.
  - lia.
  - specialize (IH (b + g x)%Z). specialize (Hg x). nia.
  - specialize (IH b). nia.
Qed.

(** The sum over an array does not depend on where the accumulator starts. *)
Lemma arr_reduce_sum_shift {T : Type} (g : T → Z) (l : list (option T)) (b : Z) :
  arr_reduce (λ acc x, acc + g x)%Z b l =
  (b + arr_reduce (λ acc x, acc + g x)%Z 0 l)%Z.
Proof.
  unfold arr_reduce. revert b.
  induction l as [|[x|] l IH]; intros b; simpl.
  - lia.
  - rewrite (IH (b + g x)%Z), (IH (0 + g x)%Z). lia.
  - apply IH.
Qed.
