(* ===== verification/Style.v ===== *)
(** The class strings of [src/app/page.tsx] (lines 29-35 and 51-62), the
    template literals that join them, and the list of classes an element
    gets from its [className]: the words between white space. *)

From stdpp Require Import base tactics option list strings.

#[local] Open Scope string_scope.
#[local] Open Scope list_scope.

(** * The constants *)

(** Lines 29-30. *)
Definition buttonBase : string :=
  "w-full rounded-md border border-white/10 bg-white/5 px-2 py-1.5 text-left text-xs text-white hover:bg-white/10 focus:outline-none focus-visible:ring-2 focus-visible:ring-cyan-400".

(** Line 32. *)
Definition roundTitle : string :=
  "text-[10px] uppercase tracking-wide text-white/60".

(** Lines 34-35. *)
Definition bracketCard : string :=
  "rounded-md border border-white/10 bg-zinc-900/60 p-2 backdrop-blur-sm".

(** Line 51. *)
Definition line : string := "self-stretch w-px bg-white/10".

(** Line 53. *)
Definition column : string := "flex w-48 flex-col gap-2".

(** Lines 55-56. *)
Definition container : string :=
  "min-h-screen w-full bg-gradient-to-b from-zinc-950 to-zinc-900 text-white flex flex-col".

(** Lines 58-59. *)
Definition header : string :=
  "mx-auto max-w-6xl px-6 h-16 flex items-center justify-between".

(** Lines 61-62. *)
Definition row : string :=
  "mx-auto max-w-6xl px-4 pb-16 flex-1 flex flex-row items-stretch gap-6 min-h-[calc(100vh-4rem)]".

(** * Template literals and class lists *)

(** [`${a} ${b}`]. *)
Definition tpl2 (a b : string) : string := a +:+ " " +:+ b.

(** [`${a} ${b} ${c}`]. *)
Definition tpl3 (a b c : string) : string := a +:+ " " +:+ b +:+ " " +:+ c.

(** The classes of an element: the words of its [className].  An empty
    part of a template literal leaves two spaces and no class. *)
Definition classList (className : string) : list string :=
  String.words className.

(** * Facts *)

Lemma words_go_app cur a b :
  String.words_go cur (a +:+ " " +:+ b)
  = String.words_go cur a ++ String.words b.
Proof.
  revert cur. induction a as [|c a IH]; intros cur; [done|].
  change (String c a +:+ " " +:+ b) with (String c (a +:+ " " +:+ b)).
  simpl. destruct (Ascii.is_space c); [|by apply IH].
  by rewrite IH, (assoc (++)).
Qed.

(** The classes of a template literal are the classes of its parts. *)
Lemma classList_tpl2 a b : classList (tpl2 a b) = classList a ++ classList b.
Proof. unfold tpl2, classList, String.words. by rewrite words_go_app. Qed.

Lemma classList_tpl3 a b c :
  classList (tpl3 a b c) = classList a ++ classList b ++ classList c.
Proof. by rewrite <-!classList_tpl2. Qed.

Lemma classList_empty : classList "" = [].
Proof. reflexivity. Qed.

(** The card carries a border colour of its own. *)
Lemma bracketCard_border : "border-white/10" ∈ classList bracketCard.
Proof. by apply (bool_decide_unpack _). Qed.
