(* ===== verification/Number.v ===== *)
(** JavaScript numbers where the component computes with fractions: the
    binary64 floating-point numbers of IEEE 754, which are Rocq's primitive
    floats.  Integers stay in [Z] elsewhere in the development (the
    component's integers are below 2^53, where binary64 is exact); this
    file is the passage from one to the other, [Math.min], and the exact
    rational value of a number, against which the rounding is measured. *)

From Stdlib Require Import ZArith QArith Qabs Lia.
From Stdlib Require Import Floats.PrimFloat Floats.FloatOps Floats.SpecFloat.
From Stdlib Require Import Numbers.Cyclic.Int63.Uint63.
From stdpp Require Import base tactics option list.

#[local] Open Scope Z_scope.

(** An integer as a number; exact when [|z| < 2^53]. *)
Definition of_Z (z : Z) : float :=
  match z with
  | Z0 => PrimFloat.zero
  | Zpos _ => PrimFloat.of_uint63 (Uint63.of_Z z)
  | Zneg p => PrimFloat.opp (PrimFloat.of_uint63 (Uint63.of_Z (Zpos p)))
  end.

(** [Math.min(a, b)]: NaN when an argument is NaN, else the smaller one,
    with -0 below +0. *)
Definition Math_min (a b : float) : float :=
  if PrimFloat.is_nan a || PrimFloat.is_nan b then PrimFloat.nan
  else if PrimFloat.ltb a b then a
  else if PrimFloat.ltb b a then b
  else if PrimFloat.get_sign a then a else b.

(** The rational a finite number stands for; [None] for NaN and the
    infinities. *)
Definition toQ (f : float) : option Q :=
  match Prim2SF f with
  | S754_zero _ => Some 0%Q
  | S754_finite s m e =>
      let v := (inject_Z (Zpos m) * 2 ^ e)%Q in
      Some (if s then (- v)%Q else v)
  | _ => None
  end.

(** [a] is the number [q] up to [eps]. *)
Definition approx (eps : Q) (a : float) (q : Q) : Prop :=
  match toQ a with
  | Some x => (Qabs (x - q) <= eps)%Q
  | None => False
  end.

(** [a] is exactly the rational [q]. *)
Definition exactly (a : float) (q : Q) : Prop :=
  match toQ a with Some x => (x == q)%Q | None => False end.

#[export] Instance Qle_dec (a b : Q) : Decision (a <= b)%Q.
Proof.
  destruct (Qlt_le_dec b a) as [H|H]; [right|by left].
  by apply Qlt_not_le.
Defined.

#[export] Instance Qeq_decision (a b : Q) : Decision (a == b)%Q := Qeq_dec a b.

#[export] Instance approx_dec eps a q : Decision (approx eps a q).
Proof. unfold approx. destruct (toQ a); apply _. Defined.

#[export] Instance exactly_dec a q : Decision (exactly a q).
Proof. unfold exactly. destruct (toQ a); apply _. Defined.

(** * Facts *)

Lemma exactly_approx eps a q : (0 <= eps)%Q → exactly a q → approx eps a q.
Proof.
  unfold exactly, approx. destruct (toQ a) as [x|]; [|done]. intros He Hx.
  assert (x - q == 0)%Q as -> by (rewrite Hx; ring). done.
Qed.

(** The integers the component shows are exact. *)
Lemma of_Z_exact z : -100 ≤ z ≤ 100 → exactly (of_Z z) (inject_Z z).
Proof.
  intros Hz. assert (z ∈ seqZ (-100) 201) as Hin by (apply elem_of_seqZ; lia).
  clear Hz. revert z Hin. apply Forall_forall. compute_done.
Qed.
