(* ===== verification/Transition.v ===== *)
(** Transition systems: the interface between the component model and the
    theorems about all its reachable states.  A [System] is an initial
    state and a partial, deterministic step function on events ([None]: the
    event is not offered in that state, or the handler crashes).
    Reachability is an inductive relation; [invariant_reachable] and
    [invariant_under] are the induction principles the invariants of [App]
    are proved with, and [run] executes a list of events, so that concrete
    scenarios evaluate.  A simulation relates two systems, over the same
    events ([simulates]) or through a translation of events
    ([simulates_by]): it carries runs, reachability and invariants from
    one to the other. *)

From stdpp Require Import base tactics option list.
From S2P Require Import Prelude.

Class System (S E : Type) := {
  sys_init : S;
  sys_step : E → S → option S;
}.

Section system.
Context {S E : Type} {sys : System S E}.
Implicit Types (s : S) (e : E) (es : list E) (P Q : S → Prop).

Inductive reachable : S → Prop :=
| reach_init : reachable sys_init
| reach_step e s s' :
    reachable s → sys_step e s = Some s' → reachable s'.

(** Run a list of events from a state, stopping at the first refused one. *)
Fixpoint run es s : option S :=
  match es with
  | [] => Some s
  | e :: es' => sys_step e s ≫= run es'
  end.

(** [P] holds initially and every step keeps it. *)
Definition inductive_invariant P : Prop :=
  P sys_init ∧ ∀ e s s', P s → sys_step e s = Some s' → P s'.

Lemma invariant_reachable P :
  inductive_invariant P → ∀ s, reachable s → P s.
Proof. intros [H0 Hs] s Hr. induction Hr; eauto. Qed.

(** Induction relative to an invariant [Q] that is already known. *)
Lemma invariant_under Q P :
  (∀ s, reachable s → Q s) →
  P sys_init →
  (∀ e s s', Q s → P s → sys_step e s = Some s' → P s') →
  ∀ s, reachable s → P s.
Proof. intros HQ H0 Hs s Hr. induction Hr; eauto. Qed.

Lemma inductive_invariant_and P Q :
  inductive_invariant P → inductive_invariant Q →
  inductive_invariant (λ s, P s ∧ Q s).
Proof. intros [? HP] [? HQ]. split; [done|]. intros e s s' [??] ?. eauto. Qed.

Lemma run_app es1 es2 s : run (es1 ++ es2) s = run es1 s ≫= run es2.
Proof.
  revert s. induction es1 as [|e es1 IH]; intros s; simpl; [done|].
  destruct (sys_step e s); simpl; eauto.
Qed.

Lemma run_reachable es s s' : reachable s → run es s = Some s' → reachable s'.
Proof.
  revert s. induction es as [|e es IH]; intros s Hr Hrun; simpl in Hrun.
  - by simplify_eq.
  - destruct (sys_step e s) as [s1|] eqn:Hstep; [|done]. simpl in Hrun.
    eapply IH; [|done]. by eapply reach_step.
Qed.

(** A state is reachable exactly when some list of events produces it. *)
Lemma reachable_run s : reachable s ↔ ∃ es, run es sys_init = Some s.
Proof.
  split.
  - induction 1 as [|e s s' _ [es Hes] Hstep]; [by exists []|].
    exists (es ++ [e]). rewrite run_app, Hes. simpl. by rewrite Hstep.
  - intros [es Hes]. eapply run_reachable; [apply reach_init|done].
Qed.

(** The state a list of events leads to from the initial state; the
    initial state itself when an event of the list is refused. *)
Definition after_run es : S := default sys_init (run es sys_init).

Lemma after_run_reachable es : reachable (after_run es).
Proof.
  unfold after_run. destruct (run es sys_init) as [s|] eqn:Hs; simpl.
  - apply reachable_run. eauto.
  - apply reach_init.
Qed.

End system.

(** * Simulation *)

(** Two systems, a relation between their states and a translation of the
    events of the first into lists of events of the second (the empty list
    for a step the second system does not see): every step of the first is
    matched by the translated events of the second. *)
Section simulation.
Context {S1 S2 E1 E2 : Type} (sys1 : System S1 E1) (sys2 : System S2 E2).
Variable R : S1 → S2 → Prop.
Variable tr : E1 → list E2.

Definition simulates_by : Prop :=
  ∀ e s1 s2 s1', R s1 s2 → sys_step e s1 = Some s1' →
    ∃ s2', run (tr e) s2 = Some s2' ∧ R s1' s2'.

Definition simulation_by : Prop := R sys_init sys_init ∧ simulates_by.

Lemma simulates_by_run es s1 s2 s1' :
  simulates_by → R s1 s2 → run es s1 = Some s1' →
  ∃ s2', run (es ≫= tr) s2 = Some s2' ∧ R s1' s2'.
Proof.
  intros Hsim. revert s1 s2.
  induction es as [|e es IH]; intros s1 s2 HR Hrun; simpl in *.
  - simplify_eq. eauto.
  - destruct (sys_step e s1) as [t1|] eqn:Hstep; [|done].
    destruct (Hsim e s1 s2 t1 HR Hstep) as (t2 & Ht2 & HR2).
    rewrite run_app, Ht2. simpl in *. eauto.
Qed.

Lemma simulation_by_reachable s1 :
  simulation_by → reachable s1 → ∃ s2, reachable s2 ∧ R s1 s2.
Proof.
  intros [Hinit Hsim] [es Hes]%reachable_run.
  destruct (simulates_by_run es _ _ _ Hsim Hinit Hes) as (s2 & Hs2 & HR).
  exists s2. split; [|done]. apply reachable_run. eauto.
Qed.

(** An invariant of the second system gives one of the first. *)
Lemma simulation_by_invariant (P : S1 → Prop) (Q : S2 → Prop) :
  simulation_by → (∀ s2, reachable s2 → Q s2) →
  (∀ s1 s2, R s1 s2 → Q s2 → P s1) → ∀ s1, reachable s1 → P s1.
Proof.
  intros Hsim HQ HP s1 (s2 & Hr & HR)%(simulation_by_reachable _ Hsim). eauto.
Qed.

End simulation.

(** Two systems on the same states: the reachable states of the first
    are reachable in the second when every step of the first, taken from a
    state reachable in both, ends in a state reachable in the second. *)
Lemma reachable_incl {S E1 E2 : Type} (sys1 : System S E1) (sys2 : System S E2) :
  sys_init (System:=sys1) = sys_init (System:=sys2) →
  (∀ e s s', reachable (sys:=sys1) s → reachable (sys:=sys2) s →
     sys_step (System:=sys1) e s = Some s' → reachable (sys:=sys2) s') →
  ∀ s, reachable (sys:=sys1) s → reachable (sys:=sys2) s.
Proof.
  intros Hinit Hstep s Hr. induction Hr as [|e s s' Hr IH Hs].
  - rewrite Hinit. apply reach_init.
  - eauto.
Qed.

(** The case of two systems over the same events, each step matched by
    the same event. *)
Section same_events.
Context {S1 S2 E : Type} (sys1 : System S1 E) (sys2 : System S2 E).
Variable R : S1 → S2 → Prop.

Definition simulates : Prop :=
  ∀ e s1 s2 s1', R s1 s2 → sys_step e s1 = Some s1' →
    ∃ s2', sys_step e s2 = Some s2' ∧ R s1' s2'.

Definition simulation : Prop := R sys_init sys_init ∧ simulates.

Lemma simulates_simulates_by :
  simulates → simulates_by sys1 sys2 R (λ e, [e]).
Proof.
  intros Hsim e s1 s2 s1' HR Hstep.
  destruct (Hsim e s1 s2 s1' HR Hstep) as (s2' & Hs2 & HR').
  exists s2'. simpl. by rewrite Hs2.
Qed.

Lemma simulates_run es s1 s2 s1' :
  simulates → R s1 s2 → run es s1 = Some s1' →
  ∃ s2', run es s2 = Some s2' ∧ R s1' s2'.
Proof.
  intros Hsim%simulates_simulates_by HR Hrun.
  destruct (simulates_by_run _ _ _ _ es _ _ _ Hsim HR Hrun) as (s2' & Hs2 & ?).
  exists s2'. split; [|done].
  by rewrite (bind_fmap_singleton id), list_fmap_id in Hs2.
Qed.

Lemma simulation_reachable s1 :
  simulation → reachable s1 → ∃ s2, reachable s2 ∧ R s1 s2.
Proof.
  intros [Hinit Hsim%simulates_simulates_by].
  by apply (simulation_by_reachable sys1 sys2 R (λ e, [e])).
Qed.

Lemma simulation_invariant (P : S1 → Prop) (Q : S2 → Prop) :
  simulation → (∀ s2, reachable s2 → Q s2) →
  (∀ s1 s2, R s1 s2 → Q s2 → P s1) → ∀ s1, reachable s1 → P s1.
Proof.
  intros Hsim HQ HP s1 (s2 & Hr & HR)%(simulation_reachable _ Hsim). eauto.
Qed.

End same_events.

#[export] Hint Constructors reachable : js.
