(* ===== verification/Entrants.v ===== *)
(** The entrant registry: the type [Team] and the constant [initialTeams]
    of src/app/page.tsx (lines 5-8 and 18-27), with the facts the bracket
    relies on: eight entrants, no hole, identifiers 1 to 8 in order, so that
    comparing teams by [id] (as the scoring does) is comparing teams. *)

From Stdlib Require Import ZArith Lia.
From stdpp Require Import base tactics option list numbers strings.
From S2P Require Import Prelude.

#[local] Open Scope string_scope.
#[local] Open Scope list_scope.
#[local] Open Scope Z_scope.

(** [type Team = { id: number; name: string }]. *)
Record Team := mkTeam { team_id : Z; name : string }.

#[export] Instance Team_eq_dec : EqDecision Team.
Proof. solve_decision. Defined.

(** [const initialTeams: Team[]]. *)
Definition initialTeams : list (option Team) :=
  [ Some (mkTeam 1 "papaneus");
    Some (mkTeam 2 "morrog");
    Some (mkTeam 3 "faralley");
    Some (mkTeam 4 "puxque");
    Some (mkTeam 5 "sejecem");
    Some (mkTeam 6 "salina");
    Some (mkTeam 7 "issy");
    Some (mkTeam 8 "milan") ].

(** The entrants, as a plain list. *)
Definition entrants : list Team := omap id initialTeams.

(** [t] is one of the eight entrants. *)
Definition is_entrant (t : Team) : Prop := t ∈ entrants.

#[export] Instance is_entrant_dec t : Decision (is_entrant t).
Proof. unfold is_entrant. apply _. Defined.

Lemma initialTeams_length : length initialTeams = 8%nat.
Proof. reflexivity. Qed.

Lemma initialTeams_dense : dense initialTeams.
Proof. unfold dense. repeat constructor; eauto. Qed.

(** Every index from 0 to 7 holds the entrant whose id is the index plus
    one, and no other index holds anything. *)
Lemma initialTeams_get i t :
  arr_get initialTeams i = Some t → 0 ≤ i < 8 ∧ team_id t = i + 1.
Proof.
  intros Hg. pose proof (arr_get_Some_bounds _ _ _ Hg) as Hb.
  rewrite initialTeams_length in Hb.
  index_cases i 0 8; vm_compute in Hg; simplify_eq; simpl; lia.
Qed.

Lemma initialTeams_get_entrant i t :
  arr_get initialTeams i = Some t → is_entrant t.
Proof.
  intros Hg. pose proof (arr_get_Some_bounds _ _ _ Hg) as Hb.
  rewrite initialTeams_length in Hb.
  index_cases i 0 8; vm_compute in Hg; simplify_eq; compute_done.
Qed.

Lemma entrants_ids : team_id <$> entrants = [1; 2; 3; 4; 5; 6; 7; 8].
Proof. reflexivity. Qed.

Lemma entrants_ids_NoDup : NoDup (team_id <$> entrants).
Proof. compute_done. Qed.

(** Identifiers identify: two entrants with the same [id] are the same
    team, which is what lets the code compare [winner.id] with
    [outcome.id]. *)
Lemma entrant_id_inj t1 t2 :
  is_entrant t1 → is_entrant t2 → team_id t1 = team_id t2 → t1 = t2.
Proof.
  unfold is_entrant. intros H1 H2 Hid.
  apply list_elem_of_lookup in H1 as [i Hi], H2 as [j Hj].
  assert (i = j) as ->; [|congruence].
  eapply NoDup_lookup; [apply entrants_ids_NoDup|..];
    rewrite list_lookup_fmap; [by rewrite Hi|by rewrite Hj, Hid].
Qed.
