(* ===== verification/Bracket.v ===== *)
(** The bracket's data: [Match] (lines 10-16), the three match stores and
    the announced checkpoints as one record [Home] (the [useState] hooks of
    lines 106-118 and 140) with their initial values, the argument types of
    [handlePick] (line 157), and the shape every reachable state has:
    four quarterfinals and two semifinals, no hole. *)

From Stdlib Require Import ZArith Lia.
From stdpp Require Import base tactics option list numbers strings.
From S2P Require Import Prelude Entrants.

#[local] Open Scope string_scope.
#[local] Open Scope list_scope.
#[local] Open Scope Z_scope.
#[local] Open Scope js_scope.

(** [type Match = { id; teamA?; teamB?; winner?; outcome? }]: [winner] is
    the user's pick, [outcome] the simulated result. *)
Record Match := mkMatch {
  match_id : string;
  teamA : option Team;
  teamB : option Team;
  winner : option Team;
  outcome : option Team;
}.

#[export] Instance Match_eq_dec : EqDecision Match.
Proof. solve_decision. Defined.

(** The object literal [{ id: i }]: every optional property is absent. *)
Definition only_id (i : string) : Match := mkMatch i None None None None.

(** [{ ...m, winner: w }]. *)
Definition set_winner (w : option Team) (m : Match) : Match :=
  mkMatch (match_id m) (teamA m) (teamB m) w (outcome m).

(** [{ ...m, outcome: o }]. *)
Definition set_outcome (o : option Team) (m : Match) : Match :=
  mkMatch (match_id m) (teamA m) (teamB m) (winner m) o.

(** [{ id: i, teamA: initialTeams[a], teamB: initialTeams[b] }]. *)
Definition seeded (i : string) (a b : Z) : Match :=
  mkMatch i (arr_get initialTeams a) (arr_get initialTeams b) None None.

(** The initial value of the [qf] store. *)
Definition initialQf : list (option Match) :=
  [ Some (seeded "QF1" 0 1); Some (seeded "QF2" 2 3);
    Some (seeded "QF3" 4 5); Some (seeded "QF4" 6 7) ].

(** The initial value of the [sf] store. *)
Definition initialSf : list (option Match) :=
  [ Some (only_id "SF1"); Some (only_id "SF2") ].

(** The initial value of the [finalMatch] store. *)
Definition initialFinal : Match := only_id "F".

(** The state of the component [Home]: one field per [useState] hook. *)
Record Home := mkHome {
  qf : list (option Match);
  sf : list (option Match);
  finalMatch : Match;
  announced : list Z;
}.

Definition initialHome : Home := mkHome initialQf initialSf initialFinal [].

(** [round: "QF" | "SF" | "F"]. *)
Inductive Round := RoundQF | RoundSF | RoundF.

(** [pick: "A" | "B"]. *)
Inductive Side := PickA | PickB.

#[export] Instance Round_eq_dec : EqDecision Round.
Proof. solve_decision. Defined.
#[export] Instance Side_eq_dec : EqDecision Side.
Proof. solve_decision. Defined.

(** [pick === "A" ? m.teamA : m.teamB]. *)
Definition chosen (pick : Side) (m : Match) : option Team :=
  match pick with PickA => teamA m | PickB => teamB m end.

(** The other slot. *)
Definition other (pick : Side) : Side :=
  match pick with PickA => PickB | PickB => PickA end.

(** Both slots of a match hold a team. *)
Definition full (m : Match) : Prop := is_Some (teamA m) ∧ is_Some (teamB m).

#[export] Instance full_dec m : Decision (full m).
Proof. unfold full. apply _. Defined.

(** [o] is absent or the occupant of one of the slots of [m]. *)
Definition occupant_or_none (o : option Team) (m : Match) : Prop :=
  o = None ∨ o = teamA m ∨ o = teamB m.

#[export] Instance occupant_or_none_dec o m : Decision (occupant_or_none o m).
Proof. unfold occupant_or_none. apply _. Defined.

(** The shape of the stores: four quarterfinals, two semifinals, no hole. *)
Definition shaped (st : Home) : Prop :=
  length (qf st) = 4%nat ∧ dense (qf st) ∧ length (sf st) = 2%nat ∧ dense (sf st).

#[export] Instance shaped_dec st : Decision (shaped st).
Proof. unfold shaped. apply _. Defined.

(** The matches of a state, holes left out: the seven matches of a
    well-shaped state. *)
Definition matches (st : Home) : list Match :=
  omap id (qf st) ++ omap id (sf st) ++ [finalMatch st].

(** * Basic facts *)

Lemma matches_shaped q0 q1 q2 q3 s0 s1 fm ann :
  matches (mkHome [Some q0; Some q1; Some q2; Some q3] [Some s0; Some s1] fm ann)
  = [q0; q1; q2; q3; s0; s1; fm].
Proof. reflexivity. Qed.


Lemma chosen_set_winner pick w m : chosen pick (set_winner w m) = chosen pick m.
Proof. by destruct pick. Qed.

Lemma chosen_set_outcome pick o m : chosen pick (set_outcome o m) = chosen pick m.
Proof. by destruct pick. Qed.

Lemma set_winner_same m : set_winner (winner m) m = m.
Proof. by destruct m. Qed.

Lemma set_winner_idem w w' m : set_winner w (set_winner w' m) = set_winner w m.
Proof. done. Qed.

Lemma chosen_occupant pick m : occupant_or_none (chosen pick m) m.
Proof. destruct pick; unfold occupant_or_none; simpl; eauto. Qed.

Lemma other_involutive pick : other (other pick) = pick.
Proof. by destruct pick. Qed.

(** A dense array of known length is a list of that many matches. *)
Lemma dense_length_4 {T} (l : list (option T)) :
  length l = 4%nat → dense l → ∃ a b c d, l = [Some a; Some b; Some c; Some d].
Proof.
  intros Hl [k ->]%dense_fmap_Some. rewrite length_fmap in Hl.
  destruct k as [|a [|b [|c [|d [|]]]]]; simplify_eq/=; eauto.
Qed.

Lemma dense_length_2 {T} (l : list (option T)) :
  length l = 2%nat → dense l → ∃ a b, l = [Some a; Some b].
Proof.
  intros Hl [k ->]%dense_fmap_Some. rewrite length_fmap in Hl.
  destruct k as [|a [|b [|]]]; simplify_eq/=; eauto.
Qed.

Lemma shaped_inv st :
  shaped st →
  ∃ q0 q1 q2 q3 s0 s1,
    qf st = [Some q0; Some q1; Some q2; Some q3] ∧ sf st = [Some s0; Some s1].
Proof.
  intros (Hq & Hqd & Hs & Hsd).
  destruct (dense_length_4 _ Hq Hqd) as (q0 & q1 & q2 & q3 & ->).
  destruct (dense_length_2 _ Hs Hsd) as (s0 & s1 & ->). eauto 10.
Qed.

Lemma shaped_intro q0 q1 q2 q3 s0 s1 fm ann :
  shaped (mkHome [Some q0; Some q1; Some q2; Some q3] [Some s0; Some s1] fm ann).
Proof. unfold shaped, dense. simpl. repeat split; repeat constructor; eauto. Qed.

Lemma initialHome_shaped : shaped initialHome.
Proof. apply shaped_intro. Qed.

Lemma matches_length st : shaped st → length (matches st) = 7%nat.
Proof.
  intros Hsh. destruct (shaped_inv st Hsh) as (?&?&?&?&?&?& Hq & Hs).
  unfold matches. by rewrite Hq, Hs.
Qed.

(** Replace a shaped state by its six matches. *)
Ltac shaped_cases st H :=
  let q0 := fresh "q0" in let q1 := fresh "q1" in
  let q2 := fresh "q2" in let q3 := fresh "q3" in
  let s0 := fresh "s0" in let s1 := fresh "s1" in
  let fm := fresh "fm" in let ann := fresh "ann" in
  let Hq := fresh "Hq" in let Hs := fresh "Hs" in
  destruct (shaped_inv st H) as (q0 & q1 & q2 & q3 & s0 & s1 & Hq & Hs);
  destruct st as [? ? fm ann]; simpl in Hq, Hs; subst.

#[export] Hint Resolve initialHome_shaped shaped_intro chosen_occupant : js.
#[export] Hint Rewrite chosen_set_winner chosen_set_outcome : js.
