(* ===== verification/Propagation.v ===== *)
(** The propagation engine: [handlePick] (lines 156-222) and [handleReset]
    (lines 224-233).  Every state updater the handler passes to [setQf],
    [setSf] or [setFinalMatch] is one definition; an updater that reads a
    property of a missing match throws a [TypeError], here [None].
    [handlePick] composes the updaters as the handler queues them, so one
    crash discards the whole update.  The updaters that propagate a pick read
    the source match from the handler's closure ([qf], [sf]), which is their
    first argument; [handlePickFrom] is the handler with the closure of
    another render. *)

From Stdlib Require Import ZArith Lia.
From stdpp Require Import base tactics option list numbers strings.
From S2P Require Import Prelude Entrants Bracket.

#[local] Open Scope string_scope.
#[local] Open Scope list_scope.
#[local] Open Scope Z_scope.
#[local] Open Scope js_scope.

(** * The updaters *)

(** Lines 159-165, the updater of [setQf]: record the pick in the match. *)
Definition qfPickUpdater (matchIndex : Z) (pick : Side)
    (prev : list (option Match)) : option (list (option Match)) :=
  m ← arr_get prev matchIndex;
  let winner := chosen pick m in
  Some (arr_set matchIndex (set_winner winner m) prev).

(** [matchIndex < 2 ? 0 : 1]: quarterfinals 1 and 2 feed semifinal 1, the
    others semifinal 2. *)
Definition targetIndex (matchIndex : Z) : Z :=
  if decide (matchIndex < 2) then 0 else 1.

(** [matchIndex % 2 === 0] ([%] truncates towards zero). *)
Definition isFirstSlot (matchIndex : Z) : bool :=
  bool_decide (Z.rem matchIndex 2 = 0).

(** Lines 168-184, the updater of [setSf] after a quarterfinal pick: put the
    picked team into its slot of the target semifinal and clear that
    semifinal's pick.  The spread keeps the target's [id] and [outcome]. *)
Definition sfPropagateUpdater (qf : list (option Match)) (matchIndex : Z)
    (pick : Side) (prev : list (option Match)) : option (list (option Match)) :=
  sourceMatch ← arr_get qf matchIndex;
  let winner := chosen pick sourceMatch in
  let ti := targetIndex matchIndex in
  let first := isFirstSlot matchIndex in
  let target :=
    arr_get prev ti <??> only_id (if decide (ti = 0) then "SF1" else "SF2") in
  Some (arr_set ti
          (mkMatch (match_id target)
             (if first then winner else teamA target)
             (if negb first then winner else teamB target)
             None
             (outcome target))
          prev).

(** Line 186, the updater of [setFinalMatch] after a quarterfinal pick:
    [{ id: prev.id }]. *)
Definition finalClearUpdater (prev : Match) : Match := only_id (match_id prev).

(** Lines 191-197, the updater of [setSf] after a semifinal pick. *)
Definition sfPickUpdater (matchIndex : Z) (pick : Side)
    (prev : list (option Match)) : option (list (option Match)) :=
  m ← arr_get prev matchIndex;
  let winner := chosen pick m in
  Some (arr_set matchIndex (set_winner winner m) prev).

(** Lines 200-211, the updater of [setFinalMatch] after a semifinal pick:
    a new object with the picked team in its slot, the other slot kept, and
    neither [winner] nor [outcome]. *)
Definition finalPropagateUpdater (sf : list (option Match)) (matchIndex : Z)
    (pick : Side) (prev : Match) : option Match :=
  sourceMatch ← arr_get sf matchIndex;
  let winner := chosen pick sourceMatch in
  let first := bool_decide (matchIndex = 0) in
  Some (mkMatch "F"
          (if first then winner else teamA prev)
          (if negb first then winner else teamB prev)
          None
          None).

(** Lines 216-219, the updater of [setFinalMatch] for a pick in the final. *)
Definition finalPickUpdater (pick : Side) (prev : Match) : Match :=
  let winner := chosen pick prev in
  set_winner winner prev.

(** * The handlers *)

(** [handlePick(round, matchIndex, pick)] in the state [st], whose stores
    are also the closure's [qf] and [sf]. *)
Definition handlePick (round : Round) (matchIndex : Z) (pick : Side)
    (st : Home) : option Home :=
  match round with
  | RoundQF =>
      qf' ← qfPickUpdater matchIndex pick (qf st);
      sf' ← sfPropagateUpdater (qf st) matchIndex pick (sf st);
      Some (mkHome qf' sf' (finalClearUpdater (finalMatch st)) (announced st))
  | RoundSF =>
      sf' ← sfPickUpdater matchIndex pick (sf st);
      fm' ← finalPropagateUpdater (sf st) matchIndex pick (finalMatch st);
      Some (mkHome (qf st) sf' fm' (announced st))
  | RoundF =>
      Some (mkHome (qf st) (sf st) (finalPickUpdater pick (finalMatch st))
              (announced st))
  end.

(** [handleReset()]: the three stores get their initial values; [announced]
    has no setter call here. *)
Definition handleReset (st : Home) : Home :=
  mkHome initialQf initialSf initialFinal (announced st).

(** [handlePick] as created by a render whose stores were [qf0] and [sf0],
    called in the state [st]: the updaters get the stores of [st] as
    [prev] and read the source match from the closure. *)
Definition handlePickFrom (qf0 sf0 : list (option Match)) (round : Round)
    (matchIndex : Z) (pick : Side) (st : Home) : option Home :=
  match round with
  | RoundQF =>
      qf' ← qfPickUpdater matchIndex pick (qf st);
      sf' ← sfPropagateUpdater qf0 matchIndex pick (sf st);
      Some (mkHome qf' sf' (finalClearUpdater (finalMatch st)) (announced st))
  | RoundSF =>
      sf' ← sfPickUpdater matchIndex pick (sf st);
      fm' ← finalPropagateUpdater sf0 matchIndex pick (finalMatch st);
      Some (mkHome (qf st) sf' fm' (announced st))
  | RoundF =>
      Some (mkHome (qf st) (sf st) (finalPickUpdater pick (finalMatch st))
              (announced st))
  end.

(** The state after a pick that is carried out ([st] itself when the
    handler throws): the concrete states of the examples below. *)
Definition after_pick (round : Round) (matchIndex : Z) (pick : Side)
    (st : Home) : Home :=
  handlePick round matchIndex pick st <??> st.

(** * The semifinal slot a quarterfinal feeds *)

(** The slot of the target match that a feeder writes: A for the first
    feeder of a pair, B for the second. *)
Definition slotOf (first : bool) : Side := if first then PickA else PickB.

Lemma targetIndex_spec i : 0 ≤ i < 4 → targetIndex i = i / 2.
Proof. intros. index_cases i 0 4; reflexivity. Qed.

Lemma isFirstSlot_spec i : 0 ≤ i → isFirstSlot i = bool_decide (i mod 2 = 0).
Proof.
  intros. unfold isFirstSlot. by rewrite Z.rem_mod_nonneg by lia.
Qed.

Lemma targetIndex_range i : 0 ≤ targetIndex i < 2.
Proof. unfold targetIndex. case_decide; lia. Qed.

(** * The updaters, case by case *)

Section updaters.
Implicit Types (prev l : list (option Match)) (i j : Z) (pick : Side)
  (m : Match) (st : Home).

Lemma qfPickUpdater_Some prev i pick m :
  arr_get prev i = Some m →
  qfPickUpdater i pick prev = Some (arr_set i (set_winner (chosen pick m) m) prev).
Proof. intros Hm. unfold qfPickUpdater. by rewrite Hm. Qed.

Lemma qfPickUpdater_None prev i pick :
  arr_get prev i = None → qfPickUpdater i pick prev = None.
Proof. intros Hm. unfold qfPickUpdater. by rewrite Hm. Qed.

(** The two pick updaters are the same function of their store. *)
Lemma sfPickUpdater_eq i pick prev :
  sfPickUpdater i pick prev = qfPickUpdater i pick prev.
Proof. reflexivity. Qed.

Lemma sfPropagateUpdater_None l prev i pick :
  arr_get l i = None → sfPropagateUpdater l i pick prev = None.
Proof. intros Hm. unfold sfPropagateUpdater. by rewrite Hm. Qed.

Lemma sfPropagateUpdater_is_Some l prev i pick :
  is_Some (arr_get l i) → is_Some (sfPropagateUpdater l i pick prev).
Proof. intros [m Hm]. unfold sfPropagateUpdater. rewrite Hm. simpl. eauto. Qed.

Lemma finalPropagateUpdater_None l fm i pick :
  arr_get l i = None → finalPropagateUpdater l i pick fm = None.
Proof. intros Hm. unfold finalPropagateUpdater. by rewrite Hm. Qed.

End updaters.

(** The indexes at which a round has a match. *)
Definition valid_index (round : Round) (i : Z) : Prop :=
  match round with
  | RoundQF => 0 ≤ i < 4
  | RoundSF => 0 ≤ i < 2
  | RoundF => True
  end.

#[export] Instance valid_index_dec round i : Decision (valid_index round i).
Proof. destruct round; simpl; apply _. Defined.

(** The store a round's pick reads its match from. *)
Definition store (round : Round) (st : Home) : list (option Match) :=
  match round with
  | RoundQF => qf st
  | RoundSF => sf st
  | RoundF => [Some (finalMatch st)]
  end.

(** * Errors *)

(** [handlePick] throws exactly when the round's store has no match at
    [matchIndex]: a quarterfinal or semifinal pick at an index outside the
    store (negative included) is a [TypeError], and a pick in the final
    never throws, whatever the index. *)
Lemma handlePick_crash_iff round i pick st :
  handlePick round i pick st = None ↔
  round ≠ RoundF ∧ arr_get (store round st) i = None.
Proof.
  destruct round; simpl; unfold qfPickUpdater, sfPickUpdater,
    sfPropagateUpdater, finalPropagateUpdater.
  - destruct (arr_get (qf st) i); simpl; naive_solver.
  - destruct (arr_get (sf st) i); simpl; naive_solver.
  - naive_solver.
Qed.

Lemma shaped_store_get round i st :
  shaped st → round ≠ RoundF →
  (is_Some (arr_get (store round st) i) ↔ valid_index round i).
Proof.
  intros (Hq & Hqd & Hs & Hsd) Hr. split.
  - intros [m Hm%arr_get_Some_bounds].
    destruct round; simpl in *; [lia|lia|done].
  - intros Hv. destruct round; simpl in *; [| |done];
      apply arr_get_dense; auto; lia.
Qed.

(** C5. In a state of the right shape a pick is carried out exactly at the
    indexes the round has: 0 to 3 for a quarterfinal, 0 and 1 for a
    semifinal, any index for the final (which ignores it). *)
Theorem handlePick_defined_iff round i pick st :
  shaped st → (is_Some (handlePick round i pick st) ↔ valid_index round i).
Proof.
  intros Hsh. rewrite <-not_eq_None_Some, handlePick_crash_iff.
  destruct (decide (round = RoundF)) as [->|Hr]; [naive_solver|].
  rewrite <-(shaped_store_get round i st Hsh Hr), <-not_eq_None_Some.
  naive_solver.
Qed.

Lemma handlePick_defined_iff_witness :
  shaped initialHome ∧
  (is_Some (handlePick RoundQF 4 PickA initialHome) ↔ valid_index RoundQF 4).
Proof.
  split; [apply initialHome_shaped|].
  apply (handlePick_defined_iff RoundQF 4 PickA initialHome initialHome_shaped).
Defined.

(** * The effect of a pick *)

Section effect.
Implicit Types (i j : Z) (pick : Side) (m t : Match) (st : Home).

(** Inversion of a successful quarterfinal pick: every store of the result,
    in terms of the match that was picked in. *)
Lemma handlePick_qf_inv i pick st st' :
  handlePick RoundQF i pick st = Some st' →
  ∃ m, arr_get (qf st) i = Some m ∧
    qf st' = arr_set i (set_winner (chosen pick m) m) (qf st) ∧
    sfPropagateUpdater (qf st) i pick (sf st) = Some (sf st') ∧
    finalMatch st' = only_id (match_id (finalMatch st)) ∧
    announced st' = announced st.
Proof.
  unfold handlePick, qfPickUpdater. intros H.
  destruct (arr_get (qf st) i) as [m|] eqn:Hm; [|done]. simpl in H.
  destruct (sfPropagateUpdater _ _ _ _) as [sf'|] eqn:Hsf; [|done].
  simplify_eq/=. eauto 10.
Qed.

Lemma handlePick_sf_inv i pick st st' :
  handlePick RoundSF i pick st = Some st' →
  ∃ m, arr_get (sf st) i = Some m ∧
    qf st' = qf st ∧
    sf st' = arr_set i (set_winner (chosen pick m) m) (sf st) ∧
    finalMatch st' =
      mkMatch "F"
        (if bool_decide (i = 0) then chosen pick m else teamA (finalMatch st))
        (if bool_decide (i = 0) then teamB (finalMatch st) else chosen pick m)
        None None ∧
    announced st' = announced st.
Proof.
  unfold handlePick, sfPickUpdater, finalPropagateUpdater. intros H.
  destruct (arr_get (sf st) i) as [m|] eqn:Hm; [|done].
  simplify_eq/=. exists m. by destruct (bool_decide (i = 0)).
Qed.

(** C2. A quarterfinal pick records the chosen slot's team as the match's
    [winner] and changes no other quarterfinal; the match keeps its teams,
    its [id] and its [outcome]. *)
Theorem handlePick_qf_records_pick i pick st st' :
  handlePick RoundQF i pick st = Some st' →
  ∃ m, arr_get (qf st) i = Some m ∧
    arr_get (qf st') i = Some (set_winner (chosen pick m) m) ∧
    ∀ j, j ≠ i → arr_get (qf st') j = arr_get (qf st) j.
Proof.
  intros (m & Hm & -> & _)%handlePick_qf_inv. exists m.
  pose proof (arr_get_Some_bounds _ _ _ Hm).
  split_and!; [done|by autorewrite with js|].
  intros j Hj. by autorewrite with js.
Qed.

Lemma handlePick_qf_records_pick_witness :
  let st' := after_pick RoundQF 1 PickB initialHome in
  handlePick RoundQF 1 PickB initialHome = Some st' ∧
  ∃ m, arr_get (qf initialHome) 1 = Some m ∧
    arr_get (qf st') 1 = Some (set_winner (chosen PickB m) m) ∧
    ∀ j, j ≠ 1 → arr_get (qf st') j = arr_get (qf initialHome) j.
Proof.
  intros st'. refine (conj eq_refl _).
  exact (handlePick_qf_records_pick 1 PickB initialHome st' eq_refl).
Defined.

(** The semifinal a quarterfinal pick writes, in terms of what it was. *)
Definition seededBy (first : bool) (w : option Team) (t : Match) : Match :=
  mkMatch (match_id t)
    (if first then w else teamA t) (if first then teamB t else w)
    None (outcome t).

Lemma sfPropagateUpdater_shaped l i pick m s0 s1 :
  arr_get l i = Some m → 0 ≤ i < 4 →
  sfPropagateUpdater l i pick [Some s0; Some s1] =
    Some (if decide (i < 2)
          then [Some (seededBy (isFirstSlot i) (chosen pick m) s0); Some s1]
          else [Some s0; Some (seededBy (isFirstSlot i) (chosen pick m) s1)]).
Proof.
  intros Hm Hi. unfold sfPropagateUpdater. rewrite Hm. simpl.
  index_cases i 0 4; reflexivity.
Qed.

Lemma handlePick_qf_semifinal i pick st st' :
  shaped st →
  handlePick RoundQF i pick st = Some st' →
  ∃ m t, arr_get (qf st) i = Some m ∧ arr_get (sf st) (i / 2) = Some t ∧
    arr_get (sf st') (i / 2) =
      Some (seededBy (bool_decide (i mod 2 = 0)) (chosen pick m) t) ∧
    arr_get (sf st') (1 - i / 2) = arr_get (sf st) (1 - i / 2).
Proof.
  intros Hsh (m & Hm & _ & Hsf & _)%handlePick_qf_inv.
  pose proof (arr_get_Some_bounds _ _ _ Hm) as Hi.
  destruct Hsh as (Hq & _ & Hs & Hsd). rewrite Hq in Hi.
  destruct (dense_length_2 _ Hs Hsd) as (s0 & s1 & Hsf0). rewrite Hsf0 in *.
  rewrite (sfPropagateUpdater_shaped _ _ _ m) in Hsf by (done || lia).
  injection Hsf as <-. rewrite <-isFirstSlot_spec by lia.
  exists m. index_cases i 0 4; simpl; eauto.
Qed.

(** C1. After a pick in quarterfinal [i] of a well-shaped state, semifinal
    [i / 2] holds the picked team in slot A when [i] is even and in slot B
    when it is odd, keeps its other slot, its [id] and its [outcome], and
    has no [winner]; the other semifinal is unchanged. *)
Theorem handlePick_qf_seeds_semifinal i pick st st' :
  shaped st →
  handlePick RoundQF i pick st = Some st' →
  ∃ m t, arr_get (qf st) i = Some m ∧ arr_get (sf st) (i / 2) = Some t ∧
    arr_get (sf st') (i / 2) =
      Some (seededBy (bool_decide (i mod 2 = 0)) (chosen pick m) t) ∧
    arr_get (sf st') (1 - i / 2) = arr_get (sf st) (1 - i / 2).
Proof. apply handlePick_qf_semifinal. Qed.

Lemma handlePick_qf_seeds_semifinal_witness :
  let st' := after_pick RoundQF 3 PickA initialHome in
  shaped initialHome ∧ handlePick RoundQF 3 PickA initialHome = Some st' ∧
  ∃ m t, arr_get (qf initialHome) 3 = Some m ∧
    arr_get (sf initialHome) (3 / 2) = Some t ∧
    arr_get (sf st') (3 / 2) =
      Some (seededBy (bool_decide (3 mod 2 = 0)) (chosen PickA m) t) ∧
    arr_get (sf st') (1 - 3 / 2) = arr_get (sf initialHome) (1 - 3 / 2).
Proof.
  intros st'. refine (conj initialHome_shaped (conj eq_refl _)).
  exact (handlePick_qf_seeds_semifinal 3 PickA initialHome st'
           initialHome_shaped eq_refl).
Defined.

(** C4. A quarterfinal pick empties the final: whatever the final held,
    afterwards it has its [id] and nothing else (no team in either slot, no
    pick, no outcome), and [announced] is untouched.  This happens on every
    quarterfinal pick, also when the pick repeats the previous one. *)
Theorem handlePick_qf_empties_final i pick st st' :
  handlePick RoundQF i pick st = Some st' →
  finalMatch st' = only_id (match_id (finalMatch st)) ∧
  announced st' = announced st.
Proof. intros (m & _ & _ & _ & ? & ?)%handlePick_qf_inv. done. Qed.

Lemma handlePick_qf_empties_final_witness :
  let st := after_pick RoundSF 0 PickA (after_pick RoundQF 0 PickA initialHome) in
  let st' := after_pick RoundQF 0 PickA st in
  teamA (finalMatch st) = Some (mkTeam 1 "papaneus") ∧
  handlePick RoundQF 0 PickA st = Some st' ∧
  finalMatch st' = only_id (match_id (finalMatch st)) ∧
  announced st' = announced st.
Proof.
  intros st st'. refine (conj eq_refl (conj eq_refl _)).
  exact (handlePick_qf_empties_final 0 PickA st st' eq_refl).
Defined.

End effect.

Section later_rounds.
Implicit Types (i j : Z) (pick : Side) (m t : Match) (st : Home).

(** C3. A semifinal pick records the chosen slot's team as the semifinal's
    [winner], leaves the other semifinal and all quarterfinals alone, and
    rebuilds the final: the picked team in slot A for semifinal 0 and in
    slot B for any other index, the other slot as it was, [id] "F", and
    neither a pick nor an outcome. *)
Theorem handlePick_sf_seeds_final i pick st st' :
  handlePick RoundSF i pick st = Some st' →
  ∃ m, arr_get (sf st) i = Some m ∧
    arr_get (sf st') i = Some (set_winner (chosen pick m) m) ∧
    (∀ j, j ≠ i → arr_get (sf st') j = arr_get (sf st) j) ∧
    qf st' = qf st ∧
    chosen (slotOf (bool_decide (i = 0))) (finalMatch st') = chosen pick m ∧
    chosen (slotOf (negb (bool_decide (i = 0)))) (finalMatch st') =
      chosen (slotOf (negb (bool_decide (i = 0)))) (finalMatch st) ∧
    match_id (finalMatch st') = "F" ∧
    winner (finalMatch st') = None ∧ outcome (finalMatch st') = None.
Proof.
  intros (m & Hm & Hq & -> & -> & _)%handlePick_sf_inv. exists m.
  pose proof (arr_get_Some_bounds _ _ _ Hm).
  split_and!; try done; [by autorewrite with js| |by case_bool_decide..].
  intros j Hj. by autorewrite with js.
Qed.

Lemma handlePick_sf_seeds_final_witness :
  let st := after_pick RoundQF 2 PickB initialHome in
  let st' := after_pick RoundSF 1 PickA st in
  handlePick RoundSF 1 PickA st = Some st' ∧
  teamB (finalMatch st') = Some (mkTeam 6 "salina") ∧
  ∃ m, arr_get (sf st) 1 = Some m ∧
    arr_get (sf st') 1 = Some (set_winner (chosen PickA m) m).
Proof.
  intros st st'. refine (conj eq_refl (conj eq_refl _)).
  destruct (handlePick_sf_seeds_final 1 PickA st st' eq_refl)
    as (m & Hm & Hm' & _).
  exact (ex_intro _ m (conj Hm Hm')).
Defined.

(** A pick in the final records the chosen slot's team as the final's
    [winner] and changes nothing else: not the final's slots, [id] or
    [outcome], and no other store.  The index is ignored. *)
Theorem handlePick_final_records_pick i pick st :
  handlePick RoundF i pick st =
    Some (mkHome (qf st) (sf st)
            (set_winner (chosen pick (finalMatch st)) (finalMatch st))
            (announced st)).
Proof. reflexivity. Qed.

(** The teams in the slots of a store, in order. *)
Definition slots (l : list (option Match)) : list (option (option Team * option Team)) :=
  fmap (M:=list) (fmap (M:=option) (λ m, (teamA m, teamB m))) l.

Lemma slots_arr_set_winner l i m w :
  arr_get l i = Some m → slots (arr_set i (set_winner w m) l) = slots l.
Proof.
  intros Hm. pose proof (arr_get_Some_bounds _ _ _ Hm) as Hi.
  rewrite arr_set_insert by lia. unfold slots.
  rewrite list_fmap_insert. apply list_insert_id.
  rewrite list_lookup_fmap. unfold arr_get in Hm.
  rewrite decide_True in Hm by lia.
  destruct (l !! Z.to_nat i) as [[m'|]|]; by simplify_eq/=.
Qed.

(** No pick in any round changes which teams play the quarterfinals:
    the slots of the [qf] store are the same before and after. *)
Theorem handlePick_keeps_qf_slots round i pick st st' :
  handlePick round i pick st = Some st' → slots (qf st') = slots (qf st).
Proof.
  destruct round.
  - intros (m & Hm & -> & _)%handlePick_qf_inv. by apply slots_arr_set_winner.
  - by intros (m & _ & -> & _)%handlePick_sf_inv.
  - by intros [= <-].
Qed.

Lemma handlePick_keeps_qf_slots_witness :
  let st' := after_pick RoundQF 0 PickB initialHome in
  handlePick RoundQF 0 PickB initialHome = Some st' ∧
  slots (qf st') = slots (qf initialHome).
Proof.
  intros st'. refine (conj eq_refl _).
  exact (handlePick_keeps_qf_slots RoundQF 0 PickB initialHome st' eq_refl).
Defined.

End later_rounds.

(** * Shape, idempotence, order *)

(** A pick that is carried out in a well-shaped state addresses a match
    of its round. *)
Lemma handlePick_valid_index round i pick st st' :
  shaped st → handlePick round i pick st = Some st' → valid_index round i.
Proof.
  intros Hsh Hp. destruct (decide (round = RoundF)) as [->|Hr]; [done|].
  apply (shaped_store_get round i st Hsh Hr), not_eq_None_Some.
  intros Hn. destruct round; simpl in *; [| |done].
  - by rewrite (qfPickUpdater_None _ _ _ Hn) in Hp.
  - by rewrite sfPickUpdater_eq, (qfPickUpdater_None _ _ _ Hn) in Hp.
Qed.

(** Split a pick carried out in a well-shaped state [st] into its cases:
    one goal per round, index and side, the state given by its matches
    and the result computed. *)
Ltac pick_cases st r i s Hsh Hp :=
  let Hv := fresh "Hv" in
  pose proof (handlePick_valid_index _ _ _ _ _ Hsh Hp) as Hv;
  shaped_cases st Hsh; destruct s, r; simpl in Hv;
  [ index_cases i 0 4 | index_cases i 0 2 | | index_cases i 0 4
  | index_cases i 0 2 | ];
  repeat match goal with m : Match |- _ => destruct m end;
  vm_compute in Hp; simplify_eq.

(** Picks keep the shape of the stores: four quarterfinals and two
    semifinals, no hole. *)
Lemma handlePick_shaped round i pick st st' :
  shaped st → handlePick round i pick st = Some st' → shaped st'.
Proof. intros Hsh Hp. pick_cases st round i pick Hsh Hp; apply shaped_intro. Qed.

Section laws.
Implicit Types (i j : Z) (pick : Side) (m t : Match) (st : Home).

(** Repeating a pick changes nothing: the state after a pick is a
    fixed point of that same pick, in every round and every state. *)
Theorem handlePick_idempotent round i pick st st' :
  handlePick round i pick st = Some st' →
  handlePick round i pick st' = Some st'.
Proof.
  destruct round.
  - intros (m & Hm & Hq & Hsf & Hf & Ha)%handlePick_qf_inv.
    pose proof (arr_get_Some_bounds _ _ _ Hm).
    pose proof (targetIndex_range i).
    destruct st' as [q' s' f' a']; simpl in *; subst.
    unfold sfPropagateUpdater in Hsf. rewrite Hm in Hsf. injection Hsf as <-.
    unfold handlePick, qfPickUpdater, sfPropagateUpdater; simpl.
    autorewrite with js; simpl. autorewrite with js; simpl.
    by destruct (isFirstSlot i).
  - intros (m & Hm & Hq & Hsf & Hf & Ha)%handlePick_sf_inv.
    pose proof (arr_get_Some_bounds _ _ _ Hm).
    destruct st' as [q' s' f' a']; simpl in *; subst.
    unfold handlePick, sfPickUpdater, finalPropagateUpdater; simpl.
    autorewrite with js; simpl. autorewrite with js; simpl.
    by case_bool_decide.
  - intros [= <-]. simpl. unfold finalPickUpdater. simpl.
    by rewrite chosen_set_winner.
Qed.

Lemma handlePick_idempotent_witness :
  let st' := after_pick RoundQF 1 PickA initialHome in
  handlePick RoundQF 1 PickA initialHome = Some st' ∧
  handlePick RoundQF 1 PickA st' = Some st'.
Proof.
  intros st'. refine (conj eq_refl _).
  exact (handlePick_idempotent RoundQF 1 PickA initialHome st' eq_refl).
Defined.

(** Picks in two different matches of the same round commute: in a
    well-shaped state the two quarterfinal (or semifinal) picks give the
    same state in either order, also when both feed the same match of the
    next round. *)
Theorem handlePick_commute round i j p q st :
  shaped st → round ≠ RoundF →
  valid_index round i → valid_index round j → i ≠ j →
  handlePick round i p st ≫= handlePick round j q =
  handlePick round j q st ≫= handlePick round i p.
Proof.
  intros Hsh Hr Hi Hj Hij. shaped_cases st Hsh.
  destruct round; simpl in Hi, Hj; [| |done].
  - index_cases i 0 4; index_cases j 0 4; try done; reflexivity.
  - index_cases i 0 2; index_cases j 0 2; try done; reflexivity.
Qed.

Lemma handlePick_commute_witness :
  shaped initialHome ∧
  handlePick RoundQF 0 PickA initialHome ≫= handlePick RoundQF 1 PickB =
  handlePick RoundQF 1 PickB initialHome ≫= handlePick RoundQF 0 PickA.
Proof.
  refine (conj initialHome_shaped _).
  apply (handlePick_commute RoundQF 0 1 PickA PickB initialHome
           initialHome_shaped); [done|compute_done|compute_done|done].
Defined.

(** [handleReset] restores the three match stores to their initial
    values and keeps [announced]: the result is the initial state exactly
    when no checkpoint had been announced. *)
Theorem handleReset_initial_iff st :
  qf (handleReset st) = qf initialHome ∧
  sf (handleReset st) = sf initialHome ∧
  finalMatch (handleReset st) = finalMatch initialHome ∧
  (handleReset st = initialHome ↔ announced st = []).
Proof.
  split_and!; try done. unfold handleReset, initialHome.
  split; [by intros [= ->]|by intros ->].
Qed.

Lemma handleReset_shaped st : shaped (handleReset st).
Proof. apply shaped_intro. Qed.

End laws.

#[export] Hint Resolve handlePick_shaped handleReset_shaped : js.

(** * Closures *)

(** The handler of the current render. *)
Lemma handlePickFrom_current round i pick st :
  handlePickFrom (qf st) (sf st) round i pick st = handlePick round i pick st.
Proof. by destruct round. Qed.

(** Stores with the same slots give the same team to a pick. *)
Lemma slots_chosen (l l' : list (option Match)) i pick :
  slots l = slots l' →
  chosen pick <$> arr_get l i = chosen pick <$> arr_get l' i.
Proof.
  intros Hs. apply (f_equal (λ k, arr_get k i)) in Hs. unfold slots in Hs.
  rewrite !arr_get_fmap in Hs.
  destruct (arr_get l i), (arr_get l' i), pick; simpl in *; congruence.
Qed.

(** A quarterfinal pick does not depend on the age of its closure: the
    closure is read for the teams of the quarterfinal only. *)
Lemma handlePickFrom_qf qf0 sf0 i pick st :
  slots qf0 = slots (qf st) →
  handlePickFrom qf0 sf0 RoundQF i pick st = handlePick RoundQF i pick st.
Proof.
  intros Hs%(slots_chosen _ _ i pick). unfold handlePickFrom, handlePick.
  destruct (qfPickUpdater i pick (qf st)); simpl; [|done].
  unfold sfPropagateUpdater.
  destruct (arr_get qf0 i), (arr_get (qf st) i); simplify_eq/=; try done.
  by rewrite Hs.
Qed.

(** A semifinal pick made by the handler of another render does what the
    current handler does exactly when the picked slot of the semifinal is
    the same in both renders: the closure is read for the team that goes
    to the final. *)
Lemma handlePickFrom_sf qf0 sf0 i pick st :
  is_Some (arr_get sf0 i) → is_Some (arr_get (sf st) i) →
  (handlePickFrom qf0 sf0 RoundSF i pick st = handlePick RoundSF i pick st
   ↔ chosen pick <$> arr_get sf0 i = chosen pick <$> arr_get (sf st) i).
Proof.
  intros [m0 Hm0] [m Hm]. unfold handlePickFrom, handlePick, sfPickUpdater,
    finalPropagateUpdater. rewrite Hm0, Hm. simpl.
  split; [|by intros [= ->]].
  intros [= Heq1 Heq2]. f_equal. by destruct (bool_decide (i = 0)).
Qed.
