(* ===== verification/Scoring.v ===== *)
(** The scoring engine: [calc] and [points] (lines 120-132), the
    [checkpoints] (lines 134-138) and the effect that reports the
    checkpoints newly reached (lines 237-264).  [alert] is not performed:
    the effect returns the messages it would show, in order, with the state
    after its [setAnnounced] call. *)

From Stdlib Require Import ZArith Lia.
From stdpp Require Import base tactics option list numbers strings pretty.
From S2P Require Import Prelude Entrants Bracket.

#[local] Open Scope string_scope.
#[local] Open Scope list_scope.
#[local] Open Scope Z_scope.
#[local] Open Scope js_scope.

(** * Points *)

(** Lines 122-127, [calc(m?: Match)]: 0 without a match or without an
    outcome, 3 when the pick has the outcome's [id], else 1. *)
Definition calc (m : option Match) : Z :=
  match m with
  | None => 0
  | Some m =>
      match outcome m with
      | None => 0
      | Some o =>
          match winner m with
          | Some w => if decide (team_id w = team_id o) then 3 else 1
          | None => 1
          end
      end
  end.

(** Lines 128-131: the three partial sums and their total. *)
Definition points (st : Home) : Z :=
  let qfPoints := arr_reduce (λ acc m, acc + calc (Some m)) 0 (qf st) in
  let sfPoints := arr_reduce (λ acc m, acc + calc (Some m)) 0 (sf st) in
  let fPoints := calc (Some (finalMatch st)) in
  qfPoints + sfPoints + fPoints.

(** * Checkpoints *)

(** An element of [checkpoints]: [{ points, name, image }]. *)
Record Checkpoint := mkCheckpoint {
  cp_points : Z;
  cp_name : string;
  cp_image : string;
}.

(** Lines 134-138. *)
Definition checkpoints : list Checkpoint :=
  [ mkCheckpoint 6 "Bronze crate" "/bronze-crate.png";
    mkCheckpoint 12 "Silver crate" "/silver-crate.png";
    mkCheckpoint 18 "Gold crate" "/gold-crate.png" ].

(** Lines 238-240: the thresholds that [points] has reached and that are
    not in [announced], in the order of [checkpoints]. *)
Definition newlyReached (pts : Z) (ann : list Z) : list Z :=
  cp_points <$> filter (λ c, cp_points c ≤ pts ∧ cp_points c ∉ ann) checkpoints.

(** Lines 245-258: the text of the alert for a checkpoint. *)
Definition message (cp : Checkpoint) : string :=
  if decide (cp_points cp = 6) then
    "Top! Je eerste mijlpaal is binnen: " +:+ cp_name cp +:+ " (6 punten)."
  else if decide (cp_points cp = 12) then
    "Lekker bezig! Halverwege: " +:+ cp_name cp +:+ " (12 punten)."
  else if decide (cp_points cp = 18) then
    "Geweldig! Je hebt alle picks goed: " +:+ cp_name cp +:+ " (18 punten)."
  else
    "Gefeliciteerd! Checkpoint gehaald: " +:+ cp_name cp +:+ " ("
      +:+ pretty (cp_points cp) +:+ " punten).".

(** Line 243, [checkpoints.find((c) => c.points === p)]. *)
Definition checkpointOf (p : Z) : option Checkpoint :=
  snd <$> list_find (λ c, cp_points c = p) checkpoints.

(** Lines 242-261: for each newly reached threshold, look its checkpoint up
    and alert its message; a threshold without a checkpoint alerts nothing. *)
Definition alerts (newly : list Z) : list string :=
  omap (λ p, message <$> checkpointOf p) newly.

(** Lines 237-264, one run of the effect: the alerts shown and the state
    after it.  [setAnnounced] is only called when something was reached. *)
Definition checkpointEffect (st : Home) : list string * Home :=
  let newly := newlyReached (points st) (announced st) in
  if decide (0 < length newly)%nat
  then (alerts newly,
        mkHome (qf st) (sf st) (finalMatch st) (announced st ++ newly))
  else ([], st).

(** The effect runs after every render, and its own [setAnnounced] causes a
    render: the runs that follow one commit, until a run reaches nothing.
    [None]: more than [fuel] runs were needed. *)
Fixpoint effectLoop (fuel : nat) (st : Home) : option (list string * Home) :=
  match fuel with
  | O => None
  | S fuel' =>
      let '(shown, st') := checkpointEffect st in
      if decide (0 < length (newlyReached (points st) (announced st)))%nat
      then '(more, st'') ← effectLoop fuel' st'; Some (shown ++ more, st'')
      else Some (shown, st')
  end.

(** The state once the effect has settled. *)
Definition settle (st : Home) : Home := (checkpointEffect st).2.

(** * What is counted *)

(** The match has been simulated. *)
Definition decided (m : Match) : Prop := is_Some (outcome m).

(** The pick is the simulated outcome, by [id]. *)
Definition correct (m : Match) : Prop :=
  match winner m, outcome m with
  | Some w, Some o => team_id w = team_id o
  | _, _ => False
  end.

#[export] Instance decided_dec m : Decision (decided m).
Proof. unfold decided. apply _. Defined.

#[export] Instance correct_dec m : Decision (correct m).
Proof. unfold correct. destruct (winner m), (outcome m); apply _. Defined.

(** Number of elements of a list with a property, as an integer. *)
Definition count {T} (P : T → Prop) `{!∀ x, Decision (P x)} (l : list T) : Z :=
  Z.of_nat (length (filter P l)).

(** The sum of a list of integers. *)
Definition sumZ (l : list Z) : Z := foldr Z.add 0 l.

Lemma sumZ_cons x (l : list Z) : sumZ (x :: l) = x + sumZ l.
Proof. reflexivity. Qed.

(** * Points: lemmas *)

Section points.
Implicit Types (m : Match) (l : list (option Match)) (k : list Match) (st : Home).

Lemma calc_Some m :
  calc (Some m) = if decide (correct m) then 3 else if decide (decided m) then 1 else 0.
Proof.
  destruct (decide (correct m)) as [Hc|Hc], (decide (decided m)) as [Hd|Hd];
    destruct m as [i a b [w|] [o|]];
    unfold calc, correct, decided in *; simpl in *;
    try done; try case_decide; try done; try by destruct Hd.
  all: by destruct Hd; eauto.
Qed.

Lemma correct_decided m : correct m → decided m.
Proof. unfold correct, decided. destruct (winner m), (outcome m); naive_solver. Qed.

Lemma calc_range (o : option Match) : 0 ≤ calc o ≤ 3.
Proof. destruct o as [m|]; [|simpl; lia]. rewrite calc_Some. repeat case_decide; lia. Qed.

(** The array sum of the source is the list sum over the present matches. *)
Lemma arr_reduce_calc_acc l (b : Z) :
  arr_reduce (λ acc m, acc + calc (Some m)) b l
  = b + sumZ (calc ∘ Some <$> omap id l).
Proof.
  unfold arr_reduce. revert b.
  induction l as [|[m|] l IH]; intros b; [simpl; lia| |apply IH].
  change (foldl _ b (Some m :: l)) with
    (foldl (λ acc x, from_option (λ m, acc + calc (Some m)) acc x)
       (b + calc (Some m)) l).
  rewrite IH. change (omap id (Some m :: l)) with (m :: omap id l).
  rewrite fmap_cons, sumZ_cons. simpl. lia.
Qed.

Lemma arr_reduce_calc l :
  arr_reduce (λ acc m, acc + calc (Some m)) 0 l = sumZ (calc ∘ Some <$> omap id l).
Proof. by rewrite arr_reduce_calc_acc. Qed.

Lemma sumZ_app (a b : list Z) : sumZ (a ++ b) = sumZ a + sumZ b.
Proof. induction a as [|x a IH]; simpl; lia. Qed.

Lemma points_matches st : points st = sumZ (calc ∘ Some <$> matches st).
Proof.
  unfold points, matches. rewrite !arr_reduce_calc, !fmap_app, !sumZ_app.
  simpl. lia.
Qed.

Lemma count_cons {T} (P : T → Prop) `{!∀ x, Decision (P x)} x (k : list T) :
  count P (x :: k) = (if decide (P x) then 1 else 0) + count P k.
Proof. unfold count. rewrite filter_cons. case_decide; simpl; lia. Qed.

Lemma count_range {T} (P : T → Prop) `{!∀ x, Decision (P x)} (k : list T) :
  0 ≤ count P k ≤ Z.of_nat (length k).
Proof. unfold count. pose proof (length_filter P k). lia. Qed.

Lemma count_correct_decided k : count correct k ≤ count decided k.
Proof.
  induction k as [|m k IH]; [done|]. rewrite !count_cons.
  destruct (decide (correct m)) as [Hc|Hc], (decide (decided m)) as [Hd|Hd];
    try lia. by destruct Hd; apply correct_decided.
Qed.

Lemma sumZ_calc k :
  sumZ (calc ∘ Some <$> k) = 3 * count correct k + (count decided k - count correct k).
Proof.
  induction k as [|m k IH]; [done|].
  rewrite !count_cons, fmap_cons, sumZ_cons, IH.
  change ((calc ∘ Some) m) with (calc (Some m)). rewrite calc_Some.
  destruct (decide (correct m)) as [Hc|Hc], (decide (decided m)) as [Hd|Hd];
    try lia. by destruct Hd; apply correct_decided.
Qed.

End points.

(** C6. The total is 3 points for every match whose pick has the [id] of
    its outcome and 1 point for every other match that has an outcome;
    matches without an outcome count nothing. *)
Theorem points_formula st :
  points st =
    3 * count correct (matches st)
    + 1 * (count decided (matches st) - count correct (matches st)).
Proof. rewrite points_matches, sumZ_calc. lia. Qed.

(** In a well-shaped state the total is the score of at most seven
    decided matches. *)
Lemma points_counts st :
  shaped st →
  points st = 2 * count correct (matches st) + count decided (matches st) ∧
  0 ≤ count correct (matches st) ≤ count decided (matches st) ∧
  count decided (matches st) ≤ 7.
Proof.
  intros Hsh. rewrite points_matches, sumZ_calc.
  pose proof (matches_length st Hsh).
  pose proof (count_correct_decided (matches st)).
  pose proof (count_range correct (matches st)).
  pose proof (count_range decided (matches st)). lia.
Qed.

Lemma points_range st : shaped st → 0 ≤ points st ≤ 21.
Proof. intros Hsh. pose proof (points_counts st Hsh). lia. Qed.

(** C33. In a well-shaped state the total lies between 0 and 21, and it is
    never 20: seven matches give at most seven correct picks, and 20 would
    need six and a half. *)
Theorem points_bounds st :
  shaped st → 0 ≤ points st ≤ 21 ∧ points st ≠ 20.
Proof. intros Hsh. pose proof (points_counts st Hsh). lia. Qed.

Lemma points_bounds_witness :
  shaped initialHome ∧ 0 ≤ points initialHome ≤ 21 ∧ points initialHome ≠ 20.
Proof.
  exact (conj initialHome_shaped (points_bounds initialHome initialHome_shaped)).
Defined.

(** What the gold checkpoint really certifies: a well-shaped state
    with 18 points or more has at least six correct picks, and 21 points
    mean that all seven are correct. *)
Theorem points_gold st :
  shaped st →
  (18 ≤ points st → 6 ≤ count correct (matches st)) ∧
  (points st = 21 ↔ count correct (matches st) = 7).
Proof. intros Hsh. pose proof (points_counts st Hsh). lia. Qed.

Lemma points_gold_witness :
  shaped initialHome ∧
  (18 ≤ points initialHome → 6 ≤ count correct (matches initialHome)) ∧
  (points initialHome = 21 ↔ count correct (matches initialHome) = 7).
Proof.
  exact (conj initialHome_shaped (points_gold initialHome initialHome_shaped)).
Defined.

(** * Checkpoints: lemmas *)

Section checkpoints.
Implicit Types (pts p : Z) (ann : list Z) (st : Home).

(** The thresholds, in the order of [checkpoints]. *)
Definition thresholds : list Z := cp_points <$> checkpoints.

Lemma thresholds_eq : thresholds = [6; 12; 18].
Proof. reflexivity. Qed.

Lemma newlyReached_filter pts ann :
  newlyReached pts ann = filter (λ p, p ≤ pts ∧ p ∉ ann) thresholds.
Proof.
  unfold newlyReached, thresholds. induction checkpoints as [|c l IH]; [done|].
  rewrite fmap_cons, !filter_cons. simpl. case_decide; by rewrite <-IH.
Qed.

Lemma elem_of_newlyReached pts ann p :
  p ∈ newlyReached pts ann ↔ p ∈ thresholds ∧ p ≤ pts ∧ p ∉ ann.
Proof. rewrite newlyReached_filter, list_elem_of_filter. naive_solver. Qed.

Lemma newlyReached_NoDup pts ann : NoDup (newlyReached pts ann).
Proof.
  rewrite newlyReached_filter. apply NoDup_filter. rewrite thresholds_eq.
  compute_done.
Qed.

(** Nothing is newly reached once the reached thresholds are announced. *)
Lemma newlyReached_announced pts ann :
  newlyReached pts (ann ++ newlyReached pts ann) = [].
Proof.
  apply elem_of_nil_inv. intros p (Ht & Hp & Hn)%elem_of_newlyReached.
  apply Hn, elem_of_app.
  destruct (decide (p ∈ ann)); [by left|right].
  by apply elem_of_newlyReached.
Qed.

Lemma newlyReached_nil_iff pts ann :
  newlyReached pts ann = [] ↔ ∀ p, p ∈ thresholds → p ≤ pts → p ∈ ann.
Proof.
  split.
  - intros Hn p Ht Hp. destruct (decide (p ∈ ann)) as [|Hna]; [done|].
    assert (p ∈ newlyReached pts ann) as Hin by by apply elem_of_newlyReached.
    rewrite Hn in Hin. by apply elem_of_nil in Hin.
  - intros Hall. apply elem_of_nil_inv.
    intros p (Ht & Hp & Hn)%elem_of_newlyReached. eauto.
Qed.

(** Every threshold has a checkpoint. *)
Lemma checkpointOf_threshold p :
  p ∈ thresholds → ∃ c, checkpointOf p = Some c ∧ cp_points c = p.
Proof.
  rewrite thresholds_eq. intros Hp.
  repeat (apply elem_of_cons in Hp as [->|Hp]; [by eexists|]).
  by apply elem_of_nil in Hp.
Qed.

(** What [find] returns is a checkpoint with the threshold asked for. *)
Lemma checkpointOf_Some p c :
  checkpointOf p = Some c → c ∈ checkpoints ∧ cp_points c = p.
Proof.
  unfold checkpointOf. destruct (list_find _ _) as [[k c']|] eqn:Hf; [|done].
  intros [= <-]. apply list_find_Some in Hf as (Hk & Hp & _).
  split; [by eapply list_elem_of_lookup_2|done].
Qed.

(** The checkpoints have different messages. *)
Lemma message_inj c c' :
  c ∈ checkpoints → c' ∈ checkpoints → message c = message c' → c = c'.
Proof.
  unfold checkpoints. rewrite !elem_of_cons, !elem_of_nil.
  intros [->|[->|[->|[]]]] [->|[->|[->|[]]]]; by vm_compute.
Qed.

Lemma alerts_cons p (l : list Z) :
  alerts (p :: l) =
    match checkpointOf p with
    | Some c => message c :: alerts l
    | None => alerts l
    end.
Proof. unfold alerts. simpl. by destruct (checkpointOf p). Qed.

Lemma alerts_length (l : list Z) :
  l ⊆ thresholds → length (alerts l) = length l.
Proof.
  induction l as [|p l IH]; intros Hsub; [done|].
  destruct (checkpointOf_threshold p) as (c & Hc & _); [apply Hsub; left|].
  rewrite alerts_cons, Hc. simpl.
  rewrite IH; [done|]. intros x ?. apply Hsub. by right.
Qed.

Lemma alerts_elem (l : list Z) p c :
  p ∈ l → checkpointOf p = Some c → message c ∈ alerts l.
Proof.
  intros Hp Hc. unfold alerts. apply list_elem_of_omap.
  exists p. by rewrite Hc.
Qed.

Lemma checkpointEffect_points st : points (checkpointEffect st).2 = points st.
Proof. unfold checkpointEffect. by case_decide. Qed.

Lemma checkpointEffect_announced st :
  announced (checkpointEffect st).2 =
    announced st ++ newlyReached (points st) (announced st).
Proof.
  unfold checkpointEffect. case_decide as Hl; [done|]. simpl.
  destruct (newlyReached _ _); simpl in *; [by rewrite app_nil_r|lia].
Qed.

Lemma checkpointEffect_stores st :
  qf (checkpointEffect st).2 = qf st ∧ sf (checkpointEffect st).2 = sf st ∧
  finalMatch (checkpointEffect st).2 = finalMatch st.
Proof. unfold checkpointEffect. by case_decide. Qed.

Lemma settle_settled st :
  newlyReached (points (settle st)) (announced (settle st)) = [].
Proof.
  unfold settle. rewrite checkpointEffect_points, checkpointEffect_announced.
  apply newlyReached_announced.
Qed.

Lemma checkpointEffect_settled st :
  newlyReached (points st) (announced st) = [] → checkpointEffect st = ([], st).
Proof. intros Hn. unfold checkpointEffect. by rewrite Hn. Qed.

(** The effect only appends thresholds that were not announced, so a list
    of announcements without repetition stays one. *)
Lemma settle_announced_NoDup st :
  NoDup (announced st) → NoDup (announced (settle st)).
Proof.
  intros Hnd. unfold settle. rewrite checkpointEffect_announced.
  apply NoDup_app. split_and!; [done| |apply newlyReached_NoDup].
  intros p Hp (_ & _ & Hn)%elem_of_newlyReached. done.
Qed.

End checkpoints.

(** C7. The thresholds the effect reports are exactly the checkpoints
    6, 12 and 18 that the total has reached and that are not in
    [announced]. *)
Theorem newlyReached_spec pts ann p :
  p ∈ newlyReached pts ann ↔ p ∈ [6; 12; 18] ∧ p ≤ pts ∧ p ∉ ann.
Proof. rewrite elem_of_newlyReached. by rewrite thresholds_eq. Qed.

(** C10. A checkpoint is reported once: after one run of the effect a
    second run on the resulting state shows no alert and changes
    nothing, whatever the total and whatever was announced before. *)
Theorem checkpointEffect_once st :
  checkpointEffect (checkpointEffect st).2 = ([], (checkpointEffect st).2).
Proof. apply checkpointEffect_settled, settle_settled. Qed.

(** C32. The chain of renders that the effect sets off ends: two runs are
    always enough, the alerts shown are those of the first run and the
    state reached is the state after the first run. *)
Theorem effectLoop_terminates fuel st :
  effectLoop (2 + fuel) st = Some (checkpointEffect st).
Proof.
  simpl. destruct (checkpointEffect st) as [shown st'] eqn:E.
  case_decide as Hl; [|done].
  pose proof (checkpointEffect_settled _ (settle_settled st)) as Honce.
  unfold settle in Honce. rewrite E in Honce.
  simpl in Honce. rewrite Honce.
  pose proof (settle_settled st) as Hs. unfold settle in Hs. rewrite E in Hs.
  simpl in Hs. rewrite Hs. simpl. by rewrite app_nil_r.
Qed.

(** One alert per newly reached checkpoint, in threshold order, with
    the text of its case: the message for 18 points claims that all picks
    are right. *)
Theorem alerts_newlyReached pts ann :
  length (alerts (newlyReached pts ann)) = length (newlyReached pts ann) ∧
  (18 ∈ newlyReached pts ann →
     "Geweldig! Je hebt alle picks goed: Gold crate (18 punten)."
       ∈ alerts (newlyReached pts ann)).
Proof.
  split.
  - apply alerts_length. by intros p (? & _)%elem_of_newlyReached.
  - intros Hin. by apply (alerts_elem _ 18 (mkCheckpoint 18 "Gold crate" "/gold-crate.png")).
Qed.
