(* ===== verification/Simulation.v ===== *)
(** The simulation engine: [pickRandom] (lines 142-147) and
    [handleSimulate] (lines 149-154).  [Math.random()] is the next entry of
    a tape [random : nat -> Q]; every definition takes the position on the
    tape and returns the position after it, so the draws a run makes are
    part of its result.  The three updaters of [handleSimulate] run in the
    order of the hooks: [qf], [sf], [finalMatch]. *)

From Stdlib Require Import ZArith QArith Lia.
From stdpp Require Import base tactics option list numbers strings.
From S2P Require Import Prelude Entrants Bracket.

#[local] Open Scope string_scope.
#[local] Open Scope list_scope.
#[local] Open Scope Z_scope.

Section simulation.
(** The results of the successive calls of [Math.random()]. *)
Variable random : nat → Q.

(** Lines 142-147: no team without occupants, the only occupant when there
    is one, else slot A when the draw is below one half and slot B
    otherwise.  Only the last case draws. *)
Definition pickRandom (a b : option Team) (n : nat) : option Team * nat :=
  match a, b with
  | None, None => (None, n)
  | Some _, None => (a, n)
  | None, Some _ => (b, n)
  | Some _, Some _ => (if Qlt_le_dec (random n) (1 # 2) then a else b, S n)
  end.

(** The callback of the three [map]/updater calls (lines 151-153):
    [{ ...m, outcome: pickRandom(m.teamA, m.teamB) }]. *)
Definition simulateMatch (m : Match) (n : nat) : Match * nat :=
  let '(o, n') := pickRandom (teamA m) (teamB m) n in (set_outcome o m, n').

(** Lines 149-154. *)
Definition handleSimulate (st : Home) (n : nat) : Home * nat :=
  let '(qf', n1) := arr_map_st simulateMatch (qf st) n in
  let '(sf', n2) := arr_map_st simulateMatch (sf st) n1 in
  let '(fm', n3) := simulateMatch (finalMatch st) n2 in
  (mkHome qf' sf' fm' (announced st), n3).

(** Reference: one pass over a list of matches. *)
Definition simulateList (ms : list Match) (n : nat) : list Match * nat :=
  map_st simulateMatch ms n.

End simulation.

(** The side a draw selects: [Math.random() < 0.5 ? a : b]. *)
Definition drawn (r : Q) : Side := if Qlt_le_dec r (1 # 2) then PickA else PickB.

(** A tape that makes the [k]-th draw select the [k]-th side of a list
    (and slot B once the list is exhausted). *)
Definition tape_of (sides : list Side) (n : nat) : Q :=
  match sides !! n with
  | Some PickA => 0
  | _ => 1 # 2
  end.

(** [o] is an outcome a simulation may give [m]: the only occupant, one
    of two occupants, or none when both slots are empty. *)
Definition may_draw (m : Match) (o : option Team) : Prop :=
  match teamA m, teamB m with
  | None, None => o = None
  | Some _, None => o = teamA m
  | None, Some _ => o = teamB m
  | Some _, Some _ => o = teamA m ∨ o = teamB m
  end.

(** [m'] is [m] with such an outcome, and otherwise unchanged. *)
Definition simulated (m m' : Match) : Prop :=
  m' = set_outcome (outcome m') m ∧ may_draw m (outcome m').

(** The number of matches of a list with both slots filled. *)
Definition fullCount (ms : list Match) : nat := length (filter full ms).

(** * One match *)

Section one_match.
Variable random : nat → Q.
Implicit Types (a b o : option Team) (m : Match) (n : nat).

Lemma pickRandom_spec_aux a b n :
  (pickRandom random a b n).1 =
    match a, b with
    | Some _, Some _ => (if Qlt_le_dec (random n) (1 # 2) then a else b)
    | Some _, None => a
    | None, _ => b
    end ∧
  (pickRandom random a b n).2 =
    (if decide (is_Some a ∧ is_Some b) then S n else n).
Proof.
  unfold pickRandom.
  destruct a, b; simpl; (split; [done|]); by try case_decide.
Qed.

(** C8. [pickRandom] returns one of its arguments; it returns nothing
    only when both are missing; with exactly one team it returns that team
    without drawing; with two it draws once and returns the first team
    when the draw is below one half, else the second. *)
Theorem pickRandom_spec a b n :
  (pickRandom random a b n).1 =
    match a, b with
    | Some _, Some _ =>
        (match drawn (random n) with PickA => a | PickB => b end)
    | Some _, None => a
    | None, _ => b
    end ∧
  (pickRandom random a b n).2 =
    (if decide (is_Some a ∧ is_Some b) then S n else n).
Proof.
  destruct (pickRandom_spec_aux a b n) as [-> ->]. split; [|done].
  unfold drawn. destruct a, b; try done. by destruct (Qlt_le_dec _ _).
Qed.

Lemma simulateMatch_eq m n :
  simulateMatch random m n =
    (set_outcome (pickRandom random (teamA m) (teamB m) n).1 m,
     (pickRandom random (teamA m) (teamB m) n).2).
Proof. unfold simulateMatch. by destruct (pickRandom _ _ _ _). Qed.

Lemma pickRandom_may_draw m n :
  may_draw m (pickRandom random (teamA m) (teamB m) n).1.
Proof.
  unfold may_draw, pickRandom. destruct (teamA m), (teamB m); simpl; try done.
  destruct (Qlt_le_dec _ _); eauto.
Qed.

Lemma simulateMatch_simulated m n : simulated m (simulateMatch random m n).1.
Proof.
  rewrite simulateMatch_eq. split; [done|]. apply pickRandom_may_draw.
Qed.

Lemma simulateMatch_cursor m n :
  (simulateMatch random m n).2 = if decide (full m) then S n else n.
Proof.
  rewrite simulateMatch_eq. simpl.
  by rewrite (proj2 (pickRandom_spec_aux _ _ _)).
Qed.

End one_match.

(** * The whole bracket *)

Section bracket.
Implicit Types (random : nat → Q) (m : Match) (ms : list Match) (n : nat)
  (st : Home).

(** The handler with its intermediate results named. *)
Lemma handleSimulate_eq random st n :
  handleSimulate random st n =
    let q := arr_map_st (simulateMatch random) (qf st) n in
    let s := arr_map_st (simulateMatch random) (sf st) q.2 in
    let fm := simulateMatch random (finalMatch st) s.2 in
    (mkHome q.1 s.1 fm.1 (announced st), fm.2).
Proof.
  unfold handleSimulate. destruct (arr_map_st _ (qf st) n) as [qf' n1]. simpl.
  destruct (arr_map_st _ (sf st) n1) as [sf' n2]. simpl.
  by destruct (simulateMatch random (finalMatch st) n2).
Qed.

(** The three updaters of the handler are one pass over the matches of the
    state: quarterfinals, semifinals, final. *)
Lemma handleSimulate_matches random st n :
  (matches (handleSimulate random st n).1, (handleSimulate random st n).2)
  = simulateList random (matches st) n.
Proof.
  rewrite handleSimulate_eq. unfold simulateList, matches. simpl.
  rewrite !map_st_app, <-!arr_map_st_omap. simpl.
  by destruct (simulateMatch random (finalMatch st) _).
Qed.

Lemma simulateList_cursor random ms n :
  (simulateList random ms n).2 = (n + fullCount ms)%nat.
Proof.
  unfold simulateList, fullCount. revert n.
  induction ms as [|m ms IH]; intros n; [simpl; lia|].
  rewrite map_st_cons, filter_cons. simpl.
  rewrite IH, simulateMatch_cursor. case_decide; simpl; lia.
Qed.

Lemma handleSimulate_stores random st n :
  length (qf (handleSimulate random st n).1) = length (qf st) ∧
  length (sf (handleSimulate random st n).1) = length (sf st) ∧
  announced (handleSimulate random st n).1 = announced st.
Proof.
  rewrite handleSimulate_eq. simpl. by rewrite !arr_map_st_length.
Qed.

Lemma handleSimulate_shaped random st n :
  shaped st → shaped (handleSimulate random st n).1.
Proof.
  intros (Hq & Hqd & Hs & Hsd). rewrite handleSimulate_eq. unfold shaped. simpl.
  rewrite !arr_map_st_length. split_and!; try done; by apply arr_map_st_dense.
Qed.

(** The result of a simulation in a well-shaped state, match by match. *)
Lemma handleSimulate_shaped_eq random q0 q1 q2 q3 s0 s1 fm ann n :
  ∃ o0 o1 o2 o3 o4 o5 o6,
    (handleSimulate random
       (mkHome [Some q0; Some q1; Some q2; Some q3] [Some s0; Some s1] fm ann) n).1
    = mkHome [Some (set_outcome o0 q0); Some (set_outcome o1 q1);
              Some (set_outcome o2 q2); Some (set_outcome o3 q3)]
             [Some (set_outcome o4 s0); Some (set_outcome o5 s1)]
             (set_outcome o6 fm) ann ∧
    may_draw q0 o0 ∧ may_draw q1 o1 ∧ may_draw q2 o2 ∧ may_draw q3 o3 ∧
    may_draw s0 o4 ∧ may_draw s1 o5 ∧ may_draw fm o6.
Proof.
  rewrite handleSimulate_eq. cbv zeta. cbn [qf sf finalMatch announced].
  rewrite !map_st_arr_cons. cbn [arr_map_st fst snd].
  rewrite !simulateMatch_eq. cbn [fst snd].
  do 7 eexists. split; [reflexivity|].
  split_and!; apply pickRandom_may_draw.
Qed.

(** Every match of the result is the match it was, with an outcome it may
    draw. *)
Lemma handleSimulate_Forall2 random st n :
  Forall2 simulated (matches st) (matches (handleSimulate random st n).1).
Proof.
  change (matches (handleSimulate random st n).1)
    with (matches (handleSimulate random st n).1, (handleSimulate random st n).2).1.
  rewrite handleSimulate_matches. apply map_st_Forall2.
  intros m c. apply simulateMatch_simulated.
Qed.

(** C9. After [handleSimulate] every match is the match it was with a new
    outcome and nothing else changed (slots, pick and [id] are kept, and so
    is [announced]); the outcome is an occupant of the match: one of the two
    teams when both slots are filled, the only team when one is, and absent
    only when both slots are empty. *)
Theorem handleSimulate_simulated random st n :
  Forall2 simulated (matches st) (matches (handleSimulate random st n).1) ∧
  announced (handleSimulate random st n).1 = announced st ∧
  length (qf (handleSimulate random st n).1) = length (qf st) ∧
  length (sf (handleSimulate random st n).1) = length (sf st).
Proof.
  split; [apply handleSimulate_Forall2|]. rewrite handleSimulate_eq. simpl.
  by rewrite !arr_map_st_length.
Qed.

(** [handleSimulate] calls [Math.random()] once for every match that
    has both slots filled, and for no other match. *)
Theorem handleSimulate_draws random st n :
  (handleSimulate random st n).2 = (n + fullCount (matches st))%nat.
Proof.
  change (handleSimulate random st n).2
    with (matches (handleSimulate random st n).1, (handleSimulate random st n).2).2.
  rewrite handleSimulate_matches. apply simulateList_cursor.
Qed.

End bracket.

(** * Re-simulation and the reachable outcomes *)

Section outcomes.
Implicit Types (random : nat → Q) (m : Match) (ms : list Match) (n : nat)
  (st : Home) (sides : list Side).

(** [m'] has the slots, pick and [id] of [m]. *)
Definition same_but_outcome (m m' : Match) : Prop :=
  m' = set_outcome (outcome m') m.

Lemma simulateMatch_forgets random m m' n :
  same_but_outcome m m' → simulateMatch random m n = simulateMatch random m' n.
Proof.
  unfold same_but_outcome. intros ->. by rewrite !simulateMatch_eq.
Qed.

Lemma simulateMatch_same random m n :
  same_but_outcome m (simulateMatch random m n).1.
Proof. by rewrite simulateMatch_eq. Qed.

(** Simulating again overwrites every outcome: the result of a second
    [handleSimulate] does not depend on the outcomes the first one drew,
    only on the slots, the picks and its own draws. *)
Theorem handleSimulate_overwrites random random' st n n' :
  handleSimulate random' (handleSimulate random st n).1 n'
  = handleSimulate random' st n'.
Proof.
  rewrite (handleSimulate_eq random st n), !(handleSimulate_eq random'). simpl.
  assert (∀ l c c', arr_map_st (simulateMatch random')
            (arr_map_st (simulateMatch random) l c).1 c'
          = arr_map_st (simulateMatch random') l c') as Harr.
  { intros l c c'. symmetry.
    apply (arr_map_st_proper _ same_but_outcome);
      [intros ????; by apply simulateMatch_forgets|].
    apply arr_map_st_Forall2. intros ??. apply simulateMatch_same. }
  rewrite !Harr.
  by rewrite <-(simulateMatch_forgets random' (finalMatch st) _ _
                  (simulateMatch_same random (finalMatch st) _)).
Qed.

Lemma tape_of_drawn sides n s :
  sides !! n = Some s → drawn (tape_of sides n) = s.
Proof. unfold tape_of. intros ->. by destruct s. Qed.

Lemma simulateMatch_full random m n :
  full m →
  outcome (simulateMatch random m n).1 = chosen (drawn (random n)) m ∧
  full (simulateMatch random m n).1.
Proof.
  intros [[a Ha] [b Hb]]. rewrite simulateMatch_eq. unfold full. simpl.
  rewrite (proj1 (pickRandom_spec_aux _ _ _ _)), Ha, Hb.
  unfold drawn. destruct (Qlt_le_dec _ _); simpl; eauto.
Qed.

Lemma simulateMatch_not_full random m n :
  ¬ full m → ¬ full (simulateMatch random m n).1.
Proof. rewrite simulateMatch_eq. unfold full. simpl. done. Qed.

Lemma simulateList_realises sides ms n :
  (n + fullCount ms ≤ length sides)%nat →
  outcome <$> filter full (simulateList (tape_of sides) ms n).1
  = zip_with chosen (drop n sides) (filter full ms).
Proof.
  unfold simulateList, fullCount. revert n.
  induction ms as [|m ms IH]; intros n Hn; [by destruct (drop n sides)|].
  rewrite map_st_cons. simpl. rewrite !filter_cons, simulateMatch_cursor.
  rewrite filter_cons in Hn. destruct (decide (full m)) as [Hf|Hf].
  - simpl in Hn.
    destruct (simulateMatch_full (tape_of sides) m n Hf) as [Ho Hf'].
    rewrite decide_True by done.
    destruct (lookup_lt_is_Some_2 sides n) as [s Hs]; [lia|].
    rewrite (drop_S _ _ _ Hs), fmap_cons, Ho, (tape_of_drawn _ _ _ Hs). simpl.
    f_equal. apply IH. lia.
  - rewrite decide_False by by apply simulateMatch_not_full.
    by apply IH.
Qed.

(** The outcomes do not constrain each other: for every choice of a
    side per match with two teams there is a tape (here [tape_of]) on
    which [handleSimulate] gives each of these matches the team of the
    chosen side, so every combination of results can come out. *)
Theorem handleSimulate_realises sides st :
  length sides = fullCount (matches st) →
  outcome <$> filter full (matches (handleSimulate (tape_of sides) st 0).1)
  = zip_with chosen sides (filter full (matches st)).
Proof.
  intros Hl.
  change (matches (handleSimulate (tape_of sides) st 0).1)
    with (matches (handleSimulate (tape_of sides) st 0).1,
          (handleSimulate (tape_of sides) st 0).2).1.
  rewrite handleSimulate_matches.
  by rewrite simulateList_realises by (simpl; lia).
Qed.

Lemma handleSimulate_realises_witness :
  length [PickB; PickA; PickA; PickB] = fullCount (matches initialHome) ∧
  outcome <$> filter full
    (matches (handleSimulate (tape_of [PickB; PickA; PickA; PickB]) initialHome 0).1)
  = zip_with chosen [PickB; PickA; PickA; PickB] (filter full (matches initialHome)).
Proof.
  refine (conj eq_refl _).
  exact (handleSimulate_realises [PickB; PickA; PickA; PickB] initialHome eq_refl).
Defined.

End outcomes.

#[export] Hint Resolve handleSimulate_shaped : js.
