(* ===== verification/View.v ===== *)
(** The view: what [Home] renders of the bracket.  [getCardStateClass]
    (lines 37-44), [getSeedStatus] (lines 46-49), [seedButton] (lines
    64-103: a "TBD" box without handler for an empty slot, else a button
    with its classes, its aria attributes, the [handlePick] call of its
    [onClick] and its [onKeyDown] handler), [champion] (line 235) and the
    seven cards of the JSX (lines 326-477).  Reading a slot of a missing
    match throws, so [render] is partial. *)

From Stdlib Require Import ZArith Lia.
From stdpp Require Import base tactics option list numbers strings.
From S2P Require Import Prelude Style Entrants Bracket.

#[local] Open Scope string_scope.
#[local] Open Scope list_scope.
#[local] Open Scope Z_scope.
#[local] Open Scope js_scope.

(** Lines 37-44: the border of a card after simulation. *)
Definition getCardStateClass (m : option Match) : string :=
  match m with
  | None => ""
  | Some m =>
      match outcome m with
      | None => ""
      | Some o =>
          match winner m with
          | None => "border-white/10"
          | Some w =>
              if decide (team_id w = team_id o)
              then "border-emerald-500/70 ring-1 ring-emerald-500/40"
              else "border-rose-500/70 ring-1 ring-rose-500/40"
          end
      end
  end.

(** ["win" | "lose" | "neutral"]. *)
Inductive SeedStatus := win | lose | neutral.

#[export] Instance SeedStatus_eq_dec : EqDecision SeedStatus.
Proof. solve_decision. Defined.

(** Lines 46-49. *)
Definition getSeedStatus (m : option Match) (team : option Team) : SeedStatus :=
  match m ≫= outcome, team with
  | Some o, Some t => if decide (team_id o = team_id t) then win else lose
  | _, _ => neutral
  end.

(** The arguments of a [handlePick] call. *)
Definition Click : Type := Round * Z * Side.

(** The [<button>] of [seedButton] (lines 85-102), attribute by
    attribute; [type="button"] is constant. *)
Record Button := mkButton {
  className : string;
  onClick : Click;
  ariaPressed : bool;
  ariaLabel : string;
  tabIndex : Z;
  text : string;
}.

(** What [seedButton] returns: the [<div>] of an empty slot with its
    classes and text, or a button. *)
Inductive Seed :=
| Box (className text : string)
| SeedButton (b : Button).

(** Lines 78-83: the tone of a button. *)
Definition tone (status : SeedStatus) : string :=
  match status with
  | win => "bg-emerald-500/20 border-emerald-400/40 text-emerald-100"
  | lose => "bg-rose-500/20 border-rose-400/40 text-rose-100"
  | neutral => ""
  end.

(** Lines 64-103.  The parameters are optional in the source; every call
    passes [isSelected], [onClick] and [status]. *)
Definition seedButton (team : option Team) (isSelected : bool)
    (onClick : Click) (status : SeedStatus) : Seed :=
  match team with
  | None =>
      Box "w-full rounded-md border border-white/10 px-3 py-2 text-left text-sm text-white/40"
        "TBD"
  | Some t =>
      SeedButton
        (mkButton
           (tpl3 buttonBase (tone status)
              (if isSelected then "ring-2 ring-cyan-400/70" else ""))
           onClick isSelected ("Select " +:+ name t) 0 (name t))
  end.

(** What a [keydown] handler did: whether it called [preventDefault], and
    the [handlePick] call it made. *)
Record KeyResult := mkKeyResult {
  defaultPrevented : bool;
  called : option Click;
}.

(** Lines 93-98, [onKeyDown] of a seed button: Enter and the space bar
    prevent the default action and call [onClick]; any other key does
    nothing. *)
Definition onKeyDown (b : Button) (key : string) : KeyResult :=
  if decide (key = "Enter" ∨ key = " ")
  then mkKeyResult true (Some (onClick b))
  else mkKeyResult false None.

(** [m.winner?.id === m.teamX?.id]: also true when both are missing. *)
Definition isSelected (m : Match) (pick : Side) : bool :=
  bool_decide (winner m <?.> team_id = chosen pick m <?.> team_id).

(** One card of the JSX (for example lines 329-345): the classes of the
    card, the title with its classes, the classes of the box around the
    seeds, the two seeds. *)
Record Card := mkCard {
  cardClass : string;
  titleClass : string;
  title : string;
  seedsClass : string;
  seedA : Seed;
  seedB : Seed;
}.

(** The card of match [matchIndex] of a round: [None] when the match is
    missing, because [qf[i].teamA] then throws. *)
Definition card (ttl : string) (round : Round) (matchIndex : Z)
    (m : option Match) : option Card :=
  let cls := tpl2 bracketCard (getCardStateClass m) in
  x ← m;
  Some (mkCard cls roundTitle ttl "mt-2 flex flex-col gap-2"
          (seedButton (teamA x) (isSelected x PickA)
             (round, matchIndex, PickA) (getSeedStatus m (teamA x)))
          (seedButton (teamB x) (isSelected x PickB)
             (round, matchIndex, PickB) (getSeedStatus m (teamB x)))).

(** Line 235. *)
Definition champion (st : Home) : string :=
  (winner (finalMatch st) <?.> name) <??> "TBD".

(** What is rendered of the bracket: the seven cards in the order of the
    JSX, the classes of the empty boxes between the quarterfinal cards
    (lines 347, 367, 387) and between the semifinal cards (line 432), and
    the champion line with its classes (line 475). *)
Record View := mkView {
  cards : list Card;
  spacerClass : string;
  semiSpacerClass : string;
  championClass : string;
  championText : string;
}.

(** Lines 326-477: four quarterfinal cards, two semifinal cards, the final
    card and the champion line. *)
Definition render (st : Home) : option View :=
  c0 ← card "Quarterfinal 1" RoundQF 0 (arr_get (qf st) 0);
  c1 ← card "Quarterfinal 2" RoundQF 1 (arr_get (qf st) 1);
  c2 ← card "Quarterfinal 3" RoundQF 2 (arr_get (qf st) 2);
  c3 ← card "Quarterfinal 4" RoundQF 3 (arr_get (qf st) 3);
  c4 ← card "Semifinal 1" RoundSF 0 (arr_get (sf st) 0);
  c5 ← card "Semifinal 2" RoundSF 1 (arr_get (sf st) 1);
  c6 ← card "Final" RoundF 0 (Some (finalMatch st));
  Some (mkView [c0; c1; c2; c3; c4; c5; c6] "h-8" "h-20 sm:h-24 md:h-28"
          "text-center text-sm text-white/70" ("Champion: " +:+ champion st)).

(** The click of a seed, if it is a button. *)
Definition seedClick (s : Seed) : option Click :=
  match s with Box _ _ => None | SeedButton b => Some (onClick b) end.

(** The [handlePick] calls the buttons of a card can make. *)
Definition cardClicks (c : Card) : list Click :=
  omap seedClick [seedA c; seedB c].

(** The [handlePick] calls the rendered buttons can make. *)
Definition clicks (v : View) : list Click := c ← cards v; cardClicks c.

(** The match a click addresses. *)
Definition clicked (st : Home) (c : Click) : option Match :=
  match c.1.1 with
  | RoundQF => arr_get (qf st) c.1.2
  | RoundSF => arr_get (sf st) c.1.2
  | RoundF => Some (finalMatch st)
  end.

(** The view offers the click: it renders and has a button for it. *)
Definition offered (st : Home) (c : Click) : Prop :=
  ∃ v, render st = Some v ∧ c ∈ clicks v.

#[export] Instance offered_dec st c : Decision (offered st c).
Proof.
  unfold offered. destruct (render st) as [v|].
  - destruct (decide (c ∈ clicks v)); [left; eauto|right; naive_solver].
  - right. naive_solver.
Defined.

(** * Facts *)

Lemma render_shaped st : shaped st → is_Some (render st).
Proof. intros Hsh. shaped_cases st Hsh. by eexists. Qed.

(** The buttons of a card are the slots of its match that hold a team. *)
Lemma elem_of_card_clicks ttl r i m c x :
  card ttl r i (Some m) = Some c →
  (x ∈ cardClicks c ↔ ∃ s, x = (r, i, s) ∧ is_Some (chosen s m)).
Proof.
  intros [= <-]. unfold cardClicks, seedButton. simpl. split.
  - destruct (teamA m) eqn:Ha, (teamB m) eqn:Hb; simpl; intros Hx;
      repeat (apply elem_of_cons in Hx as [->|Hx]);
      try (by apply elem_of_nil in Hx);
      first [exists PickA; simpl; rewrite Ha; by eauto
            |exists PickB; simpl; rewrite Hb; by eauto].
  - intros (s & -> & [t Ht]).
    destruct s; simpl in Ht; rewrite Ht;
      destruct (teamA m), (teamB m); simpl; simplify_eq;
      by first [left|right; left].
Qed.

(** In a well-shaped state the buttons are exactly the slots that hold a
    team, each with its own round, index and side. *)
Lemma offered_shaped st r i s :
  shaped st →
  (offered st (r, i, s) ↔
     ∃ m, clicked st (r, i, s) = Some m ∧ is_Some (chosen s m) ∧
          (r = RoundF → i = 0)).
Proof.
  intros Hsh. shaped_cases st Hsh. unfold offered, render, clicked. simpl.
  split.
  - intros (v & [= <-] & Hv). unfold clicks in Hv. simpl cards in Hv.
    apply list_elem_of_bind in Hv as (c & Hx & Hc).
    repeat (apply elem_of_cons in Hc as [->|Hc]);
      [..|by apply elem_of_nil in Hc];
      (eapply elem_of_card_clicks in Hx as (s' & [= -> -> ->] & Hs'); [|done]);
      eexists; split_and!; done.
  - intros (m & Hm & Ht & Hf). eexists; split; [done|].
    unfold clicks. simpl cards. apply list_elem_of_bind.
    assert (∀ ttl c, card ttl r i (Some m) = Some c → (r, i, s) ∈ cardClicks c)
      as Hc by (intros ttl c Hcard; eapply elem_of_card_clicks; eauto).
    destruct r.
    + pose proof (arr_get_Some_bounds _ _ _ Hm) as Hi. simpl in Hi.
      index_cases i 0 4; vm_compute in Hm; simplify_eq;
        (eexists; split; [by eapply Hc|]); repeat first [apply list_elem_of_here|apply list_elem_of_further].
    + pose proof (arr_get_Some_bounds _ _ _ Hm) as Hi. simpl in Hi.
      index_cases i 0 2; vm_compute in Hm; simplify_eq;
        (eexists; split; [by eapply Hc|]); repeat first [apply list_elem_of_here|apply list_elem_of_further].
    + rewrite (Hf eq_refl) in *. simplify_eq.
      eexists; split; [by eapply Hc|]; repeat first [apply list_elem_of_here|apply list_elem_of_further].
Qed.
