(* ===== verification/Progress.v ===== *)
(** The progress bar and the tooltips of its three checkpoints (lines
    290-324).  The bar's width and the markers' positions are percentages
    computed in floating point, [(points / 18) * 100]; they are modelled as
    such and compared with the rational they round.  What is written in
    the [style] attribute is the number followed by "%"; its decimal text
    is not modelled. *)

From Stdlib Require Import ZArith QArith Qabs Qminmax Lia.
From Stdlib Require Import Floats.PrimFloat.
From stdpp Require Import base tactics option list numbers strings pretty.
From S2P Require Import Prelude Style Number Entrants Bracket Scoring.
From S2P Require Import Simulation.

#[local] Open Scope string_scope.
#[local] Open Scope list_scope.
#[local] Open Scope Z_scope.

(** * The elements *)

(** Lines 303-320, the marker of a checkpoint: its [key], the [left] and
    [marginLeft] of its style, the classes of its dot, the tooltip with
    the classes of its boxes, its image and its two lines of text. *)
Record Marker := mkMarker {
  markerKey : Z;
  markerClass : string;
  styleLeft : float;
  styleMarginLeft : Z;
  dotClass : string;
  tooltipClass : string;
  tooltipRowClass : string;
  imgSrc : string;
  imgAlt : string;
  imgClass : string;
  tooltipTextClass : string;
  nameClass : string;
  nameText : string;
  unlockClass : string;
  unlockText : string;
}.

(** Lines 291-324: the box of the bar, the line with the two texts, the
    track, the filled part with its width and label, the markers and the
    caption. *)
Record ProgressBar := mkProgressBar {
  barClass : string;
  infoClass : string;
  pointsText : string;
  goalsText : string;
  trackClass : string;
  fillClass : string;
  styleWidth : float;
  barLabel : string;
  markers : list Marker;
  captionClass : string;
  caption : string;
}.

(** Lines 303-320, the callback of [checkpoints.map]. *)
Definition marker (points : Z) (cp : Checkpoint) : Marker :=
  mkMarker (cp_points cp)
    "group absolute top-1/2 h-3 w-3 -translate-y-1/2 rounded-full border border-white/30 bg-zinc-900"
    (PrimFloat.mul (PrimFloat.div (of_Z (cp_points cp)) (of_Z 18)) (of_Z 100))
    (-6)
    (tpl2 (if decide (cp_points cp ≤ points) then "bg-emerald-400" else "bg-white/30")
       "h-1.5 w-1.5 rounded-full m-0.75 mx-auto mt-0.75")
    "pointer-events-none absolute left-1/2 top-full z-50 mt-3 hidden -translate-x-1/2 whitespace-normal rounded-lg border border-white/15 bg-zinc-900/95 px-5 py-4 text-sm text-white shadow-2xl backdrop-blur-md group-hover:block min-w-56 max-w-72"
    "flex items-center gap-4"
    (cp_image cp) "prijs"
    (tpl2 (if decide (cp_name cp = "Gold crate") then "h-20 w-20" else "h-16 w-16")
       "rounded-md object-contain")
    "flex flex-col"
    "text-base font-semibold leading-tight"
    (cp_name cp)
    "mt-1 text-xs text-white/80 leading-snug"
    ("Unlock bij " +:+ pretty (cp_points cp) +:+ " punten").

(** Line 299: [Math.min((points / 18) * 100, 100)]. *)
Definition barWidth (points : Z) : float :=
  Math_min (PrimFloat.mul (PrimFloat.div (of_Z points) (of_Z 18)) (of_Z 100))
    (of_Z 100).

(** Lines 291-324. *)
Definition progressBar (st : Home) : ProgressBar :=
  let p := points st in
  mkProgressBar "mx-auto max-w-6xl px-4 pb-3 w-full"
    "mb-1 flex items-center justify-between text-[10px] text-white/70"
    ("Punten: " +:+ pretty p) "Doelen: 6 / 12 / 18"
    "relative h-1.5 w-full rounded-full bg-white/10"
    "absolute left-0 top-0 h-1.5 rounded-full bg-cyan-500"
    (barWidth p)
    ("Progress " +:+ pretty p +:+ " van 18 punten")
    (marker p <$> checkpoints)
    "mt-1 text-[10px] text-white/60"
    "Prijzen bij elk checkpoint gehaald.".

(** * The percentages as rationals *)

(** The share of 18 points that [points] are, in percent, at most 100. *)
Definition barWidthQ (points : Z) : Q :=
  Qmin (inject_Z points / 18 * 100) 100.

(** The place of a threshold on the bar, in percent. *)
Definition markerLeftQ (threshold : Z) : Q := inject_Z threshold / 18 * 100.

(** The rounding error allowed of a percentage: [10^-14]. *)
Definition eps : Q := 1 # 10 ^ 14.

(** The dot of a marker is lit. *)
Definition lit (m : Marker) : Prop := "bg-emerald-400" ∈ classList (dotClass m).

(** The bar reaches the marker. *)
Definition covered (b : ProgressBar) (m : Marker) : Prop :=
  PrimFloat.leb (styleLeft m) (styleWidth b) = true.

#[export] Instance lit_dec m : Decision (lit m).
Proof. unfold lit. apply _. Defined.

#[export] Instance covered_dec b m : Decision (covered b m).
Proof. unfold covered. apply _. Defined.

(** * Facts *)

Section progress.
Implicit Types (st : Home) (p : Z) (cp : Checkpoint) (m : Marker).

(** A decidable property of the total holds in every well-shaped state
    when it holds of the 22 totals from 0 to 21. *)
Lemma points_cases (P : Z → Prop) `{!∀ p, Decision (P p)} st :
  Forall P (seqZ 0 22) → shaped st → P (points st).
Proof.
  intros HP Hsh. eapply Forall_forall; [exact HP|].
  apply elem_of_seqZ. pose proof (points_range st Hsh). lia.
Qed.

(** The dot is lit exactly when the total has reached the threshold. *)
Lemma lit_marker p cp : lit (marker p cp) ↔ cp_points cp ≤ p.
Proof.
  unfold lit, marker. simpl. case_decide as Hp; split; try done.
  - intros _. compute_done.
  - intros Hin%(bool_decide_pack _). by vm_compute in Hin.
Qed.

Lemma points_cases2 (P : Z → Z → Prop) `{!∀ p p', Decision (P p p')} st st' :
  Forall (λ p, Forall (P p) (seqZ 0 22)) (seqZ 0 22) →
  shaped st → shaped st' → P (points st) (points st').
Proof.
  intros HP Hsh Hsh'.
  apply (points_cases (P (points st))); [|done].
  by apply (points_cases (λ p, Forall (P p) (seqZ 0 22))).
Qed.

Lemma elem_of_markers st m :
  m ∈ markers (progressBar st) ↔ ∃ cp, cp ∈ checkpoints ∧ m = marker (points st) cp.
Proof. unfold progressBar. cbn [markers]. rewrite list_elem_of_fmap. naive_solver. Qed.

End progress.

(** * The bar *)

(** The state after one simulation of the initial bracket with draws below
    one half: the four quarterfinals have an outcome, the total is 4. *)
Definition simulated_once : Home :=
  (handleSimulate (λ _, 0%Q) initialHome 0).1.

Lemma simulated_once_shaped : shaped simulated_once.
Proof. apply handleSimulate_shaped, initialHome_shaped. Qed.

(** C30. The width of the bar is the share of 18 points that the total is,
    in percent and at most 100, rounded by the two floating-point
    operations: in a well-shaped state it differs from the rational
    [min (points / 18 * 100) 100] by at most [10^-14]. *)
Theorem barWidth_rounds st :
  shaped st →
  approx eps (styleWidth (progressBar st)) (barWidthQ (points st)).
Proof.
  apply (points_cases (λ p, approx eps (barWidth p) (barWidthQ p))).
  compute_done.
Qed.

Lemma barWidth_rounds_witness :
  shaped simulated_once ∧
  approx eps (styleWidth (progressBar simulated_once))
    (barWidthQ (points simulated_once)).
Proof.
  exact (conj simulated_once_shaped
           (barWidth_rounds simulated_once simulated_once_shaped)).
Defined.

(** The width of the bar is a number between 0 and 100 in every
    well-shaped state, never NaN, and it is exactly 100 when the total
    is 18 or more and only then: rounding neither fills the bar early nor
    leaves it short. *)
Theorem barWidth_bounds st :
  shaped st →
  PrimFloat.leb (of_Z 0) (styleWidth (progressBar st)) = true ∧
  PrimFloat.leb (styleWidth (progressBar st)) (of_Z 100) = true ∧
  (exactly (styleWidth (progressBar st)) 100 ↔ 18 ≤ points st).
Proof.
  apply (points_cases (λ p,
    PrimFloat.leb (of_Z 0) (barWidth p) = true ∧
    PrimFloat.leb (barWidth p) (of_Z 100) = true ∧
    (exactly (barWidth p) 100 ↔ 18 ≤ p))).
  compute_done.
Qed.

Lemma barWidth_bounds_witness :
  shaped simulated_once ∧
  PrimFloat.leb (of_Z 0) (styleWidth (progressBar simulated_once)) = true ∧
  PrimFloat.leb (styleWidth (progressBar simulated_once)) (of_Z 100) = true ∧
  (exactly (styleWidth (progressBar simulated_once)) 100
   ↔ 18 ≤ points simulated_once).
Proof.
  exact (conj simulated_once_shaped
           (barWidth_bounds simulated_once simulated_once_shaped)).
Defined.

(** The dot of a checkpoint is lit exactly when the bar reaches its
    marker: the integer comparison [points >= cp.points] of the dot and the
    floating-point positions of the bar and the marker agree in every
    well-shaped state, and the marker stands at its threshold's share of
    18 points up to rounding. *)
Theorem marker_lit_iff_covered st m :
  shaped st → m ∈ markers (progressBar st) →
  (lit m ↔ covered (progressBar st) m) ∧
  approx eps (styleLeft m) (markerLeftQ (markerKey m)).
Proof.
  intros Hsh (cp & Hcp & ->)%elem_of_markers. revert cp Hcp.
  apply Forall_forall. revert Hsh.
  apply (points_cases (λ p, Forall (λ cp,
    (lit (marker p cp)
     ↔ PrimFloat.leb (styleLeft (marker p cp)) (barWidth p) = true) ∧
    approx eps (styleLeft (marker p cp)) (markerLeftQ (cp_points cp)))
    checkpoints)).
  compute_done.
Qed.

Lemma marker_lit_iff_covered_witness :
  let m := marker (points simulated_once) (mkCheckpoint 6 "Bronze crate" "/bronze-crate.png") in
  shaped simulated_once ∧ m ∈ markers (progressBar simulated_once) ∧
  (lit m ↔ covered (progressBar simulated_once) m) ∧
  approx eps (styleLeft m) (markerLeftQ (markerKey m)).
Proof.
  intros m.
  assert (m ∈ markers (progressBar simulated_once)) as Hm
    by (apply elem_of_markers; eexists; split; [apply list_elem_of_here|done]).
  exact (conj simulated_once_shaped
           (conj Hm (marker_lit_iff_covered _ m simulated_once_shaped Hm))).
Defined.

(** The bar never shrinks when the total grows. *)
Theorem barWidth_monotone st st' :
  shaped st → shaped st' → points st ≤ points st' →
  PrimFloat.leb (styleWidth (progressBar st)) (styleWidth (progressBar st'))
  = true.
Proof.
  apply (points_cases2 (λ p p',
    p ≤ p' → PrimFloat.leb (barWidth p) (barWidth p') = true)).
  compute_done.
Qed.
