(* ===== verification/App.v ===== *)
(** The component as a transition system.  An event is a click on one of
    the buttons the view renders: a seed button (a [handlePick] call), the
    Reset button or the Simuleer button (with the tape of random draws the
    run will see).  A step runs the handler and then the checkpoint effect.
    [well_formed] collects the invariants of the stores: every step keeps
    it, and it is enough for every offered button to work.  The other
    theorems are about every state reachable from the initial one. *)

From Stdlib Require Import ZArith QArith Lia.
From stdpp Require Import base tactics option list numbers strings.
From S2P Require Import Prelude Transition Entrants Bracket Propagation.
From S2P Require Import Scoring Simulation View.

#[local] Open Scope string_scope.
#[local] Open Scope list_scope.
#[local] Open Scope Z_scope.
#[local] Open Scope js_scope.

(** The user's actions. *)
Inductive Event :=
| EvPick (round : Round) (matchIndex : Z) (pick : Side)
| EvReset
| EvSimulate (random : nat → Q).

(** The handler an event runs, when the view offers its button: a seed
    button exists for the slots that hold a team, the two header buttons
    exist whenever the component renders. *)
Definition handle (e : Event) (st : Home) : option Home :=
  match e with
  | EvPick r i s =>
      if decide (offered st (r, i, s)) then handlePick r i s st else None
  | EvReset =>
      if decide (is_Some (render st)) then Some (handleReset st) else None
  | EvSimulate random =>
      if decide (is_Some (render st))
      then Some (handleSimulate random st 0).1 else None
  end.

(** One step: the handler's update is committed, then the effect runs. *)
Definition step (e : Event) (st : Home) : option Home :=
  settle <$> handle e st.

#[export] Instance home_system : System Home Event :=
  {| sys_init := initialHome; sys_step := step |}.

(** * States with the same stores *)

(** Two states are equivalent when they have the same match stores: they
    may differ in [announced] only.  The handlers, the view and the score
    respect this equivalence, and the effect stays inside a class. *)
#[export] Instance Home_equiv : Equiv Home := λ st st',
  qf st = qf st' ∧ sf st = sf st' ∧ finalMatch st = finalMatch st'.

#[export] Instance Home_equivalence : Equivalence (≡@{Home}).
Proof.
  split.
  - by intros st.
  - intros st st' (? & ? & ?). by repeat split.
  - intros st1 st2 st3 (? & ? & ?) (? & ? & ?). repeat split; congruence.
Qed.

Lemma settle_equiv st : settle st ≡ st.
Proof. apply checkpointEffect_stores. Qed.

#[export] Instance shaped_proper : Proper ((≡) ==> iff) shaped.
Proof. intros st st' (Hq & Hs & _). unfold shaped. by rewrite Hq, Hs. Qed.

#[export] Instance matches_proper : Proper ((≡) ==> (=)) matches.
Proof. intros st st' (Hq & Hs & Hf). unfold matches. by rewrite Hq, Hs, Hf. Qed.

#[export] Instance points_proper : Proper ((≡) ==> (=)) points.
Proof. intros st st' (Hq & Hs & Hf). unfold points. by rewrite Hq, Hs, Hf. Qed.

#[export] Instance champion_proper : Proper ((≡) ==> (=)) champion.
Proof. intros st st' (Hq & Hs & Hf). unfold champion. by rewrite Hf. Qed.

#[export] Instance render_proper : Proper ((≡) ==> (=)) render.
Proof. intros [] [] (? & ? & ?). simpl in *. by subst. Qed.

#[export] Instance clicked_proper : Proper ((≡) ==> (=) ==> (=)) clicked.
Proof. intros st st' (Hq & Hs & Hf) c ? <-. unfold clicked. by rewrite Hq, Hs, Hf. Qed.

#[export] Instance offered_proper : Proper ((≡) ==> (=) ==> iff) offered.
Proof.
  intros st st' Hst c ? <-. unfold offered. by rewrite (render_proper _ _ Hst).
Qed.

#[export] Instance handlePick_proper r i s :
  Proper ((≡) ==> (≡)) (handlePick r i s).
Proof.
  intros st st' (Hq & Hs & Hf). unfold handlePick. rewrite Hq, Hs, Hf.
  destruct r; simpl.
  - destruct (qfPickUpdater _ _ _); simpl; [|constructor].
    destruct (sfPropagateUpdater _ _ _ _); simpl; by constructor.
  - destruct (sfPickUpdater _ _ _); simpl; [|constructor].
    destruct (finalPropagateUpdater _ _ _ _); simpl; by constructor.
  - by constructor.
Qed.

#[export] Instance handleSimulate_proper random n :
  Proper ((≡) ==> (≡)) (λ st, (handleSimulate random st n).1).
Proof.
  intros st st' (Hq & Hs & Hf). rewrite !handleSimulate_eq. cbv zeta. simpl.
  by rewrite Hq, Hs, Hf.
Qed.

#[export] Instance handle_proper e : Proper ((≡) ==> (≡)) (handle e).
Proof.
  intros st st' Hst. destruct e; simpl.
  - destruct (decide (offered st _)) as [Ho|Ho].
    + rewrite decide_True by (by rewrite <-Hst). by apply handlePick_proper.
    + rewrite decide_False by (by rewrite <-Hst). constructor.
  - rewrite (render_proper _ _ Hst). case_decide; by constructor.
  - rewrite (render_proper _ _ Hst). case_decide; constructor.
    by apply (handleSimulate_proper random 0).
Qed.

#[export] Instance step_proper e : Proper ((≡) ==> (≡)) (step e).
Proof.
  intros st st' Hst. unfold step.
  destruct (handle_proper e _ _ Hst) as [s s' Hs|]; simpl; constructor.
  by rewrite !settle_equiv.
Qed.

(** * Proving invariants of the stores *)

Section store_invariants.
Implicit Types (st : Home) (P : Home → Prop).

Lemma handle_shaped e st st' : shaped st → handle e st = Some st' → shaped st'.
Proof.
  intros Hsh. destruct e; simpl; case_decide; intros; simplify_eq;
    eauto with js.
Qed.

Lemma reachable_shaped_lemma st : reachable st → shaped st.
Proof.
  apply invariant_reachable. split; [apply initialHome_shaped|].
  intros e s s' Hs Hstep. simpl in Hstep. unfold step in Hstep.
  destruct (handle e s) as [s1|] eqn:Hh; simplify_eq/=.
  rewrite settle_equiv. eauto using handle_shaped.
Qed.

(** Each handler keeps [P] in a well-shaped state. *)
Definition handlers_keep P : Prop :=
  (∀ st r i s st', shaped st → P st → offered st (r, i, s) →
     handlePick r i s st = Some st' → P st') ∧
  (∀ st, shaped st → P st → P (handleReset st)) ∧
  (∀ st random, shaped st → P st → P (handleSimulate random st 0).1).

(** A property of the stores that the handlers keep is kept by every
    step. *)
Lemma step_keeps P `{!Proper ((≡) ==> iff) P} e st st' :
  handlers_keep P → shaped st → P st → step e st = Some st' → P st'.
Proof.
  intros (Hp & Hr & Hs) Hsh HP Hstep. unfold step in Hstep.
  destruct (handle e st) as [s1|] eqn:Hh; simplify_eq/=.
  rewrite settle_equiv.
  destruct e; simpl in Hh; case_decide; simplify_eq; eauto.
Qed.

(** The induction principle for a property of the stores: it holds
    initially and each handler keeps it in a well-shaped state. *)
Lemma store_invariant P `{!Proper ((≡) ==> iff) P} :
  P initialHome → handlers_keep P → ∀ st, reachable st → P st.
Proof.
  intros H0 Hk.
  apply (invariant_under shaped); [apply reachable_shaped_lemma|done|].
  intros e s s' Hsh HP Hstep. by eapply (step_keeps P).
Qed.

End store_invariants.
(** * The invariants *)

(** The bracket is wired: each semifinal slot holds the pick of the
    quarterfinal that feeds it, each slot of the final is empty or holds
    the pick of its semifinal, and every pick is an occupant of its match
    (or absent). *)
Definition wired (st : Home) : Prop :=
  match qf st, sf st with
  | [Some q0; Some q1; Some q2; Some q3], [Some s0; Some s1] =>
      let fm := finalMatch st in
      teamA s0 = winner q0 ∧ teamB s0 = winner q1 ∧
      teamA s1 = winner q2 ∧ teamB s1 = winner q3 ∧
      (teamA fm = None ∨ teamA fm = winner s0) ∧
      (teamB fm = None ∨ teamB fm = winner s1) ∧
      Forall (λ m, occupant_or_none (winner m) m) (matches st)
  | _, _ => False
  end.

(** The quarterfinals are the initial pairing and every match has its
    [id]. *)
Definition seeding (st : Home) : Prop :=
  slots (qf st) = slots initialQf ∧
  match_id <$> matches st = ["QF1"; "QF2"; "QF3"; "QF4"; "SF1"; "SF2"; "F"].

(** The outcomes of the quarterfinals and of the final are occupants of
    their match (or absent). *)
Definition outcomes_valid (st : Home) : Prop :=
  Forall (λ m, occupant_or_none (outcome m) m)
    (omap id (qf st) ++ [finalMatch st]).

(** An optional team is absent or one of the eight entrants. *)
Definition known (o : option Team) : Prop := from_option is_entrant True o.

(** Every team a match mentions is an entrant. *)
Definition entrants_match (m : Match) : Prop :=
  known (teamA m) ∧ known (teamB m) ∧ known (winner m) ∧ known (outcome m).

Definition entrants_only (st : Home) : Prop :=
  Forall entrants_match (matches st).

(** The optional team is absent or has one of the identifiers. *)
Definition ids_in (ids : list Z) (o : option Team) : Prop :=
  from_option (λ t, team_id t ∈ ids) True o.

#[export] Instance ids_in_dec ids o : Decision (ids_in ids o).
Proof. unfold ids_in. destruct o; simpl; apply _. Defined.

(** The identifiers that can come to slot A and to slot B of each match,
    in the order of [matches]: the entrants of the two subtrees. *)
Definition regions : list (list Z * list Z) :=
  [ ([1], [2]); ([3], [4]); ([5], [6]); ([7], [8]);
    ([1; 2], [3; 4]); ([5; 6], [7; 8]);
    ([1; 2; 3; 4], [5; 6; 7; 8]) ].

(** Every slot holds a team of its own subtree, or nothing. *)
Definition placed (st : Home) : Prop :=
  Forall2 (λ m r, ids_in r.1 (teamA m) ∧ ids_in r.2 (teamB m))
    (matches st) regions.

(** The announcements are an initial part of 6, 12, 18, and every
    threshold the total has reached is announced. *)
Definition announced_ok (st : Home) : Prop :=
  announced st `prefix_of` thresholds ∧
  newlyReached (points st) (announced st) = [].

(** The stores are well formed: the shape, the wiring, the seeding, the
    outcomes and the teams, together. *)
Definition well_formed (st : Home) : Prop :=
  shaped st ∧ wired st ∧ seeding st ∧ outcomes_valid st ∧ entrants_only st.

#[export] Instance wired_dec st : Decision (wired st).
Proof.
  unfold wired.
  destruct (qf st) as [|[] [|[] [|[] [|[] []]]]], (sf st) as [|[] [|[] []]];
    apply _.
Defined.

#[export] Instance known_dec o : Decision (known o).
Proof. destruct o; apply _. Defined.

#[export] Instance well_formed_dec st : Decision (well_formed st).
Proof.
  unfold well_formed, seeding, outcomes_valid, entrants_only, entrants_match.
  apply _.
Defined.

(** The alerts a step shows. *)
Definition shown (e : Event) (st : Home) : list string :=
  from_option (λ s, (checkpointEffect s).1) [] (handle e st).

(** Take [Forall] over an explicit list apart, in the goal and the context. *)
Ltac forall_cons :=
  repeat match goal with
  | H : Forall _ (_ :: _) |- _ => apply Forall_cons in H as [? H]
  | H : Forall _ [] |- _ => clear H
  | |- Forall _ (_ :: _) => apply Forall_cons; split
  | |- Forall _ [] => by apply Forall_nil
  end.

(** The result of a simulation in a well-shaped state, by its matches. *)
Ltac simulate_cases s random Hsh :=
  shaped_cases s Hsh;
  match goal with
  | |- context [handleSimulate random (mkHome [Some ?q0; Some ?q1; Some ?q2; Some ?q3]
                                          [Some ?s0; Some ?s1] ?fm ?ann) ?n] =>
      destruct (handleSimulate_shaped_eq random q0 q1 q2 q3 s0 s1 fm ann n)
        as (? & ? & ? & ? & ? & ? & ? & -> & ? & ? & ? & ? & ? & ? & ?)
  end.

Section invariants.
Implicit Types (st : Home) (m : Match).

#[export] Instance wired_proper : Proper ((≡) ==> iff) wired.
Proof. intros st st' (Hq & Hs & Hf). unfold wired, matches. by rewrite Hq, Hs, Hf. Qed.

#[export] Instance seeding_proper : Proper ((≡) ==> iff) seeding.
Proof. intros st st' (Hq & Hs & Hf). unfold seeding, matches. by rewrite Hq, Hs, Hf. Qed.

#[export] Instance outcomes_valid_proper : Proper ((≡) ==> iff) outcomes_valid.
Proof. intros st st' (Hq & Hs & Hf). unfold outcomes_valid. by rewrite Hq, Hf. Qed.

#[export] Instance entrants_only_proper : Proper ((≡) ==> iff) entrants_only.
Proof.
  intros st st' (Hq & Hs & Hf). unfold entrants_only, matches. by rewrite Hq, Hs, Hf.
Qed.

(** Each handler keeps the bracket wired. *)
Lemma wired_kept : handlers_keep wired.
Proof.
  split_and!.
  - intros s r i p s' Hsh Hw _ Hp.
    pick_cases s r i p Hsh Hp; unfold wired, matches in *; simpl in *;
      destruct Hw as (? & ? & ? & ? & ? & ? & Hw);
      forall_cons; unfold occupant_or_none in *; simpl in *;
      split_and!; forall_cons; simpl; eauto.
  - intros s _ _. unfold wired, matches. simpl. unfold occupant_or_none. simpl.
    split_and!; forall_cons; eauto.
  - intros s random Hsh Hw. simulate_cases s random Hsh.
    unfold wired, matches in *; simpl in *.
    destruct Hw as (? & ? & ? & ? & ? & ? & Hw).
    forall_cons; split_and!; forall_cons; eauto.
Qed.

Lemma wired_reachable st : reachable st → wired st.
Proof. apply (store_invariant wired); [compute_done|apply wired_kept]. Qed.

(** No handler moves a quarterfinal team or renames a match. *)
Lemma seeding_kept : handlers_keep seeding.
Proof.
  split_and!.
  - intros s r i p s' Hsh [Hsl Hid] _ Hp.
    pick_cases s r i p Hsh Hp; unfold seeding, matches, slots in *;
      simpl in *; simplify_eq; done.
  - done.
  - intros s random Hsh [Hsl Hid]. by simulate_cases s random Hsh.
Qed.

Lemma seeding_reachable st : reachable st → seeding st.
Proof. apply (store_invariant seeding); [done|apply seeding_kept]. Qed.

Lemma may_draw_occupant m o : may_draw m o → occupant_or_none o (set_outcome o m).
Proof.
  unfold may_draw, occupant_or_none. simpl.
  destruct (teamA m), (teamB m); naive_solver.
Qed.

(** The outcomes of the quarterfinals and of the final stay occupants:
    only a simulation writes them, and no handler changes the slots of a
    quarterfinal or writes a slot of the final without clearing the
    outcome. *)
Lemma outcomes_valid_kept : handlers_keep outcomes_valid.
Proof.
  split_and!.
  - intros s r i p s' Hsh Ho _ Hp.
    pick_cases s r i p Hsh Hp; unfold outcomes_valid, occupant_or_none in *;
      simpl in *; forall_cons; simpl; eauto.
  - intros s _ _. unfold outcomes_valid, occupant_or_none. simpl.
    forall_cons; eauto.
  - intros s random Hsh _. simulate_cases s random Hsh.
    unfold outcomes_valid. simpl. forall_cons; by apply may_draw_occupant.
Qed.

Lemma outcomes_valid_reachable st : reachable st → outcomes_valid st.
Proof.
  apply (store_invariant outcomes_valid); [compute_done|].
  apply outcomes_valid_kept.
Qed.

Lemma entrants_set_outcome m o :
  may_draw m o → entrants_match m → entrants_match (set_outcome o m).
Proof.
  unfold may_draw, entrants_match. simpl.
  destruct (teamA m), (teamB m); naive_solver.
Qed.

Lemma initial_entrants_only : entrants_only initialHome.
Proof.
  unfold entrants_only, entrants_match, matches. simpl.
  forall_cons; split_and!; simpl; try done; compute_done.
Qed.

Lemma entrants_only_kept : handlers_keep entrants_only.
Proof.
  split_and!.
  - intros s r i p s' Hsh He _ Hp.
    pick_cases s r i p Hsh Hp; unfold entrants_only, entrants_match, matches in *;
      simpl in *; forall_cons; simpl; naive_solver.
  - intros s _ _. apply initial_entrants_only.
  - intros s random Hsh He. simulate_cases s random Hsh.
    unfold entrants_only, matches in *. simpl in *.
    forall_cons; by apply entrants_set_outcome.
Qed.

Lemma entrants_only_reachable st : reachable st → entrants_only st.
Proof.
  apply (store_invariant entrants_only);
    [apply initial_entrants_only|apply entrants_only_kept].
Qed.

Lemma handle_announced e st st' :
  handle e st = Some st' → announced st' = announced st.
Proof.
  destruct e; simpl; case_decide; intros Hh; simplify_eq; try done.
  - destruct round.
    + by apply handlePick_qf_inv in Hh as (? & _ & _ & _ & _ & ?).
    + by apply handlePick_sf_inv in Hh as (? & _ & _ & _ & _ & ?).
    + by simplify_eq/=.
  - apply handleSimulate_stores.
Qed.

Lemma prefix_thresholds_cases (ann : list Z) :
  ann `prefix_of` thresholds →
  ann = [] ∨ ann = [6] ∨ ann = [6; 12] ∨ ann = [6; 12; 18].
Proof.
  rewrite thresholds_eq. intros [k Hk].
  destruct ann as [|a [|b [|c [|d ann]]]]; simplify_eq/=; eauto.
Qed.

(** Announcing what is newly reached keeps the announcements an initial
    part of the thresholds: the thresholds ascend, so what is reached and
    not yet announced comes next. *)
Lemma newlyReached_prefix pts ann :
  ann `prefix_of` thresholds → (ann ++ newlyReached pts ann) `prefix_of` thresholds.
Proof.
  intros Hp. rewrite newlyReached_filter, thresholds_eq.
  destruct (decide (6 ≤ pts)), (decide (12 ≤ pts)), (decide (18 ≤ pts));
    try lia;
    destruct (prefix_thresholds_cases ann Hp) as [->|[->|[->| ->]]];
    rewrite !filter_cons, filter_nil;
    repeat match goal with
    | |- context [decide (?p ≤ pts ∧ ?p ∉ ?l)] =>
        first
          [ rewrite (decide_True (P := p ≤ pts ∧ p ∉ l))
              by (split; [lia|compute_done])
          | rewrite (decide_False (P := p ≤ pts ∧ p ∉ l))
              by (intros [H1 H2]; first [lia|apply H2; compute_done]) ]
    end;
    simpl; by eexists.
Qed.

Lemma announced_ok_reachable st : reachable st → announced_ok st.
Proof.
  apply invariant_reachable. split.
  - split; [by eexists|done].
  - intros e s s' [Hp _] Hstep. simpl in Hstep. unfold step in Hstep.
    destruct (handle e s) as [s1|] eqn:Hh; simplify_eq/=.
    apply handle_announced in Hh. split; [|apply settle_settled].
    unfold settle. rewrite checkpointEffect_announced, Hh.
    by apply newlyReached_prefix.
Qed.

Lemma ids_in_occupant (w a b : option Team) (A B : list Z) :
  w = None ∨ w = a ∨ w = b → ids_in A a → ids_in B b → ids_in (A ++ B) w.
Proof.
  unfold ids_in. intros [->|[->| ->]]; [done|..];
    destruct a, b; simpl; rewrite ?elem_of_app; auto.
Qed.

Lemma ids_in_or (w a : option Team) (A : list Z) :
  w = None ∨ w = a → ids_in A a → ids_in A w.
Proof. by intros [->| ->]. Qed.

(** A team stays in its own part of the bracket: the slots of a match
    are filled from the picks of the two matches that feed it. *)
Lemma placed_reachable st : reachable st → placed st.
Proof.
  intros Hr. pose proof (reachable_shaped_lemma st Hr) as Hsh.
  pose proof (wired_reachable st Hr) as Hw.
  destruct (seeding_reachable st Hr) as [Hsl _].
  shaped_cases st Hsh. unfold wired, matches, slots in *. simpl in *.
  destruct Hw as (Ha0 & Hb0 & Ha1 & Hb1 & Hfa & Hfb & Hw).
  rewrite !Forall_cons in Hw.
  destruct Hw as (Hq0 & Hq1 & Hq2 & Hq3 & Hs0 & Hs1 & _).
  injection Hsl as Ht0a Ht0b Ht1a Ht1b Ht2a Ht2b Ht3a Ht3b.
  unfold occupant_or_none in *.
  assert (ids_in [1] (teamA q0) ∧ ids_in [2] (teamB q0) ∧
          ids_in [3] (teamA q1) ∧ ids_in [4] (teamB q1) ∧
          ids_in [5] (teamA q2) ∧ ids_in [6] (teamB q2) ∧
          ids_in [7] (teamA q3) ∧ ids_in [8] (teamB q3))
    as (?&?&?&?&?&?&?&?)
    by (rewrite Ht0a, Ht0b, Ht1a, Ht1b, Ht2a, Ht2b, Ht3a, Ht3b; compute_done).
  assert (ids_in [1; 2] (teamA s0) ∧ ids_in [3; 4] (teamB s0) ∧
          ids_in [5; 6] (teamA s1) ∧ ids_in [7; 8] (teamB s1))
    as (?&?&?&?)
    by (rewrite Ha0, Hb0, Ha1, Hb1; split_and!;
        by eapply (ids_in_occupant _ _ _ [_] [_])).
  unfold placed, regions. simpl.
  repeat (apply Forall2_cons; split; [done|]).
  apply Forall2_cons. split; [|constructor]. split; simpl.
  - eapply ids_in_or; [done|]. by eapply (ids_in_occupant _ _ _ [_; _] [_; _]).
  - eapply ids_in_or; [done|]. by eapply (ids_in_occupant _ _ _ [_; _] [_; _]).
Qed.

(** The two teams of a match differ. *)
Lemma placed_opponents st m a b :
  placed st → m ∈ matches st → teamA m = Some a → teamB m = Some b →
  team_id a ≠ team_id b.
Proof.
  intros Hp [k Hk]%list_elem_of_lookup Ha Hb Hid.
  destruct (Forall2_lookup_l _ _ _ _ _ Hp Hk) as ([A B] & Hr & HA & HB).
  rewrite Ha in HA. rewrite Hb in HB. simpl in *. rewrite <-Hid in HB.
  assert (Forall (λ r, Forall (λ x, x ∉ r.2) r.1) regions) as Hd by compute_done.
  rewrite Forall_forall in Hd. apply list_elem_of_lookup_2 in Hr.
  specialize (Hd _ Hr). rewrite Forall_forall in Hd. by apply (Hd _ HA).
Qed.

Lemma clicked_store st r i s :
  r ≠ RoundF → clicked st (r, i, s) = arr_get (store r st) i.
Proof. by destruct r. Qed.

(** The match a pick was made in, after the pick. *)
Lemma handlePick_clicked st r i s st' :
  handlePick r i s st = Some st' →
  ∃ m, clicked st (r, i, s) = Some m ∧
       clicked st' (r, i, s) = Some (set_winner (chosen s m) m).
Proof.
  destruct r; unfold clicked; simpl.
  - intros (m & Hm & -> & _)%handlePick_qf_inv. exists m.
    pose proof (arr_get_Some_bounds _ _ _ Hm). by autorewrite with js.
  - intros (m & Hm & _ & -> & _)%handlePick_sf_inv. exists m.
    pose proof (arr_get_Some_bounds _ _ _ Hm). by autorewrite with js.
  - intros [= <-]. by eexists.
Qed.

Lemma offered_handle st r i s :
  shaped st → offered st (r, i, s) → is_Some (handle (EvPick r i s) st).
Proof.
  intros Hsh Hoff. simpl. rewrite decide_True by done.
  apply not_eq_None_Some. rewrite handlePick_crash_iff. intros [Hr Hn].
  apply (offered_shaped st r i s Hsh) in Hoff as (m & Hm & _).
  rewrite clicked_store in Hm by done. congruence.
Qed.

(** States with the same stores and the same announcements are equal. *)
Lemma Home_eq (st st' : Home) : st ≡ st' → announced st = announced st' → st = st'.
Proof. destruct st, st'. intros (? & ? & ?) ?. simpl in *. by subst. Qed.

(** A handler that has run changes nothing when it runs again. *)
Lemma handle_idempotent e st st1 :
  shaped st → handle e st = Some st1 → handle e st1 = Some st1.
Proof.
  intros Hsh Hh. pose proof (handle_shaped e st st1 Hsh Hh) as Hsh1.
  pose proof (render_shaped st1 Hsh1) as Hr1.
  destruct e as [r i s| |random]; simpl in *; case_decide as Hoff; simplify_eq.
  - rewrite decide_True; [by eapply handlePick_idempotent|].
    apply (offered_shaped st r i s Hsh) in Hoff as (m & Hm & Ht & Hf).
    destruct (handlePick_clicked st r i s st1 Hh) as (m' & Hm' & Hc).
    apply offered_shaped; [done|]. eexists. split; [done|].
    assert (m' = m) as -> by congruence. by rewrite chosen_set_winner.
  - by rewrite decide_True.
  - rewrite decide_True by done. by rewrite handleSimulate_overwrites.
Qed.

(** A step that has been taken changes nothing when it is taken again. *)
Lemma step_idempotent e st st' :
  shaped st → step e st = Some st' → step e st' = Some st'.
Proof.
  intros Hsh Hstep. unfold step in *.
  destruct (handle e st) as [st1|] eqn:Hh; simplify_eq/=.
  pose proof (handle_idempotent e st st1 Hsh Hh) as Hh1.
  pose proof (handle_proper e _ _ (settle_equiv st1)) as Hp.
  rewrite Hh1 in Hp. inversion Hp as [s2 s1 Heq Hs2 Hs1|]. subst s1.
  simpl. f_equal.
  assert (announced s2 = announced (settle st1)) as Ha
    by (by eapply handle_announced).
  assert (s2 = settle st1) as ->
    by (apply Home_eq; [by rewrite settle_equiv|done]).
  unfold settle at 1. by rewrite checkpointEffect_settled by apply settle_settled.
Qed.

End invariants.

(** * Concrete runs *)

(** The user picks slot A in every match, in round order. *)
Definition pickAllA : list Event :=
  [ EvPick RoundQF 0 PickA; EvPick RoundQF 1 PickA; EvPick RoundQF 2 PickA;
    EvPick RoundQF 3 PickA; EvPick RoundSF 0 PickA; EvPick RoundSF 1 PickA;
    EvPick RoundF 0 PickA ].

(** The state a run of events ends in, from the initial state. *)
Definition state_after (es : list Event) : option Home := run es initialHome.

Lemma state_after_reachable es st : state_after es = Some st → reachable st.
Proof. intros Hr. apply reachable_run. by exists es. Qed.

(** The same, ignoring the events from the first one that is not offered
    on: the concrete states of the examples. *)
Definition after (es : list Event) : Home := state_after es <??> initialHome.

Lemma after_reachable es : reachable (after es).
Proof. exact (after_run_reachable (sys:=home_system) es). Qed.

(** * Every reachable state *)

(** C11. Well-formedness is kept and is enough to go on: a step from a
    well-formed state ends in a well-formed state, whatever the state was
    reached by, and in a well-formed state every button the view offers,
    Reset and Simuleer carry out their handler. *)
Theorem step_well_formed st :
  well_formed st →
  (∀ e st', step e st = Some st' → well_formed st') ∧
  (∀ e, (∀ r i s, e = EvPick r i s → offered st (r, i, s)) →
     is_Some (step e st)).
Proof.
  intros (Hsh & Hw & Hs & Ho & He). split.
  - intros e st' Hstep. split_and!.
    + unfold step in Hstep. destruct (handle e st) eqn:Hh; simplify_eq/=.
      rewrite settle_equiv. eauto using handle_shaped.
    + eapply (step_keeps wired); eauto using wired_kept.
    + eapply (step_keeps seeding); eauto using seeding_kept.
    + eapply (step_keeps outcomes_valid); eauto using outcomes_valid_kept.
    + eapply (step_keeps entrants_only); eauto using entrants_only_kept.
  - intros e Hoff. unfold step. apply fmap_is_Some.
    pose proof (render_shaped st Hsh).
    destruct e as [r i s| |random]; [by apply offered_handle; eauto|..];
      simpl; by rewrite decide_True.
Qed.

Lemma step_well_formed_witness :
  let st := after [EvPick RoundQF 2 PickB; EvSimulate (λ _, 0%Q)] in
  well_formed st ∧
  (∀ e st', step e st = Some st' → well_formed st') ∧
  (∀ e, (∀ r i s, e = EvPick r i s → offered st (r, i, s)) →
     is_Some (step e st)).
Proof.
  intros st. assert (well_formed st) as Hwf by compute_done.
  exact (conj Hwf (step_well_formed st Hwf)).
Defined.

(** The buttons never throw: every reachable state has four
    quarterfinals and two semifinals, so it renders; every seed button the
    view offers carries out its pick, and so do Reset and Simuleer. *)
Theorem reachable_never_throws st :
  reachable (sys:=home_system) st →
  shaped st ∧ is_Some (render st) ∧
  (∀ r i s, offered st (r, i, s) → is_Some (step (EvPick r i s) st)) ∧
  is_Some (step EvReset st) ∧
  (∀ random, is_Some (step (EvSimulate random) st)).
Proof.
  intros Hsh%reachable_shaped_lemma.
  pose proof (render_shaped st Hsh) as Hr. split_and!; [done|done|..].
  - intros r i s Hoff. simpl. unfold step.
    destruct (offered_handle st r i s Hsh Hoff) as [s' ->]. by eexists.
  - simpl. unfold step. simpl. rewrite decide_True by done. by eexists.
  - intros random. simpl. unfold step. simpl. rewrite decide_True by done.
    by eexists.
Qed.

Lemma reachable_never_throws_witness :
  let st := after [EvPick RoundQF 0 PickA; EvPick RoundSF 0 PickA] in
  reachable st ∧
  shaped st ∧ is_Some (render st) ∧
  (∀ r i s, offered st (r, i, s) → is_Some (step (EvPick r i s) st)) ∧
  is_Some (step EvReset st) ∧
  (∀ random, is_Some (step (EvSimulate random) st)).
Proof.
  intros st.
  exact (conj (after_reachable _) (reachable_never_throws st (after_reachable _))).
Defined.

(** C14. In every reachable state the bracket is wired.  For every
    quarterfinal [i]: semifinal [i / 2] holds the quarterfinal's pick in
    slot A when [i] is even and in slot B when it is odd; the slot of the
    final that this semifinal feeds is empty or holds the semifinal's pick;
    and the pick of each of the three matches is one of its occupants or
    absent. *)
Theorem reachable_wired st i q :
  reachable (sys:=home_system) st → arr_get (qf st) i = Some q →
  ∃ t, arr_get (sf st) (i / 2) = Some t ∧
    chosen (slotOf (bool_decide (i mod 2 = 0))) t = winner q ∧
    (let f := chosen (slotOf (bool_decide (i / 2 = 0))) (finalMatch st) in
     f = None ∨ f = winner t) ∧
    Forall (λ m, occupant_or_none (winner m) m) [q; t; finalMatch st].
Proof.
  intros Hr Hq. pose proof (reachable_shaped_lemma st Hr) as Hsh.
  apply wired_reachable in Hr as Hw.
  pose proof (arr_get_Some_bounds _ _ _ Hq) as Hi.
  shaped_cases st Hsh. unfold wired, matches in Hw. simpl in *.
  destruct Hw as (? & ? & ? & ? & ? & ? & Hw). forall_cons.
  index_cases i 0 4; vm_compute in Hq; simplify_eq;
    eexists; (split; [reflexivity|]); simpl; split_and!; forall_cons; done.
Qed.

Lemma reachable_wired_witness :
  let st := after [EvPick RoundQF 1 PickB; EvPick RoundSF 0 PickB] in
  let q := set_winner (arr_get initialTeams 3) (seeded "QF2" 2 3) in
  reachable st ∧ arr_get (qf st) 1 = Some q ∧
  ∃ t, arr_get (sf st) (1 / 2) = Some t ∧
    chosen (slotOf (bool_decide (1 mod 2 = 0))) t = winner q ∧
    (let f := chosen (slotOf (bool_decide (1 / 2 = 0))) (finalMatch st) in
     f = None ∨ f = winner t) ∧
    Forall (λ m, occupant_or_none (winner m) m) [q; t; finalMatch st].
Proof.
  intros st q. refine (conj (after_reachable _) (conj eq_refl _)).
  exact (reachable_wired st 1 q (after_reachable _) eq_refl).
Defined.

(** C16. A handler of an earlier render.  The updaters that propagate a
    pick read the source match from the closure of the render that
    created the handler.  Called in a later reachable state, the handler
    of a reachable render does what the current handler does exactly when
    it is not a semifinal handler, or the semifinal slot it picks holds
    the same team in both renders: a quarterfinal handler reads the two
    teams of its quarterfinal, which never change, and the final's handler
    reads no closure. *)
Theorem closure_render_age st0 st round i pick :
  reachable (sys:=home_system) st0 → reachable (sys:=home_system) st →
  (handlePickFrom (qf st0) (sf st0) round i pick st = handlePick round i pick st
   ↔ (round = RoundSF →
      chosen pick <$> arr_get (sf st0) i = chosen pick <$> arr_get (sf st) i)).
Proof.
  intros Hr0 Hr.
  pose proof (reachable_shaped_lemma _ Hr0) as Hsh0.
  pose proof (reachable_shaped_lemma _ Hr) as Hsh.
  destruct round.
  - split; [done|]. intros _.
    destruct (seeding_reachable _ Hr0) as [H0 _].
    destruct (seeding_reachable _ Hr) as [H _].
    apply handlePickFrom_qf. by rewrite H0, H.
  - destruct (decide (0 ≤ i < 2)) as [Hi|Hi].
    + rewrite handlePickFrom_sf; [naive_solver|..].
      * exact (proj2 (shaped_store_get RoundSF i st0 Hsh0 ltac:(done)) Hi).
      * exact (proj2 (shaped_store_get RoundSF i st Hsh ltac:(done)) Hi).
    + assert (arr_get (sf st0) i = None ∧ arr_get (sf st) i = None) as [H0 H].
      { shaped_cases st0 Hsh0. shaped_cases st Hsh.
        split; (destruct (decide (i < 0));
                [by apply arr_get_neg|apply arr_get_ge; simpl; lia]). }
      rewrite H0, H. unfold handlePickFrom, handlePick, sfPickUpdater.
      rewrite H. naive_solver.
  - by split.
Qed.

Lemma closure_render_age_witness :
  let st0 := after [EvPick RoundQF 0 PickA; EvPick RoundQF 1 PickA] in
  let st := after [EvPick RoundQF 0 PickA; EvPick RoundQF 1 PickA;
                   EvPick RoundQF 0 PickB] in
  reachable st0 ∧ reachable st ∧
  handlePickFrom (qf st0) (sf st0) RoundSF 0 PickA st
    ≠ handlePick RoundSF 0 PickA st ∧
  (handlePickFrom (qf st0) (sf st0) RoundSF 0 PickA st
     = handlePick RoundSF 0 PickA st
   ↔ (RoundSF = RoundSF →
      chosen PickA <$> arr_get (sf st0) 0 = chosen PickA <$> arr_get (sf st) 0)).
Proof.
  intros st0 st.
  assert (handlePickFrom (qf st0) (sf st0) RoundSF 0 PickA st
            ≠ handlePick RoundSF 0 PickA st) as Hne by done.
  exact (conj (after_reachable _) (conj (after_reachable _) (conj Hne
           (closure_render_age st0 st RoundSF 0 PickA
              (after_reachable _) (after_reachable _))))).
Defined.

(** In every reachable state quarterfinal [i] holds the entrants
    [2i] and [2i+1] of [initialTeams], and the seven matches have their
    [id]s: no handler moves a quarterfinal team or renames a match. *)
Theorem reachable_seeding st i :
  reachable (sys:=home_system) st → 0 ≤ i < 4 →
  (∃ q, arr_get (qf st) i = Some q ∧
     teamA q = arr_get initialTeams (2 * i) ∧
     teamB q = arr_get initialTeams (2 * i + 1)) ∧
  match_id <$> matches st = ["QF1"; "QF2"; "QF3"; "QF4"; "SF1"; "SF2"; "F"].
Proof.
  intros Hr Hi. pose proof (reachable_shaped_lemma st Hr) as Hsh.
  apply seeding_reachable in Hr as [Hs Hid]. split; [|done].
  shaped_cases st Hsh. destruct q0, q1, q2, q3.
  unfold slots in Hs. simpl in Hs. simplify_eq.
  index_cases i 0 4; by eexists.
Qed.

Lemma reachable_seeding_witness :
  let st := after [EvPick RoundQF 2 PickA; EvSimulate (tape_of [PickB])] in
  reachable st ∧ 0 ≤ 2 < 4 ∧
  (∃ q, arr_get (qf st) 2 = Some q ∧
     teamA q = arr_get initialTeams (2 * 2) ∧
     teamB q = arr_get initialTeams (2 * 2 + 1)) ∧
  match_id <$> matches st = ["QF1"; "QF2"; "QF3"; "QF4"; "SF1"; "SF2"; "F"].
Proof.
  intros st. assert (0 ≤ 2 < 4) as Hi by lia.
  exact (conj (after_reachable _) (conj Hi
           (reachable_seeding st 2 (after_reachable _) Hi))).
Defined.

(** C25. In every reachable state the outcome of a quarterfinal and the
    outcome of the final is one of the match's occupants or absent.  (A
    semifinal is not in the list: see [stale_semifinal_outcome].) *)
Theorem reachable_outcomes_valid st m :
  reachable (sys:=home_system) st →
  m ∈ omap id (qf st) ++ [finalMatch st] →
  outcome m = None ∨ outcome m = teamA m ∨ outcome m = teamB m.
Proof.
  intros Ho%outcomes_valid_reachable Hm. unfold outcomes_valid in Ho.
  rewrite Forall_forall in Ho. by apply Ho.
Qed.

Lemma reachable_outcomes_valid_witness :
  let st := after [EvSimulate (tape_of [PickB]); EvPick RoundQF 0 PickA] in
  let m := mkMatch "QF1" (arr_get initialTeams 0) (arr_get initialTeams 1)
             (arr_get initialTeams 0) (arr_get initialTeams 1) in
  reachable st ∧ m ∈ omap id (qf st) ++ [finalMatch st] ∧
  (outcome m = None ∨ outcome m = teamA m ∨ outcome m = teamB m).
Proof.
  intros st m.
  assert (m ∈ omap id (qf st) ++ [finalMatch st]) as Hm by (by left).
  exact (conj (after_reachable _) (conj Hm
           (reachable_outcomes_valid st m (after_reachable _) Hm))).
Defined.

Lemma occupant_source (w a b x y : option Team) t :
  w = Some t → w = None ∨ w = a ∨ w = b →
  a = None ∨ a = x → b = None ∨ b = y → x = Some t ∨ y = Some t.
Proof. naive_solver. Qed.

(** C26. The champion won its way through the bracket: when the final has a
    pick in a reachable state, the champion line shows that team, the team
    is one of the eight entrants, and it is the pick of a quarterfinal and
    of the semifinal this quarterfinal feeds. *)
Theorem champion_path st t :
  reachable (sys:=home_system) st → winner (finalMatch st) = Some t →
  champion st = name t ∧ is_entrant t ∧
  ∃ i q s, arr_get (qf st) i = Some q ∧ arr_get (sf st) (i / 2) = Some s ∧
    winner q = Some t ∧ winner s = Some t.
Proof.
  intros Hr Ht. pose proof (reachable_shaped_lemma st Hr) as Hsh.
  pose proof (wired_reachable st Hr) as Hw.
  pose proof (entrants_only_reachable st Hr) as He.
  unfold champion. rewrite Ht. split; [done|]. split.
  { unfold entrants_only in He. rewrite Forall_forall in He.
    destruct (He (finalMatch st)) as (_ & _ & Hk & _); [|by rewrite Ht in Hk].
    unfold matches. rewrite !elem_of_app, list_elem_of_singleton. auto. }
  clear He. shaped_cases st Hsh. unfold wired, matches in Hw. simpl in *.
  destruct Hw as (Ha0 & Hb0 & Ha1 & Hb1 & Hfa & Hfb & Hw).
  rewrite !Forall_cons in Hw. destruct Hw as (_ & _ & _ & _ & Hs0 & Hs1 & Hf & _).
  unfold occupant_or_none in *.
  destruct (occupant_source _ _ _ _ _ t Ht Hf Hfa Hfb) as [Hs|Hs].
  - destruct (occupant_source _ _ _ (winner q0) (winner q1) t Hs Hs0) as [Hq|Hq];
      [auto..| |]; [by exists 0, q0, s0|by exists 1, q1, s0].
  - destruct (occupant_source _ _ _ (winner q2) (winner q3) t Hs Hs1) as [Hq|Hq];
      [auto..| |]; [by exists 2, q2, s1|by exists 3, q3, s1].
Qed.

Lemma champion_path_witness :
  let st := after pickAllA in
  let t := mkTeam 1 "papaneus" in
  reachable st ∧ winner (finalMatch st) = Some t ∧
  champion st = name t ∧ is_entrant t ∧
  ∃ i q s, arr_get (qf st) i = Some q ∧ arr_get (sf st) (i / 2) = Some s ∧
    winner q = Some t ∧ winner s = Some t.
Proof.
  intros st t. refine (conj (after_reachable _) (conj eq_refl _)).
  exact (champion_path st t (after_reachable _) eq_refl).
Defined.

(** Scoring by [id] is scoring by team: in a reachable state every team
    is one of the eight entrants, whose [id]s differ, so a match counts as
    correct exactly when it has a pick and the pick is its outcome. *)
Theorem reachable_correct_is_equal st m :
  reachable (sys:=home_system) st → m ∈ matches st →
  (correct m ↔ is_Some (winner m) ∧ winner m = outcome m).
Proof.
  intros He%entrants_only_reachable Hm. unfold entrants_only in He.
  rewrite Forall_forall in He. destruct (He m Hm) as (_ & _ & Hw & Ho).
  unfold correct. destruct (winner m) as [w|], (outcome m) as [o|];
    simpl in *; [|naive_solver..].
  split; [|by intros [_ [= ->]]].
  intros Hid. split; [by eexists|]. f_equal. by apply entrant_id_inj.
Qed.

Lemma reachable_correct_is_equal_witness :
  let st := after [EvPick RoundQF 0 PickA; EvSimulate (tape_of [PickA])] in
  let m := mkMatch "QF1" (arr_get initialTeams 0) (arr_get initialTeams 1)
             (arr_get initialTeams 0) (arr_get initialTeams 0) in
  reachable st ∧ m ∈ matches st ∧
  (correct m ↔ is_Some (winner m) ∧ winner m = outcome m).
Proof.
  intros st m. assert (m ∈ matches st) as Hin by (by left).
  exact (conj (after_reachable _) (conj Hin
           (reachable_correct_is_equal st m (after_reachable _) Hin))).
Defined.

(** C22. In every reachable state the announced thresholds are an initial
    part of 6, 12, 18 (in this order, none twice), and every threshold
    that the current total has reached is among them. *)
Theorem reachable_announced st :
  reachable (sys:=home_system) st →
  announced st `prefix_of` [6; 12; 18] ∧
  ∀ p, p ∈ [6; 12; 18] → p ≤ points st → p ∈ announced st.
Proof.
  intros [Hp Hn]%announced_ok_reachable. rewrite thresholds_eq in Hp.
  split; [done|]. intros p Hin. by apply newlyReached_nil_iff.
Qed.

Lemma reachable_announced_witness :
  let st := after (pickAllA ++ [EvSimulate (tape_of (replicate 7 PickA))]) in
  reachable st ∧
  announced st `prefix_of` [6; 12; 18] ∧
  ∀ p, p ∈ [6; 12; 18] → p ≤ points st → p ∈ announced st.
Proof.
  intros st.
  exact (conj (after_reachable _) (reachable_announced st (after_reachable _))).
Defined.
