(* ===== verification/Ui.v ===== *)
(** The page [Home] returns (lines 266-479) and what the user can do on
    it.  The page is the header with its two buttons (lines 268-288), the
    progress bar and the bracket.  A gesture is a click on a control or a
    key pressed while a control has the focus; [dispatch] gives the handler
    call the component makes for it, read off the rendered page, and
    [ui_system] is the component driven by gestures.  What the browser does
    by itself with a key on a focused button is not part of the component
    and is not modelled.  The theorems: [ui_system] and the system of [App]
    reach the same states, no gesture throws, a key on a seed is a click,
    and a gesture made twice changes nothing the second time. *)

From Stdlib Require Import ZArith QArith Lia.
From stdpp Require Import base tactics option list numbers strings.
From S2P Require Import Prelude Style Number Transition Entrants Bracket.
From S2P Require Import Propagation Scoring Simulation View Progress App.

#[local] Open Scope string_scope.
#[local] Open Scope list_scope.
#[local] Open Scope Z_scope.
#[local] Open Scope js_scope.

(** * The page *)

(** The handler a header button names in its [onClick]. *)
Inductive Handler := HandleReset | HandleSimulate.

(** Lines 271-286, a button of the header. *)
Record HeaderButton := mkHeaderButton {
  hbClass : string;
  hbOnClick : Handler;
  hbAriaLabel : string;
  hbText : string;
}.

(** Lines 266-479: the classes of [main] and [header], the heading, the
    box of the two buttons and the buttons, the progress bar, the classes
    of the section, its columns and the lines between them, the bracket. *)
Record Page := mkPage {
  mainClass : string;
  headerClass : string;
  headingClass : string;
  headingText : string;
  toolbarClass : string;
  resetButton : HeaderButton;
  simulateButton : HeaderButton;
  progress : ProgressBar;
  sectionClass : string;
  columnClass : string;
  lineClass : string;
  bracket : View;
}.

(** Lines 266-479.  The bracket reads every match, so the page throws
    when a match is missing. *)
Definition page (st : Home) : option Page :=
  v ← render st;
  Some (mkPage container header "text-lg font-semibold"
          "8-Team Pick'em Bracket"
          "fixed right-4 top-4 z-50 flex items-center gap-2"
          (mkHeaderButton
             "rounded-md bg-cyan-500 px-3 py-1.5 text-xs font-medium text-zinc-950 hover:bg-cyan-400 focus:outline-none focus-visible:ring-2 focus-visible:ring-cyan-400"
             HandleReset "Reset bracket" "Reset")
          (mkHeaderButton
             "rounded-md bg-emerald-500 px-3 py-1.5 text-xs font-medium text-zinc-950 hover:bg-emerald-400 focus:outline-none focus-visible:ring-2 focus-visible:ring-emerald-400"
             HandleSimulate "Simuleer uitslagen" "Simuleer")
          (progressBar st) row (tpl2 column "justify-center") line v).

(** * Gestures *)

(** The places of the page a gesture can address: the two header buttons
    and the two seeds of each of the seven cards, in the order of the
    page. *)
Inductive Control :=
| CtlReset
| CtlSimulate
| CtlSeed (card : nat) (side : Side).

(** A click on a control, or a key pressed on it. *)
Inductive Gesture :=
| Press (c : Control)
| Key (c : Control) (key : string).

(** A call of one of the three handlers. *)
Inductive Call :=
| CallPick (c : Click)
| CallReset
| CallSimulate.

#[export] Instance Control_eq_dec : EqDecision Control.
Proof. solve_decision. Defined.

#[export] Instance Call_eq_dec : EqDecision Call.
Proof. solve_decision. Defined.

Definition headerCall (b : HeaderButton) : Call :=
  match hbOnClick b with
  | HandleReset => CallReset
  | HandleSimulate => CallSimulate
  end.

(** The round and index of the match each card shows. *)
Definition cardPositions : list (Round * Z) :=
  [ (RoundQF, 0); (RoundQF, 1); (RoundQF, 2); (RoundQF, 3);
    (RoundSF, 0); (RoundSF, 1); (RoundF, 0) ].

(** The seed of card [k] on side [s]. *)
Definition seedAt (v : View) (k : nat) (s : Side) : option Seed :=
  c ← cards v !! k;
  Some (match s with PickA => seedA c | PickB => seedB c end).

(** The handler call a gesture makes on a page; [None] when the control
    has no handler for it: the box of an empty slot, a card that does not
    exist, a key other than Enter and space, and any key on a header
    button, which has no [onKeyDown]. *)
Definition dispatch (pg : Page) (g : Gesture) : option Call :=
  match g with
  | Press CtlReset => Some (headerCall (resetButton pg))
  | Press CtlSimulate => Some (headerCall (simulateButton pg))
  | Press (CtlSeed k s) =>
      seed ← seedAt (bracket pg) k s; CallPick <$> seedClick seed
  | Key (CtlSeed k s) key =>
      seed ← seedAt (bracket pg) k s;
      match seed with
      | SeedButton b => CallPick <$> called (onKeyDown b key)
      | Box _ _ => None
      end
  | Key _ _ => None
  end.

(** The call a gesture makes when its control has a handler for it: it
    does not depend on the state. *)
Definition call_of (g : Gesture) : option Call :=
  match g with
  | Press CtlReset => Some CallReset
  | Press CtlSimulate => Some CallSimulate
  | Press (CtlSeed k s) | Key (CtlSeed k s) _ =>
      (λ p, CallPick (p, s)) <$> cardPositions !! k
  | Key _ _ => None
  end.

(** The handler a call runs. *)
Definition perform (call : Call) (random : nat → Q) (st : Home) : option Home :=
  match call with
  | CallPick (r, i, s) => handlePick r i s st
  | CallReset => Some (handleReset st)
  | CallSimulate => Some (handleSimulate random st 0).1
  end.

(** One gesture, with the draws a simulation would see: the page is
    rendered, the gesture dispatched, the handler's update committed and
    the effect run.  A gesture without handler changes nothing. *)
Definition ui_step (g : Gesture * (nat → Q)) (st : Home) : option Home :=
  pg ← page st;
  match dispatch pg g.1 with
  | Some call => settle <$> perform call g.2 st
  | None => Some st
  end.

#[export] Instance ui_system : System Home (Gesture * (nat → Q)) :=
  {| sys_init := initialHome; sys_step := ui_step |}.

(** The state after a list of gestures. *)
Definition ui_after (gs : list (Gesture * (nat → Q))) : Home := after_run gs.

(** The event of [home_system] a call is. *)
Definition event_of (call : Call) (random : nat → Q) : Event :=
  match call with
  | CallPick (r, i, s) => EvPick r i s
  | CallReset => EvReset
  | CallSimulate => EvSimulate random
  end.

(** The control of a click: card [k] holds the match of its round. *)
Definition control_of (c : Click) : Control :=
  match c.1.1 with
  | RoundQF => CtlSeed (Z.to_nat c.1.2) c.2
  | RoundSF => CtlSeed (4 + Z.to_nat c.1.2) c.2
  | RoundF => CtlSeed 6 c.2
  end.

(** The gesture that raises an event: a click on its button. *)
Definition gesture_of (e : Event) : Gesture * (nat → Q) :=
  match e with
  | EvPick r i s => (Press (control_of (r, i, s)), λ _, 0%Q)
  | EvReset => (Press CtlReset, λ _, 0%Q)
  | EvSimulate random => (Press CtlSimulate, random)
  end.

(** * Facts *)

Section ui.
Implicit Types (st : Home) (pg : Page) (g : Gesture) (c : Click) (v : View).

Lemma page_render st pg : page st = Some pg → render st = Some (bracket pg).
Proof. unfold page. destruct (render st); intros; by simplify_eq/=. Qed.

Lemma page_is_Some st : is_Some (page st) ↔ is_Some (render st).
Proof. unfold page. destruct (render st); simpl; by rewrite <-?not_eq_None_Some. Qed.

(** A seed's click is one of the clicks of the view. *)
Lemma seedAt_clicks v k s seed c :
  seedAt v k s = Some seed → seedClick seed = Some c → c ∈ clicks v.
Proof.
  unfold seedAt. destruct (cards v !! k) as [cd|] eqn:Hk; [|done].
  intros [= <-] Hc. unfold clicks. apply list_elem_of_bind. exists cd.
  split; [|by eapply list_elem_of_lookup_2].
  unfold cardClicks. apply list_elem_of_omap. eexists. split; [|done].
  destruct s; [left|right; left].
Qed.

(** The key handler of a seed button makes the call of its click, or
    none. *)
Lemma onKeyDown_called b key c :
  called (onKeyDown b key) = Some c → c = onClick b.
Proof. unfold onKeyDown. case_decide; naive_solver. Qed.

(** A pick a gesture calls is offered by the view. *)
Lemma dispatch_pick_offered st pg g c :
  page st = Some pg → dispatch pg g = Some (CallPick c) → offered st c.
Proof.
  intros Hr%page_render Hd. exists (bracket pg). split; [done|].
  destruct g as [[]|[] key]; simpl in Hd; try done;
    try (unfold headerCall in Hd; by destruct (hbOnClick _)).
  - destruct (seedAt _ _ _) as [seed|] eqn:Hs; simplify_eq/=.
    destruct (seedClick seed) eqn:?; simplify_eq/=. by eapply seedAt_clicks.
  - destruct (seedAt _ _ _) as [[|b]|] eqn:Hs; simplify_eq/=.
    destruct (called _) eqn:Hc; simplify_eq/=.
    apply onKeyDown_called in Hc as ->. by eapply seedAt_clicks.
Qed.

Lemma perform_handle call random st :
  is_Some (render st) →
  (∀ c, call = CallPick c → offered st c) →
  perform call random st = handle (event_of call random) st.
Proof.
  intros Hr Hc. destruct call as [[[r i] s]| |]; simpl.
  - by rewrite decide_True by eauto.
  - by rewrite decide_True.
  - by rewrite decide_True.
Qed.

(** Every gesture changes nothing or is a step of [home_system]. *)
Lemma ui_step_home (g : Gesture * (nat → Q)) st st' :
  ui_step g st = Some st' →
  st' = st ∨ ∃ e, step e st = Some st'.
Proof.
  unfold ui_step. destruct (page st) as [pg|] eqn:Hpg; [|done]. simpl.
  destruct (dispatch pg g.1) as [call|] eqn:Hd; [|naive_solver].
  intros Hp. right. exists (event_of call g.2). unfold step.
  rewrite <-perform_handle; [done|apply page_is_Some; eauto|].
  intros c ->. eauto using dispatch_pick_offered.
Qed.

(** The button of an offered click is at the control of the click. *)
Lemma offered_dispatch st pg c :
  shaped st → page st = Some pg → offered st c →
  dispatch pg (Press (control_of c)) = Some (CallPick c).
Proof.
  destruct c as [[r i] s]. intros Hsh Hpg Hoff.
  apply (offered_shaped st r i s Hsh) in Hoff as (m & Hm & [t Ht] & Hf).
  shaped_cases st Hsh. injection Hpg as <-. unfold clicked in Hm.
  destruct r; simpl in Hm.
  - pose proof (arr_get_Some_bounds _ _ _ Hm) as Hi. simpl in Hi.
    index_cases i 0 4; vm_compute in Hm; simplify_eq;
      destruct s; simpl in Ht; cbn; by rewrite Ht.
  - pose proof (arr_get_Some_bounds _ _ _ Hm) as Hi. simpl in Hi.
    index_cases i 0 2; vm_compute in Hm; simplify_eq;
      destruct s; simpl in Ht; cbn; by rewrite Ht.
  - rewrite (Hf eq_refl) in *. simplify_eq.
    destruct s; simpl in Ht; cbn; by rewrite Ht.
Qed.

(** Every step of [home_system] is the gesture of its event. *)
Lemma page_shaped st :
  shaped st →
  ∃ pg, page st = Some pg ∧ headerCall (resetButton pg) = CallReset ∧
        headerCall (simulateButton pg) = CallSimulate.
Proof.
  intros [v Hv]%render_shaped. unfold page. rewrite Hv. by eexists.
Qed.

Lemma home_step_ui e st st' :
  shaped st → step e st = Some st' → ui_step (gesture_of e) st = Some st'.
Proof.
  intros Hsh. destruct (page_shaped st Hsh) as (pg & Hpg & Hr & Hs).
  assert (is_Some (render st)) by (apply page_is_Some; eauto).
  unfold step, ui_step. rewrite Hpg.
  destruct e as [r i s| |random];
    cbn [gesture_of handle fst snd mbind option_bind].
  - case_decide as Hoff; [|done].
    by rewrite (offered_dispatch st pg _ Hsh Hpg Hoff).
  - cbn [dispatch]. by rewrite Hr, decide_True.
  - cbn [dispatch]. by rewrite Hs, decide_True.
Qed.

(** The seeds of a page, by the matches of the state. *)
Lemma seedAt_shaped st pg k s r i :
  shaped st → page st = Some pg → cardPositions !! k = Some (r, i) →
  ∃ m, clicked st (r, i, s) = Some m ∧ matches st !! k = Some m ∧
    seedAt (bracket pg) k s =
      Some (seedButton (chosen s m) (isSelected m s) (r, i, s)
              (getSeedStatus (Some m) (chosen s m))).
Proof.
  intros Hsh Hpg Hk. shaped_cases st Hsh. injection Hpg as <-.
  do 7 (destruct k as [|k]; [simplify_eq/=; eexists; by destruct s|]).
  done.
Qed.

(** A page has seven cards. *)
Lemma page_cards st pg : page st = Some pg → length (cards (bracket pg)) = 7%nat.
Proof.
  intros Hv%page_render. unfold render in Hv. crash_inv. by rewrite <-Hv.
Qed.

(** A seed is on one of the seven cards. *)
Lemma seedAt_position st pg k s seed :
  page st = Some pg → seedAt (bracket pg) k s = Some seed →
  is_Some (cardPositions !! k).
Proof.
  intros Hpg%page_cards Hs. unfold seedAt in Hs.
  destruct (cards (bracket pg) !! k) eqn:Hk; [|done].
  apply lookup_lt_is_Some. apply lookup_lt_Some in Hk. by rewrite Hpg in Hk.
Qed.

(** The call of a gesture is the same in every state. *)
Lemma dispatch_call_of st pg g call :
  shaped st → page st = Some pg → dispatch pg g = Some call →
  call_of g = Some call.
Proof.
  intros Hsh Hpg Hd.
  destruct (page_shaped st Hsh) as (pg' & Hpg' & Hr & Hs).
  assert (pg' = pg) as -> by congruence.
  destruct g as [[| |k s]|[| |k s] key]; simpl in *; try congruence.
  all: destruct (seedAt (bracket pg) k s) as [seed|] eqn:Hseed; [|done].
  all: destruct (seedAt_position st pg k s _ Hpg Hseed) as [[r i] Hk].
  all: destruct (seedAt_shaped st pg k s r i Hsh Hpg Hk) as (m & _ & _ & Hsd).
  all: rewrite Hseed in Hsd; injection Hsd as ->; rewrite Hk; simpl in *.
  all: unfold seedButton in Hd; destruct (chosen s m); simpl in Hd; [|done].
  - congruence.
  - unfold onKeyDown in Hd. by case_decide; simplify_eq/=.
Qed.

Lemma ui_reachable_home st :
  reachable (sys:=ui_system) st → reachable (sys:=home_system) st.
Proof.
  apply reachable_incl; [done|]. intros g s s' _ Hs Hstep.
  apply ui_step_home in Hstep as [->|[e He]]; eauto with js.
Qed.

Lemma home_reachable_ui st :
  reachable (sys:=home_system) st → reachable (sys:=ui_system) st.
Proof.
  apply reachable_incl; [done|]. intros e s s' Hs%reachable_shaped_lemma Hu Hstep.
  eapply reach_step; [done|]. by apply home_step_ui.
Qed.

(** In a well-shaped state no gesture throws. *)
Lemma ui_step_is_Some (g : Gesture * (nat → Q)) st :
  shaped st → is_Some (ui_step g st).
Proof.
  intros Hsh. destruct (page_shaped st Hsh) as (pg & Hpg & _).
  unfold ui_step. rewrite Hpg. simpl.
  destruct (dispatch pg g.1) as [[[[r i] s]| |]|] eqn:Hd; simpl; try by eexists.
  apply (dispatch_pick_offered st) in Hd; [|done].
  destruct (offered_handle st r i s Hsh Hd) as [s' Hs']. simpl in Hs'.
  rewrite decide_True in Hs' by done. rewrite Hs'. by eexists.
Qed.

End ui.

(** * The component driven by gestures *)

(** The component driven by gestures and the component driven by the
    events of [App] reach the same states: every gesture changes nothing or
    is the click of a button that [App] offers, and every event of [App]
    is a click on a control of the page. *)
Theorem ui_reachable_iff st :
  reachable (sys:=ui_system) st ↔ reachable (sys:=home_system) st.
Proof. split; [apply ui_reachable_home|apply home_reachable_ui]. Qed.

(** C17. Keyboard and mouse do the same: on a seed, Enter and the space
    bar make the call of a click, and every other key makes none and
    leaves the state as it is. *)
Theorem key_is_click st k s key random :
  ui_step (Key (CtlSeed k s) key, random) st =
    if decide (key = "Enter" ∨ key = " ")
    then ui_step (Press (CtlSeed k s), random) st
    else page st ≫= λ _, Some st.
Proof.
  unfold ui_step. destruct (page st) as [pg|]; [|by case_decide]. simpl.
  destruct (seedAt (bracket pg) k s) as [[cls txt|b]|]; simpl;
    [by case_decide| |by case_decide].
  unfold onKeyDown. by case_decide.
Qed.

(** C15. No gesture throws: in every state the component reaches, a click
    or a key on any control, also on the box of an empty slot or beside
    the cards, is handled and leaves a state the page renders. *)
Theorem gesture_never_throws st (g : Gesture * (nat → Q)) :
  reachable (sys:=ui_system) st →
  ∃ st', ui_step g st = Some st' ∧ is_Some (page st').
Proof.
  intros Hr. pose proof (ui_reachable_home st Hr) as Hsh%reachable_shaped_lemma.
  destruct (ui_step_is_Some g st Hsh) as [st' Hst'].
  exists st'. split; [done|]. apply page_is_Some, render_shaped.
  eapply reachable_shaped_lemma, ui_reachable_home, reach_step; eauto.
Qed.

Lemma gesture_never_throws_witness :
  let st := ui_after [(Key (CtlSeed 0 PickB) "Enter", λ _, 0%Q);
                      (Press CtlSimulate, λ _, 0%Q)] in
  reachable (sys:=ui_system) st ∧
  ∃ st', ui_step (Press (CtlSeed 4 PickA), λ _, 0%Q) st = Some st' ∧
         is_Some (page st').
Proof.
  intros st.
  exact (conj (after_run_reachable _)
           (gesture_never_throws st _ (after_run_reachable _))).
Defined.

(** Making a gesture twice is making it once: a second click on the same
    button, a key that repeats, or a click the browser adds to a key
    changes nothing. *)
Theorem gesture_idempotent st (g : Gesture * (nat → Q)) st' :
  reachable (sys:=ui_system) st →
  ui_step g st = Some st' → ui_step g st' = Some st'.
Proof.
  intros Hr Hstep.
  pose proof (reachable_shaped_lemma st (ui_reachable_home st Hr)) as Hsh.
  assert (shaped st') as Hsh'.
  { eapply reachable_shaped_lemma, ui_reachable_home, reach_step; eauto. }
  destruct (page_shaped st Hsh) as (pg & Hpg & _).
  destruct (page_shaped st' Hsh') as (pg' & Hpg' & _).
  unfold ui_step in *. rewrite Hpg in Hstep. rewrite Hpg'. simpl in *.
  destruct (dispatch pg' g.1) as [call'|] eqn:Hd'; [|done].
  pose proof (dispatch_call_of st' pg' _ _ Hsh' Hpg' Hd') as Hc'.
  destruct (dispatch pg g.1) as [call|] eqn:Hd.
  - rewrite (dispatch_call_of st pg _ _ Hsh Hpg Hd) in Hc'.
    assert (call' = call) as -> by congruence.
    rewrite (perform_handle call g.2 st) in Hstep;
      [|apply page_is_Some; eauto|intros c ->; by eapply dispatch_pick_offered].
    rewrite (perform_handle call g.2 st');
      [|apply page_is_Some; eauto|intros c ->; by eapply dispatch_pick_offered].
    exact (step_idempotent _ st st' Hsh Hstep).
  - simplify_eq.
Qed.
