(* ===== verification/Display.v ===== *)
(** What the page shows agrees with the state: the border of a card with
    the score of its match, the pressed button and the tones of a card
    with the pick and the outcome, the lit dots of the progress bar with
    the checkpoints announced; and what is clicked is what the next page
    shows pressed. *)

From Stdlib Require Import ZArith QArith Lia.
From stdpp Require Import base tactics option list numbers strings pretty.
From S2P Require Import Prelude Style Number Transition Entrants Bracket.
From S2P Require Import Propagation Scoring Simulation View Progress App Ui.

#[local] Open Scope string_scope.
#[local] Open Scope list_scope.
#[local] Open Scope Z_scope.
#[local] Open Scope js_scope.

(** * Reading the page *)

(** The element has the class. *)
Definition has_class (className c : string) : Prop := c ∈ classList className.

#[export] Instance has_class_dec className c : Decision (has_class className c).
Proof. unfold has_class. apply _. Defined.

(** Card [k] of the page, in the order of the bracket. *)
Definition cardAt (pg : Page) (k : nat) : option Card := cards (bracket pg) !! k.

(** The button on side [s] of card [k], when the slot holds a team. *)
Definition buttonAt (pg : Page) (k : nat) (s : Side) : option Button :=
  seed ← seedAt (bracket pg) k s;
  match seed with SeedButton b => Some b | Box _ _ => None end.

(** The thresholds whose dot is lit. *)
Definition litKeys (pg : Page) : list Z :=
  markerKey <$> filter lit (markers (progress pg)).

(** The card [cd] shows the match [m]. *)
Definition shows (cd : Card) (m : Match) : Prop :=
  ∃ ttl r i, card ttl r i (Some m) = Some cd.

(** The button [b] stands for side [s] of the match [m]. *)
Definition stands_for (b : Button) (s : Side) (m : Match) : Prop :=
  ∃ r i, seedButton (chosen s m) (isSelected m s) (r, i, s)
           (getSeedStatus (Some m) (chosen s m)) = SeedButton b.

Section display.
Implicit Types (st : Home) (pg : Page) (v : View) (cd : Card) (m : Match)
  (b : Button) (s : Side).

(** The cards of the page are the matches of the state, in order. *)
Lemma cards_matches st v :
  shaped st → render st = Some v → Forall2 shows (cards v) (matches st).
Proof.
  intros Hsh Hv. shaped_cases st Hsh. injection Hv as <-.
  rewrite matches_shaped. simpl.
  repeat (apply Forall2_cons; split; [by eexists _, _, _|]). constructor.
Qed.

Lemma card_at st pg k cd m :
  shaped st → page st = Some pg →
  cardAt pg k = Some cd → matches st !! k = Some m → shows cd m.
Proof.
  intros Hsh Hpg%page_render Hcd Hm.
  destruct (Forall2_lookup_l _ _ _ _ _ (cards_matches st _ Hsh Hpg) Hcd)
    as (m' & Hm' & Hs). congruence.
Qed.

Lemma button_at st pg k s b m :
  shaped st → page st = Some pg →
  buttonAt pg k s = Some b → matches st !! k = Some m → stands_for b s m.
Proof.
  intros Hsh Hpg Hb Hm. unfold buttonAt, seedAt in Hb.
  destruct (cards (bracket pg) !! k) as [cd|] eqn:Hcd; [|done]. simpl in Hb.
  destruct (card_at st pg k cd m Hsh Hpg Hcd Hm) as (ttl & r & i & [= <-]).
  exists r, i. destruct s; simpl in Hb; destruct (seedButton _ _ _ _);
    by simplify_eq.
Qed.

(** [getCardStateClass] by the score of the match. *)
Lemma getCardStateClass_eq m :
  getCardStateClass (Some m) =
    if decide (correct m) then "border-emerald-500/70 ring-1 ring-emerald-500/40"
    else if decide (is_Some (winner m) ∧ decided m)
    then "border-rose-500/70 ring-1 ring-rose-500/40"
    else if decide (decided m) then "border-white/10" else "".
Proof.
  destruct m as [id a b [w|] [o|]]; unfold getCardStateClass; simpl;
    repeat case_decide; try done; unfold correct, decided in *; simpl in *;
    naive_solver.
Qed.

(** Decide a membership in the classes of a closed string. *)
Ltac class_mem :=
  unfold has_class;
  split; [intros Hin%(bool_decide_pack _); vm_compute in Hin|intros ?];
  first [done | tauto | compute_done].

Lemma getCardStateClass_correct m :
  has_class (getCardStateClass (Some m)) "border-emerald-500/70" ↔ correct m.
Proof. rewrite getCardStateClass_eq. repeat case_decide; class_mem. Qed.

Lemma getCardStateClass_wrong m :
  has_class (getCardStateClass (Some m)) "border-rose-500/70"
  ↔ is_Some (winner m) ∧ decided m ∧ ¬ correct m.
Proof. rewrite getCardStateClass_eq. repeat case_decide; class_mem. Qed.

Lemma cardClass_state cd m c :
  shows cd m → ¬ has_class bracketCard c →
  has_class (cardClass cd) c ↔ has_class (getCardStateClass (Some m)) c.
Proof.
  intros (ttl & r & i & [= <-]) Hc. unfold has_class in *. simpl.
  rewrite classList_tpl2, elem_of_app. naive_solver.
Qed.

(** A button is pressed when the pick has its team's [id]. *)
Lemma stands_for_pressed b s m :
  stands_for b s m →
  ∃ t, chosen s m = Some t ∧ text b = name t ∧
       ariaLabel b = "Select " +:+ name t ∧
       (ariaPressed b = true ↔ ∃ w, winner m = Some w ∧ team_id w = team_id t).
Proof.
  intros (r & i & Hb). unfold seedButton in Hb.
  destruct (chosen s m) as [t|] eqn:Ht; simplify_eq/=.
  exists t. split_and!; try done. unfold isSelected. rewrite Ht.
  rewrite bool_decide_eq_true. destruct (winner m) as [w|]; simpl; split.
  - intros [= Hid]. eauto.
  - by intros (w' & [= <-] & ->).
  - done.
  - by intros (w' & ? & _).
Qed.

(** The status of a seed by the outcome of its match. *)
Lemma getSeedStatus_Some m t :
  getSeedStatus (Some m) (Some t) =
    match outcome m with
    | Some o => if decide (team_id o = team_id t) then win else lose
    | None => neutral
    end.
Proof. unfold getSeedStatus. simpl. by destruct (outcome m). Qed.

(** The tone classes of a button tell its status. *)
Lemma button_tone_classes status (sel : bool) :
  let cls := tpl3 buttonBase (tone status)
               (if sel then "ring-2 ring-cyan-400/70" else "") in
  (has_class cls "bg-emerald-500/20" ↔ status = win) ∧
  (has_class cls "bg-rose-500/20" ↔ status = lose).
Proof. destruct status, sel; split; class_mem. Qed.

(** A button has the tone of a winner when the outcome has its team's
    [id], and the tone of a loser when the outcome is another team. *)
Lemma stands_for_tone b s m :
  stands_for b s m →
  ∃ t, chosen s m = Some t ∧
    (has_class (className b) "bg-emerald-500/20"
       ↔ ∃ o, outcome m = Some o ∧ team_id o = team_id t) ∧
    (has_class (className b) "bg-rose-500/20"
       ↔ ∃ o, outcome m = Some o ∧ team_id o ≠ team_id t).
Proof.
  intros (r & i & Hb). unfold seedButton in Hb.
  destruct (chosen s m) as [t|] eqn:Ht; simplify_eq/=.
  exists t. split; [done|].
  destruct (button_tone_classes (getSeedStatus (Some m) (Some t))
              (isSelected m s)) as [-> ->].
  rewrite getSeedStatus_Some.
  destruct (outcome m) as [o|]; [case_decide|]; naive_solver.
Qed.

(** In a reachable state the teams of a match are entrants. *)
Lemma reachable_known st m :
  reachable (sys:=ui_system) st → m ∈ matches st → entrants_match m.
Proof.
  intros He%ui_reachable_home%entrants_only_reachable Hm.
  unfold entrants_only in He. rewrite Forall_forall in He. eauto.
Qed.

(** Among entrants, having the [id] of a team is being the team. *)
Lemma same_id_eq (o : option Team) t :
  known o → is_entrant t →
  (∃ x, o = Some x ∧ team_id x = team_id t) ↔ o = Some t.
Proof.
  intros Ho Ht. split; [|by eauto].
  intros (x & -> & Hid). f_equal. by apply entrant_id_inj.
Qed.

Lemma chosen_known s m t : entrants_match m → chosen s m = Some t → is_entrant t.
Proof.
  intros (Ha & Hb & _) Ht.
  destruct s; simpl in Ht; [rewrite Ht in Ha; exact Ha|rewrite Ht in Hb; exact Hb].
Qed.

Lemma litKeys_eq st pg :
  page st = Some pg →
  litKeys pg = filter (λ p, p ≤ points st) thresholds.
Proof.
  unfold page, litKeys. destruct (render st); [|done]. intros [= <-].
  cbn [progress progressBar markers mbind option_bind]. unfold thresholds.
  rewrite !(filter_fmap _ _ (λ cp, cp_points cp ≤ points st))
    by (intros cp; first [apply lit_marker|done]).
  by rewrite <-list_fmap_compose.
Qed.

End display.

(** * The bracket *)

(** C29. The border of a card tells the score of its match: in a
    well-shaped state the card is emerald exactly when the match counts
    three points, and rose exactly when it has a pick and counts one. *)
Theorem card_border_score st pg k cd m :
  shaped st → page st = Some pg →
  cardAt pg k = Some cd → matches st !! k = Some m →
  (has_class (cardClass cd) "border-emerald-500/70" ↔ calc (Some m) = 3) ∧
  (has_class (cardClass cd) "border-rose-500/70"
   ↔ calc (Some m) = 1 ∧ is_Some (winner m)).
Proof.
  intros Hsh Hpg Hcd Hm. pose proof (card_at st pg k cd m Hsh Hpg Hcd Hm) as Hs.
  rewrite !(cardClass_state cd m) by (done || compute_done).
  rewrite getCardStateClass_correct, getCardStateClass_wrong, calc_Some.
  pose proof (correct_decided m). repeat case_decide; naive_solver.
Qed.


Lemma card_border_score_witness :
  let st := simulated_once in
  ∃ pg cd m,
    shaped st ∧ page st = Some pg ∧
    cardAt pg 0 = Some cd ∧ matches st !! 0%nat = Some m ∧
    (has_class (cardClass cd) "border-emerald-500/70" ↔ calc (Some m) = 3) ∧
    (has_class (cardClass cd) "border-rose-500/70"
     ↔ calc (Some m) = 1 ∧ is_Some (winner m)).
Proof.
  intros st.
  destruct (page st) as [pg|] eqn:Hpg; [|by vm_compute in Hpg].
  destruct (cardAt pg 0) as [cd|] eqn:Hcd;
    [|by vm_compute in Hpg; injection Hpg as <-; vm_compute in Hcd].
  destruct (matches st !! 0%nat) as [m|] eqn:Hm; [|by vm_compute in Hm].
  exists pg, cd, m.
  exact (conj simulated_once_shaped (conj eq_refl (conj Hcd (conj eq_refl
           (card_border_score st pg 0 cd m simulated_once_shaped Hpg Hcd Hm))))).
Defined.

(** A simulated match without a pick looks like a match that was never
    simulated: the class [getCardStateClass] adds for it is one that
    [bracketCard] has already. *)
Theorem card_without_pick_plain cd m c :
  shows cd m → winner m = None →
  has_class (cardClass cd) c ↔ has_class bracketCard c.
Proof.
  intros (ttl & r & i & [= <-]) Hw. unfold has_class. simpl.
  rewrite classList_tpl2, elem_of_app. unfold getCardStateClass. rewrite Hw.
  destruct (outcome m); [|rewrite classList_empty, elem_of_nil; tauto].
  split; [intros [?|Hc]; [done|]|by left].
  apply list_elem_of_singleton in Hc as ->. apply bracketCard_border.
Qed.

(** C27. A seed button shows its team, its pick and its outcome: in every
    reachable state the button of a slot carries the name of the team in
    the slot, is pressed exactly when that team is the pick of the match,
    has the winner's tone exactly when that team is the outcome, and the
    loser's tone exactly when the outcome is another team. *)
Theorem button_shows_match st pg k s b m :
  reachable (sys:=ui_system) st → page st = Some pg →
  buttonAt pg k s = Some b → matches st !! k = Some m →
  name <$> chosen s m = Some (text b) ∧
  (ariaPressed b = true ↔ winner m = chosen s m) ∧
  (has_class (className b) "bg-emerald-500/20" ↔ outcome m = chosen s m) ∧
  (has_class (className b) "bg-rose-500/20"
   ↔ is_Some (outcome m) ∧ outcome m ≠ chosen s m).
Proof.
  intros Hr Hpg Hb Hm.
  pose proof (reachable_shaped_lemma st (ui_reachable_home st Hr)) as Hsh.
  pose proof (reachable_known st m Hr (list_elem_of_lookup_2 _ _ _ Hm)) as He.
  pose proof (button_at st pg k s b m Hsh Hpg Hb Hm) as Hs.
  destruct (stands_for_pressed b s m Hs) as (t & Ht & Htxt & _ & Hp).
  destruct (stands_for_tone b s m Hs) as (t' & Ht' & Hwin & Hlose).
  assert (t' = t) as -> by congruence.
  pose proof (chosen_known s m t He Ht) as Hent.
  destruct He as (_ & _ & Hw & Ho).
  rewrite Hp, Hwin, Hlose, Ht, Htxt, (same_id_eq _ t Hw Hent),
    (same_id_eq _ t Ho Hent).
  split_and!; [done..|]. split.
  - intros (o & Hout & Hid). rewrite Hout. split; [by eexists|congruence].
  - intros [[o Hout] Hne]. exists o. split; [done|]. intros Hid.
    rewrite Hout in Ho, Hne. apply Hne. f_equal. by apply entrant_id_inj.
Qed.

Lemma button_shows_match_witness :
  let st := ui_after [(Press (CtlSeed 0 PickB), λ _, 0%Q);
                      (Press CtlSimulate, λ _, 0%Q)] in
  ∃ pg b m,
    reachable (sys:=ui_system) st ∧ page st = Some pg ∧
    buttonAt pg 4 PickA = Some b ∧ matches st !! 4%nat = Some m ∧
    name <$> chosen PickA m = Some (text b) ∧
    (ariaPressed b = true ↔ winner m = chosen PickA m) ∧
    (has_class (className b) "bg-emerald-500/20" ↔ outcome m = chosen PickA m) ∧
    (has_class (className b) "bg-rose-500/20"
     ↔ is_Some (outcome m) ∧ outcome m ≠ chosen PickA m).
Proof.
  intros st.
  destruct (page st) as [pg|] eqn:Hpg; [|by vm_compute in Hpg].
  destruct (buttonAt pg 4 PickA) as [b|] eqn:Hb;
    [|by vm_compute in Hpg; injection Hpg as <-; vm_compute in Hb].
  destruct (matches st !! 4%nat) as [m|] eqn:Hm; [|by vm_compute in Hm].
  exists pg, b, m.
  exact (conj (after_run_reachable _) (conj eq_refl (conj Hb (conj eq_refl
           (button_shows_match st pg 4 PickA b m
              (after_run_reachable _) Hpg Hb Hm))))).
Defined.

(** At most one button of a card is pressed: the two teams of a
    match differ in every reachable state, so the pick is shown on one
    side only. *)
Theorem one_button_pressed st pg k a b :
  reachable (sys:=ui_system) st → page st = Some pg →
  buttonAt pg k PickA = Some a → buttonAt pg k PickB = Some b →
  ¬ (ariaPressed a = true ∧ ariaPressed b = true).
Proof.
  intros Hr Hpg Ha Hb [Hpa Hpb].
  pose proof (ui_reachable_home st Hr) as Hh.
  pose proof (reachable_shaped_lemma st Hh) as Hsh.
  assert (∃ m, matches st !! k = Some m) as [m Hm].
  { apply lookup_lt_is_Some. rewrite (matches_length st Hsh).
    unfold buttonAt, seedAt in Ha.
    destruct (cards (bracket pg) !! k) eqn:Hk; [|done].
    apply lookup_lt_Some in Hk. apply page_render in Hpg.
    by rewrite (Forall2_length _ _ _ (cards_matches st _ Hsh Hpg)),
      (matches_length st Hsh) in Hk. }
  destruct (stands_for_pressed a PickA m (button_at _ _ _ _ _ _ Hsh Hpg Ha Hm))
    as (ta & Hta & _ & _ & Hwa).
  destruct (stands_for_pressed b PickB m (button_at _ _ _ _ _ _ Hsh Hpg Hb Hm))
    as (tb & Htb & _ & _ & Hwb).
  apply Hwa in Hpa as (w & Hw & Hida). apply Hwb in Hpb as (w' & Hw' & Hidb).
  assert (w' = w) as -> by congruence.
  apply (placed_opponents st m ta tb (placed_reachable st Hh));
    [by eapply list_elem_of_lookup_2|done..|congruence].
Qed.

Lemma one_button_pressed_witness :
  let st := ui_after [(Press (CtlSeed 0 PickB), λ _, 0%Q)] in
  ∃ pg a b,
    reachable (sys:=ui_system) st ∧ page st = Some pg ∧
    buttonAt pg 0 PickA = Some a ∧ buttonAt pg 0 PickB = Some b ∧
    ¬ (ariaPressed a = true ∧ ariaPressed b = true).
Proof.
  intros st.
  destruct (page st) as [pg|] eqn:Hpg; [|by vm_compute in Hpg].
  destruct (buttonAt pg 0 PickA) as [a|] eqn:Ha;
    [|by vm_compute in Hpg; injection Hpg as <-; vm_compute in Ha].
  destruct (buttonAt pg 0 PickB) as [b|] eqn:Hb;
    [|by vm_compute in Hpg; injection Hpg as <-; vm_compute in Hb].
  exists pg, a, b.
  exact (conj (after_run_reachable _) (conj eq_refl (conj Ha (conj Hb
           (one_button_pressed st pg 0 a b (after_run_reachable _) Hpg Ha Hb))))).
Defined.

(** C18. What is clicked is what is shown: in every reachable state a click
    on a seed button is carried out, and the page rendered afterwards has
    at the same place a button with the same team, the same label and the
    same call, now pressed. *)
Theorem click_shows_pressed st pg k s b random :
  reachable (sys:=ui_system) st → page st = Some pg →
  buttonAt pg k s = Some b →
  ∃ st' pg' b',
    ui_step (Press (CtlSeed k s), random) st = Some st' ∧
    page st' = Some pg' ∧ buttonAt pg' k s = Some b' ∧
    text b' = text b ∧ ariaLabel b' = ariaLabel b ∧ onClick b' = onClick b ∧
    ariaPressed b' = true.
Proof.
  intros Hr Hpg Hb.
  pose proof (reachable_shaped_lemma st (ui_reachable_home st Hr)) as Hsh.
  unfold buttonAt in Hb.
  destruct (seedAt (bracket pg) k s) as [[|b0]|] eqn:Hseed; simplify_eq/=.
  destruct (seedAt_position st pg k s _ Hpg Hseed) as [[r i] Hk].
  destruct (seedAt_shaped st pg k s r i Hsh Hpg Hk) as (m & Hm & _ & Hs).
  rewrite Hseed in Hs. unfold seedButton in Hs.
  destruct (chosen s m) as [t|] eqn:Ht; simplify_eq/=.
  destruct (ui_step_is_Some (Press (CtlSeed k s), random) st Hsh) as [st' Hst'].
  pose proof Hst' as Hstep. unfold ui_step in Hstep.
  rewrite Hpg in Hstep. simpl in Hstep. rewrite Hseed in Hstep. simpl in Hstep.
  destruct (handlePick r i s st) as [st1|] eqn:Hp; simplify_eq/=.
  destruct (handlePick_clicked st r i s st1 Hp) as (m' & Hm' & Hc).
  assert (m' = m) as -> by congruence.
  assert (shaped (settle st1)) as Hsh'
    by (rewrite settle_equiv; eauto using handlePick_shaped).
  destruct (page_shaped _ Hsh') as (pg' & Hpg' & _).
  destruct (seedAt_shaped _ pg' k s r i Hsh' Hpg' Hk) as (m1 & Hm1 & _ & Hs1).
  rewrite (clicked_proper _ _ (settle_equiv st1) _ _ eq_refl), Hc in Hm1.
  simplify_eq. rewrite chosen_set_winner, Ht in Hs1.
  eexists _, pg', _. split_and!; [done|done|..].
  - unfold buttonAt. by rewrite Hs1.
  - done.
  - done.
  - done.
  - simpl. unfold isSelected. rewrite chosen_set_winner, Ht. simpl.
    by apply bool_decide_eq_true.
Qed.

Lemma click_shows_pressed_witness :
  let st := ui_after [(Press (CtlSeed 1 PickB), λ _, 0%Q);
                      (Press CtlSimulate, λ _, 0%Q)] in
  ∃ pg b,
    reachable (sys:=ui_system) st ∧ page st = Some pg ∧
    buttonAt pg 1 PickA = Some b ∧
    ∃ st' pg' b',
      ui_step (Press (CtlSeed 1 PickA), λ _, 0%Q) st = Some st' ∧
      page st' = Some pg' ∧ buttonAt pg' 1 PickA = Some b' ∧
      text b' = text b ∧ ariaLabel b' = ariaLabel b ∧ onClick b' = onClick b ∧
      ariaPressed b' = true.
Proof.
  intros st.
  destruct (page st) as [pg|] eqn:Hpg; [|by vm_compute in Hpg].
  destruct (buttonAt pg 1 PickA) as [b|] eqn:Hb;
    [|by vm_compute in Hpg; injection Hpg as <-; vm_compute in Hb].
  exists pg, b.
  exact (conj (after_run_reachable _) (conj eq_refl (conj Hb
           (click_shows_pressed st pg 1 PickA b _ (after_run_reachable _) Hpg Hb)))).
Defined.

(** * The progress bar *)

(** C28. A lit dot is an announced checkpoint: in every reachable state the
    dots that are lit are the thresholds the total has reached, and each of
    them is in [announced]. *)
Theorem lit_announced st pg :
  reachable (sys:=ui_system) st → page st = Some pg →
  litKeys pg = filter (λ p, p ≤ points st) [6; 12; 18] ∧
  litKeys pg ⊆ announced st.
Proof.
  intros Hr%ui_reachable_home%announced_ok_reachable Hpg.
  rewrite (litKeys_eq st pg Hpg). split; [done|].
  destruct Hr as [_ Hnew]. rewrite newlyReached_nil_iff in Hnew.
  intros p [Hp Hin]%list_elem_of_filter. eauto.
Qed.

Lemma lit_announced_witness :
  let st := ui_after [(Press (CtlSeed 0 PickA), λ _, 0%Q);
                      (Key (CtlSeed 1 PickA) "Enter", λ _, 0%Q);
                      (Press (CtlSeed 2 PickA), λ _, 0%Q);
                      (Key (CtlSeed 3 PickA) " ", λ _, 0%Q);
                      (Press CtlSimulate, λ _, 0%Q)] in
  ∃ pg, reachable (sys:=ui_system) st ∧ page st = Some pg ∧
    litKeys pg = filter (λ p, p ≤ points st) [6; 12; 18] ∧
    litKeys pg ⊆ announced st.
Proof.
  intros st.
  destruct (page st) as [pg|] eqn:Hpg; [|by vm_compute in Hpg].
  exists pg.
  exact (conj (after_run_reachable _) (conj eq_refl
           (lit_announced st pg (after_run_reachable _) Hpg))).
Defined.

(** The numbers written into the texts are those of [checkpoints]: the
    goals line lists the thresholds, the bar is measured against the last
    one, every alert names the threshold that triggers it, and the larger
    image is that of the last checkpoint. *)
Theorem texts_agree_with_checkpoints st :
  goalsText (progressBar st) = "Doelen: " +:+ String.concat " / " (pretty <$> thresholds) ∧
  last thresholds = Some 18 ∧
  Forall (λ cp, ∃ pre, message cp =
            pre +:+ cp_name cp +:+ " (" +:+ pretty (cp_points cp) +:+ " punten).")
    checkpoints ∧
  Forall (λ m, has_class (imgClass m) "h-20" ↔ Some (markerKey m) = last thresholds)
    (markers (progressBar st)).
Proof.
  split_and!; [done|done|..].
  - repeat constructor; by eexists.
  - unfold progressBar. cbn [markers]. apply Forall_fmap, Forall_forall.
    intros cp Hcp. revert cp Hcp. apply Forall_forall. compute_done.
Qed.
