(* ===== verification/Runs.v ===== *)
(** Runs of the component.  [handlers_system] is the component without
    its checkpoint effect; it and [home_system] simulate each other up to
    the equivalence of states with the same stores, which reduces a run of
    the component to a computation on the stores.  The theorems: from
    every reachable state the seven clicks of any bracket are offered in
    round order and fill the bracket in; over a whole run every checkpoint
    alert is shown at most once; simulating a complete bracket always
    reaches the first checkpoint. *)

From Stdlib Require Import ZArith QArith Lia.
From stdpp Require Import base tactics option list numbers strings.
From S2P Require Import Prelude Transition Entrants Bracket Propagation.
From S2P Require Import Scoring Simulation View App.

#[local] Open Scope string_scope.
#[local] Open Scope list_scope.
#[local] Open Scope Z_scope.
#[local] Open Scope js_scope.

(** * The component without its effect *)

(** The handlers alone: the same events, no checkpoint effect, so
    [announced] never changes. *)
Definition handlers_system : System Home Event :=
  {| sys_init := initialHome; sys_step := handle |}.

(** The two systems take the same steps on equivalent states. *)
Lemma handlers_simulate_home :
  simulates handlers_system home_system (≡).
Proof.
  intros e s1 s2 s1' HR Hstep. simpl in *. unfold step.
  destruct (handle_proper e _ _ HR) as [t1 t2 Ht|]; simplify_eq/=.
  eexists. split; [done|]. by rewrite settle_equiv.
Qed.

Lemma home_simulates_handlers :
  simulates home_system handlers_system (≡).
Proof.
  intros e s1 s2 s1' HR Hstep. simpl in *. unfold step in Hstep.
  destruct (handle_proper e _ _ HR) as [t1 t2 Ht|]; simplify_eq/=.
  eexists. split; [done|]. by rewrite settle_equiv.
Qed.

(** * Filling in the bracket *)

(** The seven clicks that fill in a bracket in round order, by the side
    picked in each match. *)
Definition picks (sides : list Side) : list Event :=
  zip_with (λ '(r, i) s, EvPick r i s)
    [ (RoundQF, 0); (RoundQF, 1); (RoundQF, 2); (RoundQF, 3);
      (RoundSF, 0); (RoundSF, 1); (RoundF, 0) ] sides.

(** Every match has two teams and a pick. *)
Definition complete (st : Home) : Prop :=
  Forall (λ m, full m ∧ is_Some (winner m)) (matches st).

#[export] Instance complete_dec st : Decision (complete st).
Proof. unfold complete. apply _. Defined.

#[export] Instance complete_proper : Proper ((≡) ==> iff) complete.
Proof. intros st st' Hst. unfold complete. by rewrite Hst. Qed.

(** The picks of a state are the given sides. *)
Definition picked (sides : list Side) (st : Home) : Prop :=
  Forall2 (λ s m, winner m = chosen s m) sides (matches st).

#[export] Instance picked_proper sides : Proper ((≡) ==> iff) (picked sides).
Proof. intros st st' Hst. unfold picked. by rewrite Hst. Qed.

Lemma sides_7 (sides : list Side) :
  length sides = 7%nat →
  ∃ a b c d e f g, sides = [a; b; c; d; e; f; g].
Proof.
  intros Hl. destruct sides as [|a [|b [|c [|d [|e [|f [|g [|]]]]]]]];
    simplify_eq/=. eauto 10.
Qed.

(** On the stores the run is a computation: the quarterfinal teams are
    the entrants, and nothing else of the state is read. *)
Lemma picks_handlers sides st :
  shaped st → seeding st → length sides = 7%nat →
  ∃ st', run (sys:=handlers_system) (picks sides) st = Some st' ∧
    complete st' ∧ picked sides st'.
Proof.
  intros Hsh [Hs _] (a & b & c & d & e & f & g & ->)%sides_7.
  shaped_cases st Hsh. destruct q0, q1, q2, q3, s0, s1, fm.
  unfold slots in Hs. simpl in Hs. simplify_eq.
  destruct a, b, c, d, e, f, g; (eexists; split; [vm_compute; reflexivity|]);
    (split; [unfold complete|unfold picked]); simpl; repeat constructor;
    by eexists.
Qed.

(** C20. Every bracket can be filled in from everywhere: in every reachable
    state, whatever was picked or simulated before, the seven clicks that
    pick a given side in each match, in round order, are all offered and
    carried out, and they end in a state where every match has two teams
    and the pick of the given side. *)
Theorem bracket_completable sides st :
  reachable (sys:=home_system) st → length sides = 7%nat →
  ∃ st', run (picks sides) st = Some st' ∧ complete st' ∧ picked sides st'.
Proof.
  intros Hr Hl.
  destruct (picks_handlers sides st) as (x & Hx & Hc & Hp);
    [by apply reachable_shaped_lemma|by apply seeding_reachable|done|].
  destruct (simulates_run _ _ _ (picks sides) st st x handlers_simulate_home)
    as (st' & Hst' & Heq); [done..|].
  exists st'. split_and!; [done|by rewrite <-Heq..].
Qed.

Lemma bracket_completable_witness :
  let st := after [EvSimulate (tape_of []); EvPick RoundQF 0 PickA] in
  let sides := [PickB; PickA; PickB; PickA; PickA; PickB; PickB] in
  reachable st ∧ length sides = 7%nat ∧
  ∃ st', run (picks sides) st = Some st' ∧ complete st' ∧ picked sides st'.
Proof.
  intros st sides.
  exact (conj (after_reachable _) (conj eq_refl
           (bracket_completable sides st (after_reachable _) eq_refl))).
Defined.

(** * The alerts of a run *)

(** The alerts a run shows, in order, with the state it ends in. *)
Fixpoint run_alerts (es : list Event) (st : Home) : option (list string * Home) :=
  match es with
  | [] => Some ([], st)
  | e :: es' =>
      st1 ← step e st;
      '(rest, st') ← run_alerts es' st1;
      Some (shown e st ++ rest, st')
  end.

Lemma run_alerts_run es st : snd <$> run_alerts es st = run es st.
Proof.
  revert st. induction es as [|e es IH]; intros st; simpl; [done|].
  destruct (step e st) as [st1|]; simpl; [|done]. rewrite <-IH.
  by destruct (run_alerts es st1) as [[]|].
Qed.

Lemma checkpointEffect_alerts st :
  (checkpointEffect st).1 = alerts (newlyReached (points st) (announced st)).
Proof.
  unfold checkpointEffect. case_decide as Hl; [done|]. simpl.
  destruct (newlyReached _ _); simpl in *; [done|lia].
Qed.

Lemma alerts_app (l k : list Z) : alerts (l ++ k) = alerts l ++ alerts k.
Proof. apply omap_app. Qed.

(** A step shows the alerts of the thresholds it appends to [announced]. *)
Lemma step_shown e st st' :
  step e st = Some st' →
  ∃ new, announced st' = announced st ++ new ∧ shown e st = alerts new.
Proof.
  unfold step, shown. destruct (handle e st) as [st1|] eqn:Hh; [|done].
  intros [= <-]. simpl. apply handle_announced in Hh as <-.
  eexists. split; [apply checkpointEffect_announced|apply checkpointEffect_alerts].
Qed.

Lemma run_alerts_announced es st msgs st' :
  run_alerts es st = Some (msgs, st') →
  ∃ new, announced st' = announced st ++ new ∧ msgs = alerts new.
Proof.
  revert st msgs. induction es as [|e es IH]; intros st msgs Hrun; simpl in *.
  - simplify_eq. exists []. by rewrite app_nil_r.
  - destruct (step e st) as [st1|] eqn:Hstep; [|done]. simpl in Hrun.
    destruct (run_alerts es st1) as [[rest st2]|] eqn:Hrest; simplify_eq/=.
    destruct (step_shown _ _ _ Hstep) as (new1 & Ha1 & ->).
    destruct (IH _ _ Hrest) as (new2 & Ha2 & ->).
    exists (new1 ++ new2). by rewrite alerts_app, Ha2, Ha1, (assoc_L (++)).
Qed.

(** C19. Each checkpoint is reported at most once in the life of the
    component: the alerts of a whole run from the initial state, in order,
    are the alerts of the thresholds announced at its end, which are an
    initial part of 6, 12, 18; so no alert is shown twice, whatever is
    picked, simulated again or reset in between. *)
Theorem alerts_once es msgs st :
  run_alerts es initialHome = Some (msgs, st) →
  msgs = alerts (announced st) ∧ announced st `prefix_of` [6; 12; 18] ∧
  NoDup msgs ∧ length msgs = length (announced st).
Proof.
  intros Hrun. destruct (run_alerts_announced _ _ _ _ Hrun) as (new & Ha & ->).
  simpl in Ha. subst new.
  assert (reachable st) as [Hp _]%announced_ok_reachable.
  { apply reachable_run. exists es. change (run es initialHome = Some st).
    by rewrite <-run_alerts_run, Hrun. }
  split; [done|]. split; [by rewrite <-thresholds_eq|].
  destruct (prefix_thresholds_cases _ Hp) as [->|[->|[->| ->]]];
    (split; [compute_done|done]).
Qed.

Lemma alerts_once_witness :
  let es := pickAllA ++ [EvSimulate (tape_of (replicate 7 PickA)); EvReset;
                         EvSimulate (tape_of [])] in
  ∃ msgs st, run_alerts es initialHome = Some (msgs, st) ∧
    msgs = alerts (announced st) ∧ announced st `prefix_of` [6; 12; 18] ∧
    NoDup msgs ∧ length msgs = length (announced st).
Proof.
  intros es.
  destruct (run_alerts es initialHome) as [[msgs st]|] eqn:Hrun;
    [|by vm_compute in Hrun].
  exists msgs, st. split; [done|]. exact (alerts_once es msgs st Hrun).
Defined.

(** * Simulating a complete bracket *)

Lemma simulated_full_decided m m' : simulated m m' → full m → decided m'.
Proof.
  intros [_ Hd] [[a Ha] [b Hb]]. unfold may_draw, decided in *.
  rewrite Ha, Hb in Hd. destruct Hd as [-> | ->]; by eexists.
Qed.

Lemma count_Forall {T} (P : T → Prop) `{!∀ x, Decision (P x)} (k : list T) :
  Forall P k → count P k = Z.of_nat (length k).
Proof.
  induction 1 as [|x k Hx _ IH]; [done|].
  rewrite count_cons, decide_True, IH by done. simpl. lia.
Qed.

Lemma handleSimulate_complete random st n :
  shaped st → complete st →
  points (handleSimulate random st n).1 =
    7 + 2 * count correct (matches (handleSimulate random st n).1).
Proof.
  intros Hsh Hc. pose proof (handleSimulate_Forall2 random st n) as Hsim.
  rewrite points_matches, sumZ_calc, (count_Forall decided).
  - rewrite <-(Forall2_length _ _ _ Hsim), matches_length by done. lia.
  - unfold complete in Hc. rewrite Forall_forall in Hc.
    eapply Forall2_Forall_r; [done|]. apply Forall_forall.
    intros m Hm m' Hmm'. eapply simulated_full_decided; [done|]. by apply Hc.
Qed.

(** C31. Simulating a complete bracket gives every match an outcome, so the
    total is 7 plus 2 for every correct pick, and the first checkpoint is
    announced whatever the draws are. *)
Theorem simulate_complete random st st' :
  reachable (sys:=home_system) st → complete st →
  step (EvSimulate random) st = Some st' →
  points st' = 7 + 2 * count correct (matches st') ∧ 6 ∈ announced st'.
Proof.
  intros Hr Hc Hstep.
  assert (reachable st') as [_ Hn]%announced_ok_reachable by (by eapply reach_step).
  pose proof (reachable_shaped_lemma st Hr) as Hsh.
  unfold step in Hstep. simpl in Hstep. case_decide; simplify_eq/=.
  pose proof (handleSimulate_complete random st 0 Hsh Hc) as Hpts.
  set (hs := (handleSimulate random st 0).1) in *.
  rewrite (points_proper _ _ (settle_equiv hs)) in Hn |- *.
  rewrite (matches_proper _ _ (settle_equiv hs)).
  split; [done|]. eapply newlyReached_nil_iff; [done|compute_done|].
  pose proof (count_range correct (matches hs)). lia.
Qed.

Lemma simulate_complete_witness :
  let random := tape_of (replicate 7 PickB) in
  let st := after pickAllA in
  let st' := after (pickAllA ++ [EvSimulate random]) in
  reachable st ∧ complete st ∧ step (EvSimulate random) st = Some st' ∧
  points st' = 7 + 2 * count correct (matches st') ∧ 6 ∈ announced st'.
Proof.
  intros random st st'.
  assert (complete st) as Hc by compute_done.
  exact (conj (after_reachable _) (conj Hc (conj eq_refl
           (simulate_complete random st st' (after_reachable _) Hc eq_refl)))).
Defined.
