(* ===== verification/Spec.v ===== *)
(** The specification of the bracket engine, as spec.md states it (sections
    3, 4 and 7): a tree of exactly seven matches, the commands
    [applyPick], [simulateAll] and [reset] with their typed errors, the
    score and the checkpoints.  Nothing here is taken from the source;
    [Refinement] relates the component to it.

    A tree is a function from the seven positions to their matches; two
    trees are equivalent when they agree at every position, and the
    commands respect this equivalence.  The side of a pick is typed, so
    [InvalidSide] cannot occur.  [spec_system] is the engine driven by its
    commands, each followed by the evaluation of the checkpoints. *)

From Stdlib Require Import ZArith Lia.
From stdpp Require Import base tactics option list numbers strings.
From stdpp Require Import functions finite.
From S2P Require Import Prelude Transition Entrants Bracket.

#[local] Open Scope Z_scope.

(** * The tree *)

(** The seven positions of the tree. *)
Inductive Position := QF1 | QF2 | QF3 | QF4 | SF1 | SF2 | Final.

#[export] Instance Position_eq_dec : EqDecision Position.
Proof. solve_decision. Defined.

Definition positions : list Position := [QF1; QF2; QF3; QF4; SF1; SF2; Final].

Lemma positions_NoDup : NoDup positions.
Proof. by apply (bool_decide_unpack _). Qed.

Lemma positions_all k : k ∈ positions.
Proof. destruct k; by apply (bool_decide_unpack _). Qed.

#[export] Instance Position_finite : Finite Position :=
  {| enum := positions; NoDup_enum := positions_NoDup; elem_of_enum := positions_all |}.

(** A match identifier as the commands receive it: a round and an index
    in the round.  Only seven of them name a position. *)
Definition resolve (r : Round) (i : Z) : option Position :=
  if decide (0 ≤ i) then
    match r with
    | RoundQF => [QF1; QF2; QF3; QF4] !! Z.to_nat i
    | RoundSF => [SF1; SF2] !! Z.to_nat i
    | RoundF => [Final] !! Z.to_nat i
    end
  else None.

(** [{ slotA?, slotB?, pick?, outcome? }]; the [id] is the position. *)
Record Node := mkNode {
  slotA : option Team;
  slotB : option Team;
  pick : option Team;
  result : option Team;
}.

#[export] Instance Node_eq_dec : EqDecision Node.
Proof. solve_decision. Defined.

Definition Tree : Type := Position → Node.

#[export] Instance Tree_equiv : Equiv Tree := pointwise_relation Position (=).

#[export] Instance Tree_equivalence : Equivalence (≡@{Tree}).
Proof. apply _. Qed.

#[export] Instance Tree_equiv_dec (t t' : Tree) : Decision (t ≡ t').
Proof. unfold equiv, Tree_equiv, pointwise_relation. apply _. Defined.

Definition empty_node : Node := mkNode None None None None.

(** A quarterfinal at creation. *)
Definition pairing (a b : Z) : Node :=
  mkNode (arr_get initialTeams a) (arr_get initialTeams b) None None.

(** The tree at creation: the quarterfinals hold the entrants pairwise,
    everything else is empty. *)
Definition create : Tree := λ k,
  match k with
  | QF1 => pairing 0 1 | QF2 => pairing 2 3
  | QF3 => pairing 4 5 | QF4 => pairing 6 7
  | _ => empty_node
  end.

(** * applyPick *)

Inductive Error := InvalidMatchReference | IncompleteMatch | InvalidSide.

#[export] Instance Error_eq_dec : EqDecision Error.
Proof. solve_decision. Defined.

(** The match a match feeds and the slot it feeds: the first match of a
    pair feeds slot A, the second slot B; the final feeds nothing. *)
Definition target (k : Position) : option (Position * Side) :=
  match k with
  | QF1 => Some (SF1, PickA) | QF2 => Some (SF1, PickB)
  | QF3 => Some (SF2, PickA) | QF4 => Some (SF2, PickB)
  | SF1 => Some (Final, PickA) | SF2 => Some (Final, PickB)
  | Final => None
  end.

Definition slot (s : Side) (n : Node) : option Team :=
  match s with PickA => slotA n | PickB => slotB n end.

Definition set_slot (s : Side) (w : option Team) (n : Node) : Node :=
  match s with
  | PickA => mkNode w (slotB n) (pick n) (result n)
  | PickB => mkNode (slotA n) w (pick n) (result n)
  end.

Definition set_pick (w : option Team) (n : Node) : Node :=
  mkNode (slotA n) (slotB n) w (result n).

Definition set_result (o : option Team) (n : Node) : Node :=
  mkNode (slotA n) (slotB n) (pick n) o.

(** Both positions are filled. *)
Definition complete_node (n : Node) : Prop :=
  is_Some (slotA n) ∧ is_Some (slotB n).

#[export] Instance complete_node_dec n : Decision (complete_node n).
Proof. unfold complete_node. apply _. Defined.

(** Clear the pick of every match downstream of [k].  [depth] bounds the
    length of the path; the tree has three levels, so 2 is enough. *)
Fixpoint clear_downstream (depth : nat) (k : Position) (t : Tree) : Tree :=
  match depth, target k with
  | S d, Some (k', _) => clear_downstream d k' (alter (set_pick None) k' t)
  | _, _ => t
  end.

(** [applyPick(matchId, side)]: record the pick, seed the target's slot,
    clear the target's pick and every pick downstream of it. *)
Definition applyPick (r : Round) (i : Z) (side : Side) (t : Tree) : Error + Tree :=
  match resolve r i with
  | None => inl InvalidMatchReference
  | Some k =>
      if decide (complete_node (t k)) then
        let w := slot side (t k) in
        let t1 := <[k := set_pick w (t k)]> t in
        inr match target k with
            | Some (k', s') =>
                clear_downstream 2 k'
                  (alter (set_pick None ∘ set_slot s' w) k' t1)
            | None => t1
            end
      else inl IncompleteMatch
  end.

(** * simulateAll *)

(** One match: a coin decides between the two occupants; a match with
    fewer than two is left with no outcome and uses no coin. *)
Definition simulateNode (coin : nat → Side) (n : Node) (c : nat) : Node * nat :=
  if decide (complete_node n)
  then (set_result (slot (coin c) n) n, S c)
  else (set_result None n, c).

(** [simulateAll()]: every match, in round order, each with its own coin;
    the second component counts the coins used. *)
Definition simulateAt (coin : nat → Side) (tc : Tree * nat) (k : Position) :
    Tree * nat :=
  let r := simulateNode coin (tc.1 k) tc.2 in (<[k := r.1]> tc.1, r.2).

Definition simulateAll (coin : nat → Side) (t : Tree) : Tree * nat :=
  foldl (simulateAt coin) (t, 0%nat) positions.

(** * Score and checkpoints *)

(** [score(m)]: 0 without outcome, 3 when the pick is the outcome, else 1. *)
Definition score (n : Node) : Z :=
  match result n with
  | None => 0
  | Some o => if decide (pick n = Some o) then 3 else 1
  end.

Definition total (t : Tree) : Z := foldr Z.add 0 (score ∘ t <$> positions).

(** [(total, alreadyAnnounced) -> newlyReached[]]. *)
Definition newly (pts : Z) (fired : list Z) : list Z :=
  filter (λ p, p ≤ pts ∧ p ∉ fired) [6; 12; 18].

(** [reset()]: the tree at creation, and no checkpoint announced. *)
Definition reset : Tree * list Z := (create, []).

(** * The engine as a system *)

(** The three commands of section 6. *)
Inductive Command :=
| ApplyPick (r : Round) (i : Z) (side : Side)
| SimulateAll (coin : nat → Side)
| ResetAll.

(** The state of the engine: the tree and the thresholds announced. *)
Definition Engine : Type := Tree * list Z.

(** Record the checkpoints newly reached by the total of a tree. *)
Definition announce (t : Tree) (fired : list Z) : Engine :=
  (t, fired ++ newly (total t) fired).

(** A command, followed by the evaluation of the checkpoints; [None]
    when [applyPick] rejects the pick. *)
Definition command (c : Command) (s : Engine) : option Engine :=
  match c with
  | ApplyPick r i side =>
      match applyPick r i side s.1 with
      | inr t' => Some (announce t' s.2)
      | inl _ => None
      end
  | SimulateAll coin => Some (announce (simulateAll coin s.1).1 s.2)
  | ResetAll => Some reset
  end.

#[export] Instance spec_system : System Engine Command :=
  {| sys_init := reset; sys_step := command |}.

(** * Facts about the specification *)

#[export] Instance clear_downstream_proper d k :
  Proper ((≡) ==> (≡)) (clear_downstream d k).
Proof.
  revert k. induction d as [|d IH]; intros k t t' Ht; simpl; [done|].
  destruct (target k) as [[k' s']|]; [|done]. apply IH. intros j.
  unfold alter, fn_alter. case_decide; by rewrite ?Ht.
Qed.

(** Depth 2 is enough: more changes nothing. *)
Lemma clear_downstream_depth d k t :
  clear_downstream (2 + d) k t ≡ clear_downstream 2 k t.
Proof. intros j. by destruct k, d. Qed.

#[export] Instance total_proper : Proper ((≡) ==> (=)) total.
Proof. intros t t' Ht. unfold total. simpl. by rewrite !Ht. Qed.

(** [applyPick] rejects a reference to no match and a match with an
    empty slot, and accepts everything else. *)
Lemma applyPick_error r i side t e :
  applyPick r i side t = inl e ↔
  match resolve r i with
  | None => e = InvalidMatchReference
  | Some k => ¬ complete_node (t k) ∧ e = IncompleteMatch
  end.
Proof.
  unfold applyPick. destruct (resolve r i) as [k|]; [|naive_solver].
  case_decide; naive_solver.
Qed.

(** After [applyPick] the pick is the occupant of the chosen slot, the
    target's slot holds it and the target's pick is empty (section 8). *)
Lemma applyPick_spec r i side t t' k :
  resolve r i = Some k → applyPick r i side t = inr t' →
  pick (t' k) = slot side (t k) ∧ slotA (t' k) = slotA (t k) ∧
  slotB (t' k) = slotB (t k) ∧
  match target k with
  | Some (k', s') => slot s' (t' k') = slot side (t k) ∧ pick (t' k') = None
  | None => True
  end.
Proof.
  unfold applyPick. intros ->. case_decide; [|done]. intros [= <-].
  destruct k, side; simpl; by repeat split.
Qed.

(** Two trees are equivalent when they agree along [positions]. *)
Lemma tree_equiv_positions (t t' : Tree) :
  t ≡ t' ↔ t <$> positions = t' <$> positions.
Proof.
  split.
  - intros Ht. apply list_fmap_ext. intros _ k _. apply Ht.
  - intros Heq k. by destruct k; simplify_eq/=.
Qed.

Lemma simulateAt_lookup coin tc k :
  (simulateAt coin tc k).1 k = (simulateNode coin (tc.1 k) tc.2).1.
Proof. unfold simulateAt. cbn [fst]. apply fn_lookup_insert. Qed.

Lemma simulateAt_cursor coin tc k :
  (simulateAt coin tc k).2 = (simulateNode coin (tc.1 k) tc.2).2.
Proof. reflexivity. Qed.

Lemma simulateAt_lookup_ne coin tc k j :
  k ≠ j → (simulateAt coin tc k).1 j = tc.1 j.
Proof. intros Hj. unfold simulateAt. cbn [fst]. by apply fn_lookup_insert_ne. Qed.

(** Simulating along a list leaves the other positions alone. *)
Lemma simulateAt_frame coin ks tc k :
  k ∉ ks → (foldl (simulateAt coin) tc ks).1 k = tc.1 k.
Proof.
  revert tc. induction ks as [|j ks IH]; intros tc Hk; [done|].
  apply not_elem_of_cons in Hk as [Hj Hk]. simpl.
  by rewrite IH, simulateAt_lookup_ne.
Qed.

(** A position of the list is simulated once, from the node it had. *)
Lemma simulateAt_visited coin ks tc k :
  NoDup ks → k ∈ ks →
  ∃ c, (foldl (simulateAt coin) tc ks).1 k = (simulateNode coin (tc.1 k) c).1.
Proof.
  revert tc. induction ks as [|j ks IH]; intros tc Hnd Hk.
  - by apply elem_of_nil in Hk.
  - apply NoDup_cons in Hnd as [Hj Hnd]. simpl.
    apply elem_of_cons in Hk as [->|Hk].
    + exists tc.2. by rewrite simulateAt_frame, simulateAt_lookup.
    + destruct (IH (simulateAt coin tc j) Hnd Hk) as [c ->]. exists c.
      rewrite simulateAt_lookup_ne; [done|]. by intros ->.
Qed.

(** A match without two occupants is left without an outcome. *)
Lemma simulateAll_incomplete coin t k :
  ¬ complete_node (t k) → result ((simulateAll coin t).1 k) = None.
Proof.
  intros Hc.
  destruct (simulateAt_visited coin positions (t, 0%nat) k) as [c Hk];
    [apply positions_NoDup|apply positions_all|].
  etrans; [exact (f_equal result Hk)|]. unfold simulateNode.
  by rewrite decide_False.
Qed.

(** [simulateAll] is one pass over the matches in round order. *)
Lemma simulateAt_map_st coin ks tc :
  NoDup ks →
  ((foldl (simulateAt coin) tc ks).1 <$> ks, (foldl (simulateAt coin) tc ks).2)
  = map_st (simulateNode coin) (tc.1 <$> ks) tc.2.
Proof.
  revert tc. induction ks as [|k ks IH]; intros tc Hnd; [done|].
  apply NoDup_cons in Hnd as [Hk Hnd].
  rewrite !fmap_cons, map_st_cons. cbn [foldl].
  rewrite simulateAt_frame, simulateAt_lookup by done.
  specialize (IH (simulateAt coin tc k) Hnd).
  rewrite (list_fmap_ext (simulateAt coin tc k).1 tc.1 ks) in IH.
  - by rewrite simulateAt_cursor in IH; rewrite <-IH.
  - intros _ j Hj%list_elem_of_lookup_2. apply simulateAt_lookup_ne.
    by intros ->.
Qed.

Lemma simulateAll_map_st coin t :
  ((simulateAll coin t).1 <$> positions, (simulateAll coin t).2)
  = map_st (simulateNode coin) (t <$> positions) 0%nat.
Proof. apply (simulateAt_map_st coin positions (t, 0%nat)), positions_NoDup. Qed.

(** The commands respect the equivalence of trees. *)
#[export] Instance fn_insert_proper (k : Position) (n : Node) :
  Proper ((≡) ==> (≡)) (insert (M:=Tree) k n).
Proof. intros t t' Ht j. unfold insert, fn_insert. case_decide; [done|apply Ht]. Qed.

#[export] Instance fn_alter_proper (f : Node → Node) (k : Position) :
  Proper ((≡) ==> (≡)) (alter (M:=Tree) f k).
Proof. intros t t' Ht j. unfold alter, fn_alter. case_decide; by rewrite ?Ht. Qed.

Lemma applyPick_proper r i side (t t' : Tree) :
  t ≡ t' →
  match applyPick r i side t, applyPick r i side t' with
  | inr u, inr u' => u ≡ u'
  | inl e, inl e' => e = e'
  | _, _ => False
  end.
Proof.
  intros Ht. unfold applyPick. destruct (resolve r i) as [k|]; [|done].
  rewrite <-(Ht k). case_decide; [|done].
  destruct (target k) as [[k' s']|].
  - by apply clear_downstream_proper, fn_alter_proper, fn_insert_proper.
  - by apply fn_insert_proper.
Qed.

Lemma simulateAt_proper coin ks (tc tc' : Tree * nat) :
  tc.1 ≡ tc'.1 → tc.2 = tc'.2 →
  (foldl (simulateAt coin) tc ks).1 ≡ (foldl (simulateAt coin) tc' ks).1 ∧
  (foldl (simulateAt coin) tc ks).2 = (foldl (simulateAt coin) tc' ks).2.
Proof.
  revert tc tc'. induction ks as [|k ks IH]; intros tc tc' Ht Hc; [done|].
  simpl. apply IH; unfold simulateAt; cbn [fst snd]; rewrite (Ht k), Hc; [|done].
  by apply fn_insert_proper.
Qed.

#[export] Instance simulateAll_proper coin :
  Proper ((≡) ==> (≡)) (λ t, (simulateAll coin t).1).
Proof. intros t t' Ht. by apply (simulateAt_proper coin positions (t, _) (t', _)). Qed.
