(* ===== verification/Refinement.v ===== *)
(** Refinement: the component implements the specification of [Spec] on
    the states and commands on which the two agree, and the theorems say
    exactly where they do not.  [abs_tree] is the tree a state of the
    component stands for.  A pick that the specification accepts is carried
    out by [handlePick], with the specified tree up to what [forget]
    erases; the references the specification rejects as unknown are those
    on which [handlePick] throws; a pick the specification rejects as
    incomplete is carried out nevertheless; [handleSimulate] draws the
    specified outcomes when no match has a single team; [points] is the
    specified total in every reachable state. *)

From Stdlib Require Import ZArith QArith Lia.
From stdpp Require Import base tactics option list numbers strings.
From stdpp Require Import functions finite.
From S2P Require Import Prelude Transition Entrants Bracket Propagation.
From S2P Require Import Scoring Simulation View App Spec.

#[local] Open Scope string_scope.
#[local] Open Scope list_scope.
#[local] Open Scope Z_scope.
#[local] Open Scope js_scope.

(** * The abstraction *)

Definition node_of (m : Match) : Node :=
  mkNode (teamA m) (teamB m) (winner m) (outcome m).

(** The match of a state at a position of the tree. *)
Definition match_at (st : Home) (k : Position) : option Match :=
  match k with
  | QF1 => arr_get (qf st) 0 | QF2 => arr_get (qf st) 1
  | QF3 => arr_get (qf st) 2 | QF4 => arr_get (qf st) 3
  | SF1 => arr_get (sf st) 0 | SF2 => arr_get (sf st) 1
  | Final => Some (finalMatch st)
  end.

(** The tree a state stands for (a hole of a store as an empty match). *)
Definition abs_tree (st : Home) : Tree := λ k,
  from_option node_of empty_node (match_at st k).

(** What a pick of the component does beyond the specification: a
    quarterfinal pick empties the final (the specification clears its
    pick only), a semifinal pick clears the outcome of the final. *)
Definition forget (r : Round) (t : Tree) : Tree :=
  match r with
  | RoundQF => <[Final := empty_node]> t
  | RoundSF => alter (set_result None) Final t
  | RoundF => t
  end.

(** The states in which this makes no difference. *)
Definition quiet (r : Round) (st : Home) : Prop :=
  match r with
  | RoundQF => teamA (finalMatch st) = None ∧ teamB (finalMatch st) = None ∧
               outcome (finalMatch st) = None
  | RoundSF => outcome (finalMatch st) = None
  | RoundF => True
  end.

#[export] Instance abs_tree_proper : Proper ((≡) ==> (≡)) abs_tree.
Proof. intros st st' (Hq & Hs & Hf) k. unfold abs_tree, match_at. by rewrite Hq, Hs, Hf. Qed.

Lemma abs_tree_initial : abs_tree initialHome ≡ create.
Proof. intros k. by destruct k. Qed.

(** The references that name a position. *)
Lemma resolve_is_Some r i :
  is_Some (resolve r i) ↔ valid_index r i ∧ (r = RoundF → i = 0).
Proof.
  unfold resolve. destruct (decide (0 ≤ i)) as [Hi|Hi].
  - destruct r; rewrite lookup_lt_is_Some; simpl; naive_solver lia.
  - split; [by intros []|]. destruct r; simpl; naive_solver lia.
Qed.

(** The positions a reference can name, by round and index. *)
Lemma resolve_cases r i k :
  resolve r i = Some k →
  (r, i, k) ∈ [ (RoundQF, 0, QF1); (RoundQF, 1, QF2); (RoundQF, 2, QF3);
                (RoundQF, 3, QF4); (RoundSF, 0, SF1); (RoundSF, 1, SF2);
                (RoundF, 0, Final) ].
Proof.
  intros Hk. assert (is_Some (resolve r i)) as [Hv Hf]%resolve_is_Some by eauto.
  destruct r; simpl in Hv.
  - index_cases i 0 4; vm_compute in Hk; simplify_eq; compute_done.
  - index_cases i 0 2; vm_compute in Hk; simplify_eq; compute_done.
  - rewrite Hf in * by done. vm_compute in Hk. simplify_eq. compute_done.
Qed.

(** * Picks *)

(** Evaluate a pick on both sides and compare the trees position by
    position. *)
Ltac refine_pick_eval :=
  eexists; split; [vm_compute; reflexivity|];
  split;
    [|unfold quiet; cbn [finalMatch teamA teamB outcome];
      first [intros (-> & -> & ->)|intros ->|intros _]];
  intros j; by destruct j.

(** The same for a pick in a match with two teams. *)
Ltac refine_pick s :=
  match goal with
  | H : complete_node _ |- _ => vm_compute in H; destruct H as [[? ->] [? ->]]
  end;
  destruct s; refine_pick_eval.

(** The component carries out every pick the specification accepts, with
    the specified tree up to [forget], and exactly in a quiet state. *)
Lemma handlePick_applyPick r i s st t' :
  shaped st → applyPick r i s (abs_tree st) = inr t' →
  ∃ st', handlePick r i s st = Some st' ∧
    abs_tree st' ≡ forget r t' ∧ (quiet r st → abs_tree st' ≡ t').
Proof.
  intros Hsh. unfold applyPick.
  destruct (resolve r i) as [k|] eqn:Hk; [|done].
  case_decide as Hc; [|done]. intros [= <-].
  shaped_cases st Hsh. destruct q0, q1, q2, q3, s0, s1, fm.
  apply resolve_cases in Hk.
  repeat (apply elem_of_cons in Hk as [[= -> -> ->]|Hk]);
    [refine_pick s..|by apply elem_of_nil in Hk].
Qed.

(** C12. [handlePick] implements [applyPick]: whenever the specification
    accepts a pick in the tree of a well-shaped state, the component carries
    it out, and the tree of the new state is the specified tree except that
    a quarterfinal pick has emptied the final and a semifinal pick has
    cleared the outcome of the final.  In a state where the final has
    nothing to lose (the first pass through a bracket) the two trees are
    the same. *)
Theorem handlePick_refines r i s st t' :
  shaped st → applyPick r i s (abs_tree st) = inr t' →
  ∃ st', handlePick r i s st = Some st' ∧
    abs_tree st' ≡ forget r t' ∧ (quiet r st → abs_tree st' ≡ t').
Proof. apply handlePick_applyPick. Qed.

Lemma handlePick_refines_witness :
  let st := after [EvPick RoundQF 0 PickA; EvPick RoundQF 1 PickB] in
  let t' := match applyPick RoundSF 0 PickB (abs_tree st) with
            | inr t => t
            | inl _ => create
            end in
  shaped st ∧ applyPick RoundSF 0 PickB (abs_tree st) = inr t' ∧
  ∃ st', handlePick RoundSF 0 PickB st = Some st' ∧
    abs_tree st' ≡ forget RoundSF t' ∧ (quiet RoundSF st → abs_tree st' ≡ t').
Proof.
  intros st t'.
  assert (shaped st) as Hsh by apply reachable_shaped_lemma, after_reachable.
  exact (conj Hsh (conj eq_refl
           (handlePick_refines RoundSF 0 PickB st t' Hsh eq_refl))).
Defined.

(** * Errors *)

(** C34. The references the specification rejects as [InvalidMatchReference]
    are those on which the component throws, and every index other than 0
    for the final, which the component accepts because it ignores the
    index. *)
Theorem handlePick_invalid_reference r i s st :
  shaped st →
  (applyPick r i s (abs_tree st) = inl InvalidMatchReference ↔
   handlePick r i s st = None ∨ (r = RoundF ∧ i ≠ 0)).
Proof.
  intros Hsh. rewrite applyPick_error, handlePick_crash_iff.
  pose proof (resolve_is_Some r i) as Hres.
  destruct (resolve r i) as [k|].
  - assert (valid_index r i ∧ (r = RoundF → i = 0)) as [Hv Hf] by (apply Hres; eauto).
    split; [naive_solver|]. intros [[Hr Hn]|[-> Hi]]; [|naive_solver].
    apply (shaped_store_get r i st Hsh Hr) in Hv as [m Hm]. congruence.
  - assert (¬ (valid_index r i ∧ (r = RoundF → i = 0))) as Hn.
    { intros H%Hres. by destruct H. }
    split; [intros _|done].
    destruct (decide (r = RoundF)) as [->|Hr].
    + right. split; [done|]. intros ->. by apply Hn.
    + left. split; [done|]. apply eq_None_not_Some.
      rewrite (shaped_store_get r i st Hsh Hr). naive_solver.
Qed.

Lemma handlePick_invalid_reference_witness :
  shaped initialHome ∧
  (applyPick RoundQF 7 PickA (abs_tree initialHome) = inl InvalidMatchReference ↔
   handlePick RoundQF 7 PickA initialHome = None ∨ (RoundQF = RoundF ∧ 7 ≠ 0)).
Proof.
  exact (conj initialHome_shaped
           (handlePick_invalid_reference RoundQF 7 PickA initialHome
              initialHome_shaped)).
Defined.

(** C35. The component accepts what the specification rejects as
    [IncompleteMatch]: a pick in a match with an empty slot is carried
    out. *)
Theorem handlePick_incomplete r i s st k :
  shaped st → resolve r i = Some k → ¬ complete_node (abs_tree st k) →
  applyPick r i s (abs_tree st) = inl IncompleteMatch ∧
  is_Some (handlePick r i s st).
Proof.
  intros Hsh Hk Hc. split.
  - apply applyPick_error. by rewrite Hk.
  - apply not_eq_None_Some. rewrite handlePick_crash_iff. intros [Hr Hn].
    assert (valid_index r i) as Hv by (apply resolve_is_Some; eauto).
    apply (shaped_store_get r i st Hsh Hr) in Hv as [m Hm]. congruence.
Qed.

Lemma handlePick_incomplete_witness :
  let st := after [EvPick RoundQF 0 PickA] in
  shaped st ∧ resolve RoundSF 0 = Some SF1 ∧ ¬ complete_node (abs_tree st SF1) ∧
  applyPick RoundSF 0 PickA (abs_tree st) = inl IncompleteMatch ∧
  is_Some (handlePick RoundSF 0 PickA st).
Proof.
  intros st.
  assert (shaped st) as Hsh by apply reachable_shaped_lemma, after_reachable.
  assert (¬ complete_node (abs_tree st SF1)) as Hc by compute_done.
  exact (conj Hsh (conj eq_refl (conj Hc
           (handlePick_incomplete RoundSF 0 PickA st SF1 Hsh eq_refl Hc)))).
Defined.

(** * Score and checkpoints *)

Lemma abs_tree_nodes st :
  shaped st → abs_tree st <$> positions = node_of <$> matches st.
Proof. intros Hsh. by shaped_cases st Hsh. Qed.

(** On entrants, comparing [id]s is comparing teams. *)
Lemma calc_score m : entrants_match m → calc (Some m) = score (node_of m).
Proof.
  intros (_ & _ & Hw & Ho). unfold calc, score, node_of. cbn [result pick].
  destruct (outcome m) as [o|]; [|done]. destruct (winner m) as [w|].
  - destruct (decide (team_id w = team_id o)) as [Hid|Hid].
    + rewrite (entrant_id_inj w o) by done. by rewrite decide_True.
    + rewrite decide_False; [done|]. by intros [= ->].
  - by rewrite decide_False.
Qed.

(** The total of a reachable state is the total of its tree. *)
Lemma points_total st :
  reachable (sys:=home_system) st → points st = total (abs_tree st).
Proof.
  intros Hr. pose proof (reachable_shaped_lemma st Hr) as Hsh.
  apply entrants_only_reachable in Hr. unfold total.
  rewrite points_matches, (list_fmap_compose (abs_tree st) score),
    abs_tree_nodes by done.
  rewrite <-list_fmap_compose. f_equal.
  unfold entrants_only in Hr. induction Hr as [|m k Hm _ IH]; [done|].
  rewrite !fmap_cons, IH. f_equal. by apply calc_score.
Qed.

(** C23. [points] is the total of the specification in every reachable
    state: the source compares the [id]s of pick and outcome, the
    specification the entrants, and in a reachable state all teams are
    entrants, whose [id]s differ. *)
Theorem points_refines st :
  reachable (sys:=home_system) st → points st = total (abs_tree st).
Proof. apply points_total. Qed.

Lemma points_refines_witness :
  let st := after (pickAllA ++ [EvSimulate (tape_of (replicate 4 PickA))]) in
  reachable st ∧ points st = total (abs_tree st).
Proof.
  intros st. exact (conj (after_reachable _) (points_refines st (after_reachable _))).
Defined.

(** The checkpoints newly reached are those of the specification. *)
Lemma newlyReached_refines pts ann : newlyReached pts ann = newly pts ann.
Proof. by rewrite newlyReached_filter, thresholds_eq. Qed.

(** * Simulation *)

(** A match with two teams or with none: the matches for which the
    component and the specification draw the same outcome. *)
Definition paired (m : Match) : Prop :=
  full m ∨ (teamA m = None ∧ teamB m = None).

#[export] Instance paired_dec m : Decision (paired m).
Proof. unfold paired. apply _. Defined.

Lemma simulateMatch_refines random m c :
  paired m →
  simulateNode (drawn ∘ random) (node_of m) c =
    (node_of (simulateMatch random m c).1, (simulateMatch random m c).2).
Proof.
  destruct m as [i a b w o]. unfold paired, full. cbn [teamA teamB].
  intros [[[x ->] [y ->]]|[-> ->]]; rewrite simulateMatch_eq; unfold simulateNode.
  - rewrite decide_True by (split; by eexists). unfold pickRandom, drawn. cbn.
    by destruct (Qlt_le_dec (random c) (1 # 2)).
  - by rewrite decide_False by (by intros [[] _]).
Qed.

(** The match at a position after a simulation. *)
Lemma match_at_simulated random st k m :
  shaped st → match_at st k = Some m →
  ∃ o, match_at (handleSimulate random st 0).1 k = Some (set_outcome o m) ∧
       may_draw m o.
Proof.
  intros Hsh Hm. simulate_cases st random Hsh.
  destruct k; vm_compute in Hm; simplify_eq; by eexists.
Qed.

(** Simulation of paired matches draws the specified outcomes. *)
Lemma handleSimulate_simulateAll random st :
  shaped st → Forall paired (matches st) →
  abs_tree (handleSimulate random st 0).1 ≡
    (simulateAll (drawn ∘ random) (abs_tree st)).1 ∧
  (handleSimulate random st 0).2 = (simulateAll (drawn ∘ random) (abs_tree st)).2.
Proof.
  intros Hsh Hp.
  pose proof (simulateAll_map_st (drawn ∘ random) (abs_tree st)) as Hspec.
  rewrite abs_tree_nodes in Hspec by done.
  rewrite (map_st_fmap (simulateMatch random) _ node_of node_of) in Hspec.
  - fold (simulateList random (matches st) 0) in Hspec.
    rewrite <-handleSimulate_matches in Hspec. cbn [fst snd] in Hspec.
    rewrite <-abs_tree_nodes in Hspec by apply handleSimulate_shaped, Hsh.
    split; [apply tree_equiv_positions|]; symmetry.
    + exact (f_equal fst Hspec).
    + exact (f_equal snd Hspec).
  - eapply Forall_impl; [done|]. intros m Hm c. by apply simulateMatch_refines.
Qed.

(** C24. [handleSimulate] implements [simulateAll] when no match has a
    single team: the same outcomes from the same draws, and the same
    number of draws.  (With a single team the component makes that team the
    outcome and the specification none.) *)
Theorem handleSimulate_refines random st :
  shaped st → Forall paired (matches st) →
  abs_tree (handleSimulate random st 0).1 ≡
    (simulateAll (drawn ∘ random) (abs_tree st)).1 ∧
  (handleSimulate random st 0).2 = (simulateAll (drawn ∘ random) (abs_tree st)).2.
Proof. apply handleSimulate_simulateAll. Qed.

Lemma handleSimulate_refines_witness :
  let st := after pickAllA in
  let random := tape_of [PickB; PickA; PickB] in
  shaped st ∧ Forall paired (matches st) ∧
  abs_tree (handleSimulate random st 0).1 ≡
    (simulateAll (drawn ∘ random) (abs_tree st)).1 ∧
  (handleSimulate random st 0).2 = (simulateAll (drawn ∘ random) (abs_tree st)).2.
Proof.
  intros st random.
  assert (shaped st) as Hsh by apply reachable_shaped_lemma, after_reachable.
  assert (Forall paired (matches st)) as Hp by compute_done.
  exact (conj Hsh (conj Hp (handleSimulate_refines random st Hsh Hp))).
Defined.

(** [handleReset] gives the tree at creation; it is the specified reset
    exactly when nothing had been announced. *)
Lemma handleReset_refines st :
  abs_tree (handleReset st) ≡ create ∧
  ((abs_tree (handleReset st) ≡ reset.1 ∧ announced (handleReset st) = reset.2)
   ↔ announced st = []).
Proof.
  assert (abs_tree (handleReset st) ≡ create) as Ht by (intros k; by destruct k).
  split; [done|]. simpl. naive_solver.
Qed.
