(* ===== verification/Conformance.v ===== *)
(** Conformance: the component run as a whole against the specification
    run as a whole.  [spec_system] of [Spec] is the engine of the
    specification driven by its three commands; [conforming_system] is the
    component restricted to the events on which [Refinement] shows the two
    to agree (a pick in a match with two teams while the final has nothing
    to lose, a simulation when no match has a single team, a reset when
    nothing is announced).  Every conforming run of the component is,
    command by command, a run of the specification with the same tree, the
    same announcements and the same total; filling in a bracket in round
    order and simulating it is such a run. *)

From Stdlib Require Import ZArith QArith Lia.
From stdpp Require Import base tactics option list numbers strings.
From stdpp Require Import functions finite.
From S2P Require Import Prelude Transition Entrants Bracket Propagation.
From S2P Require Import Scoring Simulation View App Runs Spec Refinement.

#[local] Open Scope string_scope.
#[local] Open Scope list_scope.
#[local] Open Scope Z_scope.
#[local] Open Scope js_scope.

(** The command an event stands for; the coin of a simulation is the
    comparison of the draw with one half. *)
Definition command_of (e : Event) : Command :=
  match e with
  | EvPick r i s => ApplyPick r i s
  | EvSimulate random => SimulateAll (drawn ∘ random)
  | EvReset => ResetAll
  end.

(** The events on which the component does what the specification says. *)
Definition conforms (e : Event) (st : Home) : Prop :=
  match e with
  | EvPick r i s =>
      quiet r st ∧
      from_option (λ k, complete_node (abs_tree st k)) False (resolve r i)
  | EvSimulate _ => Forall paired (matches st)
  | EvReset => announced st = []
  end.

#[export] Instance quiet_dec r st : Decision (quiet r st).
Proof. destruct r; apply _. Defined.

#[export] Instance conforms_dec e st : Decision (conforms e st).
Proof.
  destruct e as [r i s| |random]; simpl; [|apply _..].
  destruct (resolve r i); simpl; apply _.
Defined.

(** The component, refusing the events that do not conform. *)
Definition conforming_step (e : Event) (st : Home) : option Home :=
  if decide (conforms e st) then step e st else None.

Definition conforming_system : System Home Event :=
  {| sys_init := initialHome; sys_step := conforming_step |}.

(** A reachable state and the engine state it stands for. *)
Definition abstracts (st : Home) (s : Engine) : Prop :=
  reachable (sys:=home_system) st ∧ abs_tree st ≡ s.1 ∧ announced st = s.2.

Section conformance.
Implicit Types (st : Home) (s : Engine) (e : Event) (t u : Tree).

(** The effect after a handler is the evaluation of the checkpoints after
    a command. *)
Lemma settle_announce e st st1 s u :
  abstracts st s → handle e st = Some st1 → abs_tree st1 ≡ u →
  abstracts (settle st1) (announce u s.2).
Proof.
  intros (Hr & _ & Hann) Hh Hu.
  assert (reachable (sys:=home_system) (settle st1)) as Hr'.
  { eapply reach_step; [done|]. simpl. unfold step. by rewrite Hh. }
  pose proof (settle_equiv st1) as Heq.
  split_and!; [done|by rewrite Heq|]. simpl.
  assert (total u = points st1) as ->.
  { rewrite <-(total_proper _ _ Hu), <-(points_proper _ _ Heq), (points_total _ Hr').
    apply total_proper, abs_tree_proper. by symmetry. }
  unfold settle. rewrite checkpointEffect_announced, newlyReached_refines.
  by rewrite (handle_announced _ _ _ Hh), Hann.
Qed.

(** Every conforming step is the step of its command. *)
Lemma conforming_simulates :
  simulates_by conforming_system spec_system abstracts (λ e, [command_of e]).
Proof.
  intros e st s st' Habs Hstep. simpl in Hstep. unfold conforming_step in Hstep.
  case_decide as Hc; [|done]. unfold step in Hstep.
  destruct (handle e st) as [st1|] eqn:Hh; simplify_eq/=.
  pose proof Habs as (Hr & Ht & Hann).
  pose proof (reachable_shaped_lemma st Hr) as Hsh.
  cut (∃ u, command (command_of e) s = Some (announce u s.2) ∧ abs_tree st1 ≡ u).
  { intros (u & -> & Hu). eexists. split; [done|].
    by eapply settle_announce. }
  destruct e as [r i side| |random]; simpl in *.
  - destruct Hc as [Hq Hk]. case_decide; [|done].
    destruct (resolve r i) as [k|] eqn:Hres; [|done]. simpl in Hk.
    pose proof (applyPick_proper r i side _ _ Ht) as Hp.
    destruct (applyPick r i side (abs_tree st)) as [err|t'] eqn:Ha.
    { apply applyPick_error in Ha. rewrite Hres in Ha. by destruct Ha. }
    destruct (applyPick r i side s.1) as [|u]; [done|].
    destruct (handlePick_applyPick r i side st t' Hsh Ha) as (st2 & Hst2 & _ & Hex).
    exists u. split; [done|]. rewrite <-Hp. simplify_eq. by apply Hex.
  - case_decide; simplify_eq. exists create. split.
    + unfold announce, reset. rewrite <-Hann, Hc. do 2 f_equal.
    + apply (proj1 (handleReset_refines st)).
  - case_decide; simplify_eq. eexists. split; [done|].
    destruct (handleSimulate_simulateAll random st Hsh Hc) as [-> _].
    by apply simulateAll_proper.
Qed.

End conformance.

Section runs.
Implicit Types (st : Home) (s : Engine) (es : list Event).

Lemma abstracts_initial : abstracts initialHome reset.
Proof.
  split_and!; [exact (reach_init (sys:=home_system))|apply abs_tree_initial|done].
Qed.

(** A conforming run is a run of the component. *)
Lemma conforming_run_home es st0 st :
  run (sys:=conforming_system) es st0 = Some st →
  run (sys:=home_system) es st0 = Some st.
Proof.
  revert st0. induction es as [|e es IH]; intros st0; simpl; [done|].
  unfold conforming_step. case_decide; [|done].
  destruct (step e st0); simpl; eauto.
Qed.

(** A conforming run is a run of the specification, command by command. *)
Lemma conforming_run_spec es st :
  run (sys:=conforming_system) es initialHome = Some st →
  ∃ s, run (sys:=spec_system) (command_of <$> es) reset = Some s ∧
       abstracts st s ∧ points st = total s.1.
Proof.
  intros Hrun.
  destruct (simulates_by_run _ _ _ _ es _ _ _ conforming_simulates
              abstracts_initial Hrun) as (s & Hs & Habs).
  exists s. rewrite <-(bind_fmap_singleton command_of). split; [done|].
  split; [done|]. destruct Habs as (Hr & Ht & _).
  by rewrite (points_total st Hr), (total_proper _ _ Ht).
Qed.

(** Filling in a bracket in round order conforms. *)
Lemma picks_conform sides :
  length sides = 7%nat →
  ∃ st, run (sys:=conforming_system) (picks sides) initialHome = Some st ∧
        complete st.
Proof.
  intros (a & b & c & d & e & f & g & ->)%sides_7.
  destruct a, b, c, d, e, f, g;
    (eexists; split; [vm_compute; reflexivity|compute_done]).
Qed.

End runs.

(** * The component against the specification *)

(** C13. Every conforming run of the component is a run of the
    specification: the commands of its events are all accepted, and they
    lead to the tree the final state stands for, to the same
    announcements and to the same total. *)
Theorem conforming_refines es st :
  run (sys:=conforming_system) es initialHome = Some st →
  run (sys:=home_system) es initialHome = Some st ∧
  ∃ s, run (sys:=spec_system) (command_of <$> es) reset = Some s ∧
       abs_tree st ≡ s.1 ∧ announced st = s.2 ∧ points st = total s.1.
Proof.
  intros Hrun. split; [by apply conforming_run_home|].
  destruct (conforming_run_spec es st Hrun) as (s & Hs & (_ & Ht & Ha) & Hp).
  by exists s.
Qed.

Lemma conforming_refines_witness :
  let es := [EvReset; EvPick RoundQF 0 PickB; EvPick RoundQF 1 PickA;
             EvSimulate (tape_of [PickB]); EvPick RoundSF 0 PickA] in
  let st := after es in
  run (sys:=conforming_system) es initialHome = Some st ∧
  run (sys:=home_system) es initialHome = Some st ∧
  ∃ s, run (sys:=spec_system) (command_of <$> es) reset = Some s ∧
       abs_tree st ≡ s.1 ∧ announced st = s.2 ∧ points st = total s.1.
Proof.
  intros es st.
  assert (run (sys:=conforming_system) es initialHome = Some st) as Hrun
    by (vm_compute; reflexivity).
  exact (conj Hrun (conforming_refines es st Hrun)).
Defined.

(** C21. A bracket filled in round order and then simulated is computed as
    the specification says: for any seven sides and any draws, the seven
    picks and the simulation are carried out by the component and accepted
    by the specification, and the two end with the same tree, the same
    announcements and the same total. *)
Theorem ordered_bracket_refines sides random :
  length sides = 7%nat →
  ∃ st s,
    run (sys:=home_system) (picks sides ++ [EvSimulate random]) initialHome
      = Some st ∧
    run (sys:=spec_system)
      (command_of <$> picks sides ++ [EvSimulate random]) reset = Some s ∧
    abs_tree st ≡ s.1 ∧ announced st = s.2 ∧ points st = total s.1.
Proof.
  intros (st1 & Hrun1 & Hc)%picks_conform.
  pose proof (state_after_reachable _ _ (conforming_run_home _ _ _ Hrun1)) as Hr.
  assert (conforms (EvSimulate random) st1) as Hconf.
  { eapply Forall_impl; [exact Hc|]. intros m [Hm _]. by left. }
  assert (∃ st, run (sys:=conforming_system) (picks sides ++ [EvSimulate random])
                  initialHome = Some st) as [st Hrun].
  { rewrite run_app, Hrun1. simpl. unfold conforming_step.
    rewrite decide_True by done. unfold step. simpl.
    rewrite decide_True by apply render_shaped, reachable_shaped_lemma, Hr.
    by eexists. }
  destruct (conforming_run_spec _ st Hrun) as (s & Hs & (_ & Ht & Ha) & Hp).
  exists st, s. split_and!; [by apply conforming_run_home|done..].
Qed.

Lemma ordered_bracket_refines_witness :
  let sides := [PickA; PickB; PickB; PickA; PickB; PickA; PickB] in
  let random := tape_of [PickA; PickA; PickB; PickA; PickB; PickA; PickA] in
  length sides = 7%nat ∧
  ∃ st s,
    run (sys:=home_system) (picks sides ++ [EvSimulate random]) initialHome
      = Some st ∧
    run (sys:=spec_system)
      (command_of <$> picks sides ++ [EvSimulate random]) reset = Some s ∧
    abs_tree st ≡ s.1 ∧ announced st = s.2 ∧ points st = total s.1.
Proof.
  intros sides random.
  exact (conj eq_refl (ordered_bracket_refines sides random eq_refl)).
Defined.
