(* ===== verification/Departures.v ===== *)
(** Where the component departs from the specification, as properties of
    every reachable state: a semifinal keeps an outcome that is none of its
    teams, a semifinal pick loses its place in the final, a match with one
    team is simulated, Reset keeps the announced checkpoints, and the alert
    that says all picks are right is shown with six of seven.  Each theorem
    says when the departure happens; its witness is a run that ends in such
    a state. *)

From Stdlib Require Import ZArith QArith Lia.
From stdpp Require Import base tactics option list numbers strings.
From S2P Require Import Prelude Transition Entrants Bracket Propagation.
From S2P Require Import Scoring Simulation View App Runs Spec Refinement.

#[local] Open Scope string_scope.
#[local] Open Scope list_scope.
#[local] Open Scope Z_scope.
#[local] Open Scope js_scope.

(** * What can be wrong with a state *)

(** The outcome of the match is none of its occupants. *)
Definition stale (m : Match) : Prop :=
  is_Some (outcome m) ∧ ¬ occupant_or_none (outcome m) m.

(** Semifinal [j] has a pick, and the slot of the final it feeds is
    empty. *)
Definition stranded (st : Home) (j : Z) : Prop :=
  ∃ s, arr_get (sf st) j = Some s ∧ is_Some (winner s) ∧
       chosen (slotOf (bool_decide (j = 0))) (finalMatch st) = None.

(** The only team of a match with one empty slot. *)
Definition lone (m : Match) : option Team :=
  match teamA m, teamB m with
  | Some t, None | None, Some t => Some t
  | _, _ => None
  end.

(** The alert of threshold [p] is among the messages. *)
Definition alerted (p : Z) (msgs : list string) : Prop :=
  ∃ c, checkpointOf p = Some c ∧ message c ∈ msgs.

#[export] Instance stale_dec m : Decision (stale m).
Proof. unfold stale. apply _. Defined.

(** * Facts about reachable states *)

Section reachable_states.
Implicit Types (st : Home) (m q s : Match) (i j : Z) (pick : Side).

Lemma sf_matches st j s : arr_get (sf st) j = Some s → s ∈ matches st.
Proof.
  intros Hs. unfold matches. rewrite !elem_of_app. right; left.
  apply list_elem_of_omap. exists (Some s). split; [|done].
  unfold arr_get in Hs. case_decide; [|done].
  destruct (sf st !! Z.to_nat j) as [o|] eqn:Hj; simplify_eq/=.
  by eapply list_elem_of_lookup_2.
Qed.

(** In a wired state a pick is the team of one of the two sides. *)
Lemma wired_pick_side st m :
  wired st → shaped st → m ∈ matches st → is_Some (winner m) →
  ∃ side, chosen side m = winner m.
Proof.
  intros Hw Hsh Hm [w Hwm]. shaped_cases st Hsh. unfold wired in Hw.
  destruct Hw as (_ & _ & _ & _ & _ & _ & Hw).
  rewrite Forall_forall in Hw. specialize (Hw m Hm).
  rewrite Hwm in Hw. destruct Hw as [|[Ha|Hb]]; [done|..].
  - exists PickA. by rewrite Hwm.
  - exists PickB. by rewrite Hwm.
Qed.

(** A quarterfinal button is offered in every reachable state. *)
Lemma quarterfinal_offered st i pick :
  reachable (sys:=home_system) st → 0 ≤ i < 4 → offered st (RoundQF, i, pick).
Proof.
  intros Hr Hi. pose proof (reachable_shaped_lemma st Hr) as Hsh.
  destruct (seeding_reachable st Hr) as [Hs _].
  apply offered_shaped; [done|]. shaped_cases st Hsh.
  destruct q0, q1, q2, q3. unfold slots in Hs. simpl in Hs. simplify_eq.
  index_cases i 0 4; destruct pick; by eexists.
Qed.

(** A step that picks in a quarterfinal is the handler followed by the
    effect. *)
Lemma quarterfinal_step st i pick :
  reachable (sys:=home_system) st → 0 ≤ i < 4 →
  ∃ st1, handlePick RoundQF i pick st = Some st1 ∧
         step (EvPick RoundQF i pick) st = Some (settle st1).
Proof.
  intros Hr Hi. pose proof (reachable_shaped_lemma st Hr) as Hsh.
  pose proof (quarterfinal_offered st i pick Hr Hi) as Hoff.
  destruct (offered_handle st _ _ _ Hsh Hoff) as [st1 Hh].
  exists st1. unfold step. rewrite Hh. split; [|done].
  simpl in Hh. by rewrite decide_True in Hh.
Qed.

(** The pick of a quarterfinal is in its slot of the semifinal and not in
    the slot that the other quarterfinal of the pair feeds. *)
Lemma sibling_slot st i q s :
  reachable (sys:=home_system) st →
  arr_get (qf st) i = Some q → arr_get (sf st) (i / 2) = Some s →
  is_Some (winner q) →
  chosen (slotOf (bool_decide (i mod 2 = 0))) s = winner q ∧
  chosen (slotOf (negb (bool_decide (i mod 2 = 0)))) s ≠ winner q.
Proof.
  intros Hr Hq Hs Hw.
  pose proof (arr_get_Some_bounds _ _ _ Hq) as Hi.
  pose proof (reachable_shaped_lemma st Hr) as Hsh.
  pose proof (wired_reachable st Hr) as Hwd.
  destruct (seeding_reachable st Hr) as [Hsl _].
  shaped_cases st Hsh. unfold wired, matches, slots, occupant_or_none in *.
  simpl in *. destruct Hwd as (Ha0 & Hb0 & Ha1 & Hb1 & _ & _ & Hwd).
  rewrite !Forall_cons in Hwd.
  destruct Hwd as (Hq0 & Hq1 & Hq2 & Hq3 & _).
  injection Hsl as Ht0a Ht0b Ht1a Ht1b Ht2a Ht2b Ht3a Ht3b.
  index_cases i 0 4; vm_compute in Hq, Hs; simplify_eq; simpl;
    (split; [done|]); destruct Hw as [w Hw]; rewrite Hw in *; clear Hr Hsh;
    intros Heq; rewrite ?Ha0, ?Hb0, ?Ha1, ?Hb1 in *;
    rewrite Ht0a, Ht0b, Ht1a, Ht1b, Ht2a, Ht2b, Ht3a, Ht3b in *;
    rewrite Heq in *; vm_compute in Hq0, Hq1, Hq2, Hq3; naive_solver.
Qed.

(** Reset leaves the effect nothing to report. *)
Lemma handleReset_settled st : settle (handleReset st) = handleReset st.
Proof.
  unfold settle. rewrite checkpointEffect_settled; [done|].
  apply newlyReached_nil_iff. intros p Hp. rewrite thresholds_eq in Hp.
  change (points (handleReset st)) with 0.
  repeat (apply elem_of_cons in Hp as [->|Hp]; [lia|]).
  by apply elem_of_nil in Hp.
Qed.

Lemma may_draw_lone m o t : may_draw m o → lone m = Some t → o = Some t.
Proof.
  unfold may_draw, lone. destruct (teamA m), (teamB m); naive_solver.
Qed.

(** The alerts of a list of thresholds are the alerts of its members. *)
Lemma alerted_alerts p (l : list Z) :
  alerted p (alerts l) ↔ p ∈ l ∧ is_Some (checkpointOf p).
Proof.
  unfold alerted, alerts. split.
  - intros (c & Hc & Hin). split; [|by eexists].
    apply list_elem_of_omap in Hin as (p' & Hp' & Hm).
    destruct (checkpointOf p') as [c'|] eqn:Hc'; simplify_eq/=.
    apply checkpointOf_Some in Hc as [Hc <-].
    apply checkpointOf_Some in Hc' as [Hc' <-].
    by rewrite <-(message_inj c' c).
  - intros [Hp [c Hc]]. exists c. split; [done|].
    apply list_elem_of_omap. exists p. by rewrite Hc.
Qed.

End reachable_states.

(** * A semifinal with the outcome of a team that has left *)

(** C36. Changing a quarterfinal pick leaves a stale outcome behind.  In a
    reachable state where a semifinal has been simulated and its outcome
    is the team the quarterfinal sent, a click on the other team of the
    quarterfinal replaces the slot and keeps the outcome
    ([sfPropagateUpdater] spreads the target): the semifinal then has an
    outcome that is neither of its teams, and counts one point. *)
Theorem repick_strands_outcome st i pick q s :
  reachable (sys:=home_system) st →
  arr_get (qf st) i = Some q → arr_get (sf st) (i / 2) = Some s →
  is_Some (winner q) → outcome s = winner q → chosen pick q ≠ winner q →
  ∃ st' s', step (EvPick RoundQF i pick) st = Some st' ∧
    arr_get (sf st') (i / 2) = Some s' ∧
    outcome s' = outcome s ∧ stale s' ∧ calc (Some s') = 1.
Proof.
  intros Hr Hq Hs Hw Ho Hne.
  pose proof (reachable_shaped_lemma st Hr) as Hsh.
  assert (0 ≤ i < 4) as Hi
    by (pose proof (arr_get_Some_bounds _ _ _ Hq); by shaped_cases st Hsh).
  destruct (quarterfinal_step st i pick Hr Hi) as (st1 & Hp & Hstep).
  destruct (sibling_slot st i q s Hr Hq Hs Hw) as [Hmine Hsib].
  exists (settle st1). destruct (settle_equiv st1) as (_ & -> & _).
  destruct (handlePick_qf_semifinal i pick st st1 Hsh Hp)
    as (q' & s' & Hq' & Hs' & Hnew & _).
  assert (q' = q) as -> by congruence. assert (s' = s) as -> by congruence.
  eexists. split; [done|]. split; [done|]. split; [done|].
  destruct Hw as [w Hw]. rewrite Hw in *.
  unfold stale, occupant_or_none, seededBy, calc. simpl. rewrite Ho.
  split; [|done]. split; [by eexists|].
  destruct (bool_decide (i mod 2 = 0)); simpl in *; naive_solver.
Qed.

Lemma repick_strands_outcome_witness :
  let st := after [ EvPick RoundQF 0 PickA; EvPick RoundQF 1 PickA;
                    EvSimulate (tape_of (replicate 5 PickA)) ] in
  let t := arr_get initialTeams 0 in
  let q := set_outcome t (set_winner t (seeded "QF1" 0 1)) in
  let s := mkMatch "SF1" t (arr_get initialTeams 2) None t in
  reachable st ∧
  arr_get (qf st) 0 = Some q ∧ arr_get (sf st) (0 / 2) = Some s ∧
  is_Some (winner q) ∧ outcome s = winner q ∧ chosen PickB q ≠ winner q ∧
  ∃ st' s', step (EvPick RoundQF 0 PickB) st = Some st' ∧
    arr_get (sf st') (0 / 2) = Some s' ∧
    outcome s' = outcome s ∧ stale s' ∧ calc (Some s') = 1.
Proof.
  intros st t q s.
  assert (is_Some (winner q)) as Hw by (by eexists).
  assert (chosen PickB q ≠ winner q) as Hne by done.
  exact (conj (after_reachable _) (conj eq_refl (conj eq_refl (conj Hw
           (conj eq_refl (conj Hne
              (repick_strands_outcome st 0 PickB q s (after_reachable _)
                 eq_refl eq_refl Hw eq_refl Hne))))))).
Defined.

(** * A semifinal pick without its place in the final *)

(** C37. A quarterfinal pick strands the pick of the semifinal of the other
    half.  That semifinal is not touched and keeps its pick, but the final
    is replaced by [{ id }], so the slot the semifinal had filled is empty
    and the final offers no button.  The pick comes back only when the
    user clicks the pressed button of the semifinal again: that click
    changes nothing in the semifinals and fills the slot. *)
Theorem quarterfinal_pick_strands_semifinal st i pick s :
  reachable (sys:=home_system) st → 0 ≤ i < 4 →
  arr_get (sf st) (1 - i / 2) = Some s → is_Some (winner s) →
  ∃ st', step (EvPick RoundQF i pick) st = Some st' ∧
    stranded st' (1 - i / 2) ∧
    (∀ side, ¬ offered st' (RoundF, 0, side)) ∧
    ∃ side st'', step (EvPick RoundSF (1 - i / 2) side) st' = Some st'' ∧
      sf st'' = sf st' ∧
      chosen (slotOf (bool_decide (1 - i / 2 = 0))) (finalMatch st'')
      = winner s.
Proof.
  intros Hr Hi Hs Hw. set (j := 1 - i / 2) in *.
  assert (j = 1 - i / 2) as Hj by done. clearbody j.
  pose proof (reachable_shaped_lemma st Hr) as Hsh.
  destruct (quarterfinal_step st i pick Hr Hi) as (st1 & Hp & Hstep).
  assert (reachable (settle st1)) as Hr' by (by eapply reach_step).
  pose proof (reachable_shaped_lemma _ Hr') as Hsh'.
  destruct (handlePick_qf_semifinal i pick st st1 Hsh Hp)
    as (_ & _ & _ & _ & _ & Hkeep).
  rewrite <-Hj in Hkeep.
  apply handlePick_qf_inv in Hp as (_ & _ & _ & _ & Hfm & _).
  destruct (settle_equiv st1) as (_ & Hsf' & Hfm').
  assert (arr_get (sf (settle st1)) j = Some s) as Hs'
    by (by rewrite Hsf', Hkeep).
  exists (settle st1). split; [done|]. split_and!.
  - exists s. split_and!; [done..|]. rewrite Hfm', Hfm.
    by destruct (bool_decide _).
  - intros side (m & Hm & [t Ht] & _)%offered_shaped; [|done].
    unfold clicked in Hm. simpl in Hm. injection Hm as <-.
    rewrite Hfm', Hfm in Ht. by destruct side.
  - destruct (wired_pick_side st s) as [side Hside];
      [by apply wired_reachable|done|by eapply sf_matches|done|].
    assert (offered (settle st1) (RoundSF, j, side)) as Hoff.
    { apply offered_shaped; [done|]. exists s. split_and!; [done| |done].
      by rewrite Hside. }
    destruct (offered_handle _ _ _ _ Hsh' Hoff) as [st2 Hh].
    exists side, (settle st2). unfold step. rewrite Hh. split; [done|].
    simpl in Hh. rewrite decide_True in Hh by done.
    apply handlePick_sf_inv in Hh as (s' & Hs'' & _ & Hsf2 & Hfm2 & _).
    assert (s' = s) as -> by congruence.
    destruct (settle_equiv st2) as (_ & -> & ->).
    rewrite Hsf2, Hfm2, Hside, set_winner_same.
    split; [by apply arr_set_same|]. by destruct (bool_decide (j = 0)).
Qed.

Lemma quarterfinal_pick_strands_semifinal_witness :
  let st := after pickAllA in
  let s := mkMatch "SF2" (arr_get initialTeams 4) (arr_get initialTeams 6)
             (arr_get initialTeams 4) None in
  reachable st ∧ 0 ≤ 0 < 4 ∧
  arr_get (sf st) (1 - 0 / 2) = Some s ∧ is_Some (winner s) ∧
  ∃ st', step (EvPick RoundQF 0 PickB) st = Some st' ∧
    stranded st' (1 - 0 / 2) ∧
    (∀ side, ¬ offered st' (RoundF, 0, side)) ∧
    ∃ side st'', step (EvPick RoundSF (1 - 0 / 2) side) st' = Some st'' ∧
      sf st'' = sf st' ∧
      chosen (slotOf (bool_decide (1 - 0 / 2 = 0))) (finalMatch st'')
      = winner s.
Proof.
  intros st s.
  assert (0 ≤ 0 < 4) as Hi by lia.
  assert (is_Some (winner s)) as Hw by (by eexists).
  exact (conj (after_reachable _) (conj Hi (conj eq_refl (conj Hw
           (quarterfinal_pick_strands_semifinal st 0 PickB s
              (after_reachable _) Hi eq_refl Hw))))).
Defined.

(** * A match with one team is simulated *)

(** C38. A match with a single team gets an outcome.  For every
    well-shaped state and every tape, a match with one empty slot has its
    only team as outcome after [handleSimulate], and then counts at least
    one point, while the specification leaves such a match without
    outcome. *)
Theorem simulate_single_team random st k m t :
  shaped st → match_at st k = Some m → lone m = Some t →
  ∃ m', match_at (handleSimulate random st 0).1 k = Some m' ∧
    outcome m' = Some t ∧ 1 ≤ calc (Some m') ∧
    result ((simulateAll (drawn ∘ random) (abs_tree st)).1 k) = None.
Proof.
  intros Hsh Hm Hl.
  destruct (match_at_simulated random st k m Hsh Hm) as (o & Hm' & Hd).
  apply (may_draw_lone _ _ t) in Hd as ->; [|done].
  eexists. split_and!; [done|done|..].
  - rewrite calc_Some. unfold decided. simpl.
    repeat case_decide; lia || naive_solver.
  - apply simulateAll_incomplete. unfold abs_tree. rewrite Hm. simpl.
    unfold complete_node, lone in *. simpl.
    destruct (teamA m), (teamB m); naive_solver.
Qed.

Lemma simulate_single_team_witness :
  let st := after [EvPick RoundQF 0 PickA] in
  let t := mkTeam 1 "papaneus" in
  let m := mkMatch "SF1" (Some t) None None None in
  let random := tape_of [] in
  shaped st ∧ match_at st SF1 = Some m ∧ lone m = Some t ∧
  ∃ m', match_at (handleSimulate random st 0).1 SF1 = Some m' ∧
    outcome m' = Some t ∧ 1 ≤ calc (Some m') ∧
    result ((simulateAll (drawn ∘ random) (abs_tree st)).1 SF1) = None.
Proof.
  intros st t m random.
  assert (shaped st) as Hsh by apply reachable_shaped_lemma, after_reachable.
  exact (conj Hsh (conj eq_refl (conj eq_refl
           (simulate_single_team random st SF1 m t Hsh eq_refl eq_refl)))).
Defined.

(** * Reset keeps the announced checkpoints *)

(** C39. Reset does not clear [announced].  A Reset in a reachable state
    gives the initial stores, and the initial state only when nothing had
    been announced; and whatever the user does after it, every checkpoint
    that was announced before the Reset stays announced and is never
    alerted again, also when the total falls to 0 and reaches the
    threshold a second time. *)
Theorem reset_keeps_checkpoints st es msgs st' :
  reachable (sys:=home_system) st →
  run_alerts (EvReset :: es) st = Some (msgs, st') →
  (∃ st0, step EvReset st = Some st0 ∧ st0 ≡ initialHome ∧
     (st0 = initialHome ↔ announced st = [])) ∧
  (∀ p, p ∈ announced st → p ∈ announced st' ∧ ¬ alerted p msgs).
Proof.
  intros Hr Hrun.
  assert (reachable st') as [Hpre _]%announced_ok_reachable.
  { eapply run_reachable; [done|]. by rewrite <-run_alerts_run, Hrun. }
  destruct (run_alerts_announced _ _ _ _ Hrun) as (new & Ha & ->).
  split.
  - simpl in Hrun. destruct (step EvReset st) as [st0|] eqn:Hstep; [|done].
    exists st0. split; [done|]. unfold step in Hstep. simpl in Hstep.
    case_decide; simplify_eq/=. rewrite handleReset_settled.
    split; [done|]. apply handleReset_initial_iff.
  - intros p Hp. rewrite Ha. split; [apply elem_of_app; by left|].
    rewrite alerted_alerts. intros [Hin _].
    assert (NoDup (announced st ++ new)) as Hnd.
    { rewrite <-Ha.
      destruct (prefix_thresholds_cases _ Hpre) as [->|[->|[->| ->]]];
        compute_done. }
    apply NoDup_app in Hnd as (_ & Hdis & _). by apply (Hdis p).
Qed.

Lemma reset_keeps_checkpoints_witness :
  let quarterfinals :=
    [ EvPick RoundQF 0 PickA; EvPick RoundQF 1 PickA;
      EvPick RoundQF 2 PickA; EvPick RoundQF 3 PickA;
      EvSimulate (tape_of (replicate 6 PickA)) ] in
  let st := after quarterfinals in
  ∃ msgs st', reachable st ∧
    run_alerts (EvReset :: quarterfinals) st = Some (msgs, st') ∧
    (∃ st0, step EvReset st = Some st0 ∧ st0 ≡ initialHome ∧
       (st0 = initialHome ↔ announced st = [])) ∧
    (∀ p, p ∈ announced st → p ∈ announced st' ∧ ¬ alerted p msgs).
Proof.
  intros quarterfinals st.
  destruct (run_alerts (EvReset :: quarterfinals) st) as [[msgs st']|] eqn:Hrun;
    [|by vm_compute in Hrun].
  exists msgs, st'.
  exact (conj (after_reachable _) (conj eq_refl
           (reset_keeps_checkpoints st quarterfinals msgs st'
              (after_reachable _) Hrun))).
Defined.

(** * The gold alert *)

(** C40. The alert for 18 points says that all picks are right, and it is
    shown for six correct picks of seven.  A step from a reachable state
    shows the alert exactly when the state it ends in has at least six
    matches whose pick is the outcome and 18 was not announced before. *)
Theorem gold_alert_six_correct e st st' :
  reachable (sys:=home_system) st → step e st = Some st' →
  (alerted 18 (shown e st) ↔
     (6 ≤ count correct (matches st') ∧ 18 ∉ announced st)) ∧
  (alerted 18 (shown e st) →
     "Geweldig! Je hebt alle picks goed: Gold crate (18 punten)."
       ∈ shown e st).
Proof.
  intros Hr Hstep. pose proof (reachable_shaped_lemma st Hr) as Hsh.
  unfold step, shown in *.
  destruct (handle e st) as [st1|] eqn:Hh; simplify_eq/=.
  pose proof (handle_shaped e st st1 Hsh Hh) as Hsh1.
  apply handle_announced in Hh as Ha.
  rewrite (matches_proper _ _ (settle_equiv st1)), checkpointEffect_alerts, Ha.
  pose proof (points_counts st1 Hsh1) as Hpts.
  split.
  - rewrite alerted_alerts, elem_of_newlyReached, thresholds_eq. split.
    + intros [(_ & Hp & Hn) _]. split; [lia|done].
    + intros [Hc Hn]. split_and!; [compute_done|lia|done|by eexists].
  - intros (c & [= <-] & Hin). exact Hin.
Qed.

Lemma gold_alert_six_correct_witness :
  let st := after pickAllA in
  let e := EvSimulate (tape_of (replicate 6 PickA ++ [PickB])) in
  let st' := after (pickAllA ++ [e]) in
  reachable st ∧ step e st = Some st' ∧
  count correct (matches st') = 6 ∧
  (alerted 18 (shown e st) ↔
     (6 ≤ count correct (matches st') ∧ 18 ∉ announced st)) ∧
  (alerted 18 (shown e st) →
     "Geweldig! Je hebt alle picks goed: Gold crate (18 punten)."
       ∈ shown e st).
Proof.
  intros st e st'.
  exact (conj (after_reachable _) (conj eq_refl (conj eq_refl
           (gold_alert_six_correct e st st' (after_reachable _) eq_refl)))).
Defined.
