(* ===== verification/Scenarios.v ===== *)
(** Scenarios: runs of the component from its initial state, each a named
    list of clicks evaluated by [run].  The scenario of the specification,
    one run for each of the departures that [Departures] states in
    general, and a handler called one render late. *)

From Stdlib Require Import ZArith QArith Lia.
From stdpp Require Import base tactics option list numbers strings.
From S2P Require Import Prelude Transition Entrants Bracket Propagation.
From S2P Require Import Scoring Simulation View App Runs.

#[local] Open Scope string_scope.
#[local] Open Scope list_scope.
#[local] Open Scope Z_scope.

(** * The runs *)

(** Both quarterfinals of the first pair are picked, a simulation draws
    slot A everywhere, then the pick of quarterfinal 1 is changed. *)
Definition stale_run : list Event :=
  [ EvPick RoundQF 0 PickA; EvPick RoundQF 1 PickA;
    EvSimulate (tape_of (replicate 5 PickA)); EvPick RoundQF 0 PickB ].

(** A complete bracket, then a new pick in quarterfinal 1. *)
Definition stranded_run : list Event := pickAllA ++ [EvPick RoundQF 0 PickB].

(** One quarterfinal pick, then a simulation. *)
Definition single_slot_run : list Event :=
  [ EvPick RoundQF 0 PickA; EvSimulate (tape_of []) ].

(** The four quarterfinals picked. *)
Definition quarterfinals_run : list Event :=
  [ EvPick RoundQF 0 PickA; EvPick RoundQF 1 PickA;
    EvPick RoundQF 2 PickA; EvPick RoundQF 3 PickA ].

(** The four quarterfinals picked and simulated as picked, then Reset. *)
Definition reset_run : list Event :=
  quarterfinals_run ++ [EvSimulate (tape_of (replicate 6 PickA)); EvReset].

(** The draws that agree with slot A everywhere but in the final. *)
Definition final_lost : nat → Q := tape_of (replicate 6 PickA ++ [PickB]).

(** A complete bracket of slot A, simulated with [final_lost]. *)
Definition gold_run : list Event := pickAllA ++ [EvSimulate final_lost].

(** The two quarterfinals of the first pair picked: the render whose
    handlers the closure scenario calls one click too late. *)
Definition earlier_render : list Event :=
  [ EvPick RoundQF 0 PickA; EvPick RoundQF 1 PickA ].

(** Three clicks: quarterfinal 1, then its semifinal, then the final. *)
Definition walkover_run : list Event :=
  [ EvPick RoundQF 0 PickA; EvPick RoundSF 0 PickA; EvPick RoundF 0 PickA ].

(** Evaluate the run of a goal [∃ st, state_after es = Some st ∧ _]. *)
Ltac scenario :=
  lazymatch goal with
  | |- ∃ st, state_after ?es = Some st ∧ _ =>
      let r := eval vm_compute in (state_after es) in
      lazymatch r with
      | Some ?s => exists s; split; [vm_compute; reflexivity|]
      end
  end.

(** * The scenario of the specification *)

(** Eight seeded entrants, slot A picked in the four quarterfinals, the
    two semifinals and the final: slot A of the final then holds the
    entrant of slot A of quarterfinal 1, that entrant is the final's pick,
    the champion line names it, and the bracket is complete. *)
Theorem scenario_all_A :
  ∃ st, state_after pickAllA = Some st ∧
    teamA (finalMatch st) = arr_get initialTeams 0 ∧
    winner (finalMatch st) = arr_get initialTeams 0 ∧
    champion st = "papaneus" ∧ complete st ∧ points st = 0.
Proof. scenario. split_and!; compute_done. Qed.

(** * One run for each departure *)

(** A semifinal can show an outcome that is none of its occupants:
    [sfPropagateUpdater] replaces a slot and keeps the old [outcome].
    After [stale_run] semifinal 1 is "morrog" against "faralley" with
    outcome "papaneus", and still counts one point. *)
Theorem stale_semifinal_outcome :
  ∃ st, state_after stale_run = Some st ∧
    ∃ m, arr_get (sf st) 0 = Some m ∧ full m ∧
      outcome m = arr_get initialTeams 0 ∧
      ¬ occupant_or_none (outcome m) m ∧ calc (Some m) = 1.
Proof. scenario. eexists. split_and!; [reflexivity|..]; compute_done. Qed.

(** A semifinal pick can be left without its place in the final: a
    quarterfinal pick empties both slots of the final, also the slot fed by
    the semifinal of the other half.  After [stranded_run] semifinal 2
    still shows its pick and slot B of the final is empty; no button of the
    final is offered until the user clicks the semifinal pick again. *)
Theorem stranded_semifinal_pick :
  ∃ st, state_after stranded_run = Some st ∧
    (∃ m, arr_get (sf st) 1 = Some m ∧ winner m = arr_get initialTeams 4) ∧
    teamB (finalMatch st) = None ∧
    (∀ s, ¬ offered st (RoundF, 0, s)) ∧
    state_after (stranded_run ++ [EvPick RoundSF 1 PickA]) ≫=
      (λ st', teamB (finalMatch st')) = arr_get initialTeams 4.
Proof.
  scenario. split_and!; [by eexists|done|intros []; compute_done|].
  by vm_compute.
Qed.

(** A match with a single team gets an outcome: [pickRandom] returns
    the only occupant.  After [single_slot_run] the first semifinal has an
    empty slot, an outcome, and scores a point. *)
Theorem single_slot_outcome :
  ∃ st, state_after single_slot_run = Some st ∧
    ∃ m, arr_get (sf st) 0 = Some m ∧ teamB m = None ∧
      outcome m = arr_get initialTeams 0 ∧ calc (Some m) = 1 ∧
      points st = 5.
Proof. scenario. eexists. split_and!; [reflexivity|..]; compute_done. Qed.

(** Reset does not restore the initial state once a checkpoint was
    announced: after four correct quarterfinal picks (14 points, two
    checkpoints announced) and Reset, the three match stores are the
    initial ones and [announced] still holds 6 and 12, so playing the same
    bracket again reaches 14 points and shows no alert. *)
Theorem reset_keeps_announced :
  ∃ st, state_after reset_run = Some st ∧
    st ≡ initialHome ∧ announced st = [6; 12] ∧ st ≠ initialHome ∧
    ∃ st', run quarterfinals_run st = Some st' ∧
      points (handleSimulate (tape_of (replicate 6 PickA)) st' 0).1 = 14 ∧
      shown (EvSimulate (tape_of (replicate 6 PickA))) st' = [].
Proof.
  scenario. split_and!; [done..|].
  eexists. split; [vm_compute; reflexivity|]. by vm_compute.
Qed.

(** The alert for 18 points says that all picks are right, and it is
    shown with a wrong pick: with slot A picked everywhere and a simulation
    that agrees except in the final, the three alerts are shown, the total
    is 19, and the pick of the final is not its outcome. *)
Theorem gold_alert_with_wrong_pick :
  ∃ msgs st, run_alerts gold_run initialHome = Some (msgs, st) ∧
    last msgs =
      Some "Geweldig! Je hebt alle picks goed: Gold crate (18 punten)." ∧
    length msgs = 3%nat ∧ points st = 19 ∧
    winner (finalMatch st) = arr_get initialTeams 0 ∧
    outcome (finalMatch st) = arr_get initialTeams 4 ∧
    ¬ correct (finalMatch st).
Proof.
  destruct (run_alerts gold_run initialHome) as [[msgs st]|] eqn:Hrun;
    [|by vm_compute in Hrun].
  vm_compute in Hrun. injection Hrun as <- <-.
  eexists _, _. split_and!; [done..|]. compute_done.
Qed.

(** A pick in a match with an empty slot is carried out.  The view
    renders a button for the only team of a semifinal, and [handlePick]
    does not look at the other slot: the three clicks of [walkover_run]
    make "papaneus" champion while its semifinal and the final never had a
    second team. *)
Theorem walkover_pick :
  ∃ st, state_after walkover_run = Some st ∧
    (∃ m, arr_get (sf st) 0 = Some m ∧ teamB m = None ∧
       winner m = arr_get initialTeams 0) ∧
    teamB (finalMatch st) = None ∧ champion st = "papaneus" ∧
    ¬ complete st.
Proof. scenario. split_and!; [by eexists|done..|compute_done]. Qed.

(** * A handler of an earlier render *)

(** The semifinal handler reads the team it sends to the final from the
    closure of its render.  Called after one more quarterfinal click, the
    handler of [earlier_render] records the semifinal's present slot A as
    the pick and sends the entrant that slot held at its render to the
    final: the final then holds a team that has left the semifinal, and
    the wiring of the bracket is broken.  The handler of the present render
    sends the pick itself.  The wiring of the reachable states therefore
    rests on React rendering between two clicks. *)
Theorem earlier_render_breaks_wiring :
  ∃ st0 st1 st2,
    state_after earlier_render = Some st0 ∧
    step (EvPick RoundQF 0 PickB) st0 = Some st1 ∧
    handlePickFrom (qf st0) (sf st0) RoundSF 0 PickA st1 = Some st2 ∧
    (∃ m, arr_get (sf st2) 0 = Some m ∧ winner m = arr_get initialTeams 1) ∧
    teamA (finalMatch st2) = arr_get initialTeams 0 ∧
    ¬ wired st2 ∧
    (handlePick RoundSF 0 PickA st1 ≫= λ st, teamA (finalMatch st))
    = arr_get initialTeams 1.
Proof.
  do 3 eexists. split_and!; [by vm_compute..| |by vm_compute| |by vm_compute].
  - by eexists.
  - intros Hw. by vm_compute in Hw; destruct Hw as (_ & _ & _ & _ & [|] & _).
Qed.
